(** * PLD accountant: a shallow embedding of [compute_eps.py]

    The two entry points [get_epsilon_unbounded] (remove/add relation) and
    [get_epsilon_bounded] (substitution relation) of [src/compute_eps.py]
    are embedded statement by statement, followed by the properties of the
    flip, the composition, the two density arrays, the tail integral, the
    Newton loop and the exit that the specification states.

    Numbers, exact.  Python floats and numpy [float64] values are modelled
    by the real numbers [R] of the Standard Library, numpy [complex128]
    values by pairs of reals.  In this layer rounding, overflow, infinities
    and NaN are left out: where numpy would produce [inf] or [nan] (a numpy
    division by zero, the logarithm of zero) the total functions of the
    Standard Library give a value, and the theorems that depend on such
    points carry the hypotheses that exclude them.  The Python exceptions
    that depend on exact values only are modelled: the division of a Python
    float by zero, a negative sample count, a shape mismatch in a slice
    assignment, [int()] of an infinite or undefined boundary index.

    Numbers, with special values.  Where an infinity or a NaN decides what
    the code does, the code is embedded a second time over [xreal] and [xC],
    floats and complex numbers with the IEEE 754 special values: the
    quotient and the floor of lines 145-146, and the Newton loop with its
    exit (module [IEEE]).  There a division by zero gives an infinity or
    NaN, every comparison with NaN is false, [int()] of NaN or of an
    infinity raises, and the rounding of the quotient whose floor is the
    start index of line 97 is a parameter [rnd].  Arithmetic on finite
    numbers is exact in both layers, and on finite values with a nonzero
    derivative the two embeddings of the loop agree (lemma
    [exact_model_agrees]).

    Arrays are lists; slices follow Python's rules for negative and
    out-of-range bounds, slice assignment follows numpy's broadcasting
    rule; element-wise numpy expressions are maps of the expression for one
    entry.  The [while] loop is run with fuel. *)

From Stdlib Require Import Reals Lra Lia ZArith List Bool Zfloor.
Import ListNotations.

Local Open Scope R_scope.

(** ** Exceptions and results *)

Inductive exn : Type :=
| ZeroDivisionError
| ValueError
| OverflowError.

Inductive result (A : Type) : Type :=
| Ok (a : A)
| Raise (e : exn).

Arguments Ok {A} a.
Arguments Raise {A} e.

Definition bind {A B : Type} (r : result A) (k : A -> result B) : result B :=
  match r with
  | Ok a => k a
  | Raise e => Raise e
  end.

Notation "x <- r ;; k" := (bind r (fun x => k))
  (at level 61, r at next level, right associativity).

(** ** Comparisons on floats as booleans *)

Definition Rltb (a b : R) : bool := if Rlt_dec a b then true else false.
Definition Rleb (a b : R) : bool := if Rle_dec a b then true else false.
Definition Reqb (a b : R) : bool := if Req_dec_T a b then true else false.
Definition Rgtb (a b : R) : bool := Rltb b a.

(** ** numpy complex128 *)

Record C : Type := mkC { Re : R; Im : R }.

Definition RtoC (r : R) : C := mkC r 0.
Definition C0 : C := RtoC 0.
Definition C1 : C := RtoC 1.

Definition Cadd (z w : C) : C := mkC (Re z + Re w) (Im z + Im w).
Definition Cneg (z : C) : C := mkC (- Re z) (- Im z).
Definition Csub (z w : C) : C := mkC (Re z - Re w) (Im z - Im w).
Definition Cmul (z w : C) : C :=
  mkC (Re z * Re w - Im z * Im w) (Re z * Im w + Im z * Re w).
Definition Cdiv (z w : C) : C :=
  let d := Re w * Re w + Im w * Im w in
  mkC ((Re z * Re w + Im z * Im w) / d) ((Im z * Re w - Re z * Im w) / d).

(** [np.abs] of a complex number: the modulus. *)
Definition Cabs (z : C) : R := sqrt (Re z * Re z + Im z * Im z).

Definition Cexp (z : C) : C := mkC (exp (Re z) * cos (Im z)) (exp (Re z) * sin (Im z)).

(** Principal argument, in (-pi, pi]. *)
Definition Carg (z : C) : R :=
  if Rltb 0 (Re z) then atan (Im z / Re z)
  else if Rltb (Re z) 0 then
         if Rltb (Im z) 0 then atan (Im z / Re z) - PI else atan (Im z / Re z) + PI
       else if Rltb 0 (Im z) then PI / 2
            else if Rltb (Im z) 0 then - (PI / 2) else 0.

(** [np.log] on complex input: principal branch. *)
Definition Clog (z : C) : C := mkC (ln (Cabs z)) (Carg z).

(** [np.sqrt] on complex input: principal square root. *)
Definition Csqrt (z : C) : C :=
  mkC (sqrt ((Cabs z + Re z) / 2))
      ((if Rltb (Im z) 0 then -1 else 1) * sqrt ((Cabs z - Re z) / 2)).

(** [z ** p] for a complex base and a real exponent (numpy's [power] on
    complex128): [z ** 0 = 1], [0 ** p = 0], otherwise the principal branch
    [exp (p * log z)]. *)
Definition Cpow (z : C) (p : R) : C :=
  if Reqb p 0 then C1
  else if Reqb (Re z) 0 && Reqb (Im z) 0 then C0
       else Cexp (Cmul (RtoC p) (Clog z)).

(** numpy orders complex numbers lexicographically (real part first). *)
Definition Cltb (z w : C) : bool :=
  Rltb (Re z) (Re w) || (Reqb (Re z) (Re w) && Rltb (Im z) (Im w)).
Definition Cgtb (z w : C) : bool := Cltb w z.
Definition Cgeb (z w : C) : bool :=
  Rltb (Re w) (Re z) || (Reqb (Re z) (Re w) && Rleb (Im w) (Im z)).

(** [np.maximum] on finite complex128 values ([xCmaximum] has the NaN
    case). *)
Definition Cmaximum (z w : C) : C := if Cgeb z w then z else w.

(** [np.sum] of a complex array. *)
Definition Csum (l : list C) : C := fold_left Cadd l C0.

(** ** Python slices and numpy slice assignment *)

Section Slices.
Context {A : Type}.

(** Normalisation of a slice bound [s] against a length [n]: a negative
    bound counts from the end, and the result is clamped to [0, n]. *)
Definition norm_index (n : nat) (s : Z) : nat :=
  if (s <? 0)%Z then Z.to_nat (Z.max 0 (Z.of_nat n + s))
  else Nat.min n (Z.to_nat s).

(** [l[s:]] *)
Definition slice_from (s : Z) (l : list A) : list A :=
  skipn (norm_index (length l) s) l.

(** [l[:s]] *)
Definition slice_to (s : Z) (l : list A) : list A :=
  firstn (norm_index (length l) s) l.

(** Broadcasting a value [v] to a slot of [m] cells: the lengths agree,
    or [v] has one cell, which is repeated; otherwise numpy raises
    [ValueError] (could not broadcast input array). *)
Definition broadcast_to (m : nat) (v : list A) : result (list A) :=
  if Nat.eqb (length v) m then Ok v
  else match v with
       | [a] => Ok (repeat a m)
       | _ => Raise ValueError
       end.

(** [l[s:] = v] *)
Definition assign_from (s : Z) (l v : list A) : result (list A) :=
  let k := norm_index (length l) s in
  v' <- broadcast_to (length l - k) v ;;
  Ok (firstn k l ++ v').

(** [l[:s] = v] *)
Definition assign_to (s : Z) (l v : list A) : result (list A) :=
  let k := norm_index (length l) s in
  v' <- broadcast_to k v ;;
  Ok (v' ++ skipn k l).

(** Lines 47-52 and 161-166 (and 66-68, 179-181 for [cfx]):
<<
    half = int(nx / 2)
    temp = np.copy(fx[half:])
    fx[half:] = np.copy(fx[:half])
    fx[:half] = temp
>>
    [int] truncates towards zero. *)
Definition flip (nx : Z) (fx : list A) : result (list A) :=
  let half := Z.quot nx 2 in
  let temp := slice_from half fx in
  fx1 <- assign_from half fx (slice_to half fx) ;;
  assign_to half fx1 temp.

(** What the specification calls the flip: the two halves exchanged. *)
Definition swap_halves (l : list A) : list A :=
  skipn (length l / 2) l ++ firstn (length l / 2) l.

End Slices.


(** ** Complex arithmetic notation *)

Declare Scope C_scope.
Delimit Scope C_scope with C.
Bind Scope C_scope with C.
Infix "+" := Cadd : C_scope.
Infix "-" := Csub : C_scope.
Infix "*" := Cmul : C_scope.
Infix "/" := Cdiv : C_scope.
Notation "- z" := (Cneg z) : C_scope.

(** [z ** 2] on an array is the square. *)
Definition Csqr (z : C) : C := (z * z)%C.

(** ** numpy array primitives *)

(** Element-wise binary operation on two arrays of the same shape. *)
Definition map2 {A B D : Type} (f : A -> B -> D) (a : list A) (b : list B)
  : list D :=
  map (fun ab => f (fst ab) (snd ab)) (combine a b).

(** The first index of [l] at which [p] holds ([length l] if there is
    none), and the sum of a real array. *)
Fixpoint first_index {A : Type} (p : A -> bool) (l : list A) : nat :=
  match l with
  | [] => O
  | a :: l' => if p a then O else S (first_index p l')
  end.

Definition Rsum (l : list R) : R := fold_left Rplus l 0.

(** [np.zeros(n)] *)
Definition zeros (n : Z) : list R := repeat 0 (Z.to_nat n).

(** [np.linspace(start, stop, num, dtype=np.complex128)]: [num] samples
    [start + i * step] with [step = (stop - start) / (num - 1)]; a negative
    [num] raises [ValueError]. *)
Definition linspace (start stop : R) (num : Z) : result (list C) :=
  if (num <? 0)%Z then Raise ValueError
  else
    let div := (num - 1)%Z in
    let step := if (0 <? div)%Z then (stop - start) / IZR div
                else stop - start in
    Ok (map (fun i => RtoC (INR i * step + start)) (seq 0 (Z.to_nat num))).

(** The discrete Fourier transform computed by [np.fft.fft] and its inverse
    [np.fft.ifft]:
    [A_k = sum_j a_j exp (-2 pi i j k / n)] and
    [a_j = (1/n) sum_k A_k exp (2 pi i j k / n)]. *)
Definition twiddle (sgn : R) (n k j : nat) : C :=
  Cexp (mkC 0 (sgn * (2 * PI * INR j * INR k / INR n))).

Definition dft (sgn : R) (a : list C) : list C :=
  map (fun k =>
         Csum (map (fun j => (nth j a C0 * twiddle sgn (length a) k j)%C)
                   (seq 0 (length a))))
      (seq 0 (length a)).

Definition fft (a : list C) : list C := dft (-1) a.

Definition ifft (a : list C) : list C :=
  map (fun z => (z / RtoC (INR (length a)))%C) (dft 1 a).

(** Python float division [a / b]: a zero divisor raises. *)
Definition py_div (a b : R) : result R :=
  if Reqb b 0 then Raise ZeroDivisionError else Ok (a / b).

(** [int(np.floor(float(a / b)))] where [a] is a numpy float: a zero
    divisor gives [nan] (for [a = 0]) or an infinity, on which [int] raises
    [ValueError] and [OverflowError]. *)
Definition np_floor_div (a b : R) : result Z :=
  if Reqb b 0 then
    if Reqb a 0 then Raise ValueError else Raise OverflowError
  else Ok (Zfloor (a / b)).

(** [int(r)] on a float: truncation towards zero. *)
Definition py_int (r : R) : Z := if Rleb 0 r then Zfloor r else Zceil r.

(** The grid that lines 26-27 build, in closed form: [x_i = -L + i * dx]
    with [dx = 2 L / nx]. *)
Definition grid (nx : Z) (L : R) : list C :=
  map (fun i => RtoC (- L + INR i * (2 * L / IZR nx))) (seq 0 (Z.to_nat nx)).

(** ** Results of the entry points *)

Inductive relation : Type := RemoveAdd | Substitution.

(** The value returned: a float or [float('inf')]. *)
Inductive retval : Type :=
| Finite (r : R)
| PlusInf.

(** The lines printed.  [MsgEpsilon rel n eps delta] stands for
    ['<Unbounded|Bounded> DP-epsilon after n compositions:eps (delta=delta)']. *)
Inductive message : Type :=
| MsgOutOfWindow
| MsgEpsilon (rel : relation) (n : Z) (eps : R) (delta : R).

Inductive outcome : Type :=
| Returned (v : retval) (stdout : list message)
| Raised (e : exn)
| OutOfFuel.

(** The variables that the Newton loop reads and writes. *)
Record vars : Type := mkVars {
  eps_0 : C;
  exp_e : list C;
  dexp_e : list C;
  integrand : list C;
  integrand2 : list C;
  sum_int : C;
  sum_int2 : C;
  delta_temp : C;
  derivative : C
}.

(** ** The pipeline *)

Section Accountant.

Variables (target_delta sigma q ncomp : R) (nx : Z) (L : R).

(** [tol_newton = 1e-10] *)
Definition tol_newton : R := / 10 ^ 10.

(** The Gaussian mixture weight, lines 41-42 and 156-157:
<<
    (1 / np.sqrt(2*np.pi*sigma**2)) * ((1-q) * np.exp(-Linvx*Linvx / (2*sigma**2))
                                       + q * np.exp(-(Linvx-1)*(Linvx-1) / (2*sigma**2)))
>> *)
Definition mixture (Linvx : C) : C :=
  (RtoC (1 / sqrt (2 * PI * sigma ^ 2))
   * (RtoC (1 - q) * Cexp ((- Linvx) * Linvx / RtoC (2 * sigma ^ 2))
      + RtoC q
        * Cexp ((- (Linvx - C1)) * (Linvx - C1) / RtoC (2 * sigma ^ 2))))%C.

(** *** Remove/add relation: lines 29-46 *)

(** Line 31: [ii = int(np.floor(float(nx * (L + np.log(1 - q)) / (2 * L))))].
    [np.log] of a negative float is [nan], of zero [-inf]. *)
Definition boundary_index : result Z :=
  if Rltb (1 - q) 0 then Raise ValueError
  else if Reqb (1 - q) 0 then Raise OverflowError
  else np_floor_div (IZR nx * (L + ln (1 - q))) (2 * L).

(** Line 39 *)
Definition Linvx_unbounded (xi : C) : C :=
  (RtoC (sigma ^ 2) * Clog ((Cexp xi - RtoC (1 - q)) / RtoC q) + RtoC (1 / 2))%C.

(** Line 43 *)
Definition dLinvx_unbounded (ey : C) : C :=
  (RtoC (sigma ^ 2) * ey / (ey - RtoC (1 - q)))%C.

(** Lines 38-46, given the grid and [ii]. *)
Definition pld_unbounded (x : list C) (ii : Z) : result (list R) :=
  let ey := map Cexp (slice_from (ii + 1) x) in
  let Linvx := map Linvx_unbounded (slice_from (ii + 1) x) in
  let ALinvx := map mixture Linvx in
  let dLinvx := map dLinvx_unbounded ey in
  let fx := zeros nx in
  assign_from (ii + 1) fx (map Re (map2 Cmul ALinvx dLinvx)).

(** *** Substitution relation: lines 140-159 *)

Section Substitution.

(** [c], line 143, and [ey], one entry of line 144. *)
Variables (c : R) (ey : C).

(** The discriminant root, lines 145 and 149. *)
Definition sq_bounded : C :=
  Csqrt (RtoC ((1 - q) ^ 2) * Csqr (C1 - ey) + RtoC (4 * c ^ 2) * ey)%C.

(** Line 145, for a nonzero [c] ([IEEE.term1_bounded] has the quotient by
    zero). *)
Definition term1_bounded : C :=
  ((RtoC (- (1 - q)) * (C1 - ey) + sq_bounded) / RtoC (2 * c))%C.

(** Line 146, [term1 = np.maximum(term1, 1e-16)], for one entry: the
    argument of the logarithm of line 147. *)
Definition term1_floored : C := Cmaximum term1_bounded (RtoC (/ 10 ^ 16)).

(** Line 147 for one entry. *)
Definition Linvx_bounded : C := (RtoC (sigma ^ 2) * Clog term1_floored)%C.

(** Line 150 *)
Definition nom1_bounded : C :=
  (RtoC (4 * c ^ 2) * ey - RtoC (2 * (1 - q) ^ 2) * ey * (C1 - ey))%C.

(** Lines 151-153 for one entry. *)
Definition nom2_bounded : C :=
  let term1 := (nom1_bounded / (RtoC 2 * sq_bounded))%C in
  let nom2 := (term1 + RtoC (1 - q) * ey)%C in
  (nom2 * (sq_bounded + RtoC (1 - q) * (C1 - ey)))%C.

(** Line 154 for one entry. *)
Definition dLinvx_bounded : C :=
  (RtoC (sigma ^ 2) * nom2_bounded / (RtoC (4 * c ^ 2) * ey))%C.

End Substitution.

(** Line 143: [c = q * np.exp(-1 / (2 * sigma ** 2))]; the quotient is a
    Python float division. *)
Definition c_bounded : result R :=
  e <- py_div (-1) (2 * sigma ^ 2) ;;
  Ok (q * exp e).

(** Lines 144-159, given the grid, [c] and [ii = 1]; one array per
    assignment, each computed element-wise from the arrays it reads. *)
Definition pld_bounded (x : list C) (c : R) (ii : Z) : result (list R) :=
  let ey := map Cexp (slice_from (ii - 1) x) in
  let term1 := map (term1_bounded c) ey in
  let term1 := map (fun t => Cmaximum t (RtoC (/ 10 ^ 16))) term1 in
  let Linvx := map (fun t => (RtoC (sigma ^ 2) * Clog t)%C) term1 in
  let sq := map (sq_bounded c) ey in
  let nom1 := map (nom1_bounded c) ey in
  let term1 := map2 (fun n s => (n / (RtoC 2 * s))%C) nom1 sq in
  let nom2 := map2 (fun t e => (t + RtoC (1 - q) * e)%C) term1 ey in
  let nom2 :=
    map2 (fun n se => (n * (fst se + RtoC (1 - q) * (C1 - snd se)))%C)
         nom2 (combine sq ey) in
  let dLinvx :=
    map2 (fun n e => (RtoC (sigma ^ 2) * n / (RtoC (4 * c ^ 2) * e))%C)
         nom2 ey in
  let ALinvx := map mixture Linvx in
  let fx := zeros nx in
  assign_from (ii - 1) fx (map Re (map2 Cmul ALinvx dLinvx)).

(** The entries that lines 46 and 159 store, as functions of a grid point. *)
Definition density_unbounded (xi : C) : R :=
  Re (mixture (Linvx_unbounded xi) * dLinvx_unbounded (Cexp xi))%C.

Definition density_bounded (c : R) (xi : C) : R :=
  Re (mixture (Linvx_bounded c (Cexp xi)) * dLinvx_bounded c (Cexp xi))%C.

(** The remove/add density at a real grid point [t] as the specification
    words it (section 4.2): the Gaussian mixture weight at
    [Linvx = sigma^2 ln ((exp t - (1 - q)) / q) + 1/2] times the derivative
    of the inverse map. *)
Definition spec_density_unbounded (t : R) : R :=
  let Linvx := sigma ^ 2 * ln ((exp t - (1 - q)) / q) + 1 / 2 in
  let ALinvx :=
    1 / sqrt (2 * PI * sigma ^ 2)
    * ((1 - q) * exp (- Linvx * Linvx / (2 * sigma ^ 2))
       + q * exp (- (Linvx - 1) * (Linvx - 1) / (2 * sigma ^ 2))) in
  let dLinvx := sigma ^ 2 * exp t / (exp t - (1 - q)) in
  ALinvx * dLinvx.

(** *** The tail integral and the Newton loop *)

Section Newton.

(** The grid, its spacing and the composed density. *)
Variables (x : list C) (dx : R) (cfx : list C).

(** [1 - np.exp(eps_0 - x)] and [-np.exp(eps_0 - x)] *)
Definition exp_e_of (eps : C) : list C :=
  map (fun xi => (C1 - Cexp (eps - xi))%C) x.
Definition dexp_e_of (eps : C) : list C :=
  map (fun xi => (- Cexp (eps - xi))%C) x.

(** [int(np.floor(float(nx * (L + np.real(eps_0)) / (2 * L))))], the
    quotient not rounded ([IEEE.quotient] is the quotient as the floats
    give it). *)
Definition start_index (eps : C) : Z :=
  Zfloor (IZR nx * (L + Re eps) / (2 * L)).

(** Lines 71-78 and 184-191, with [eps_0 = 0] and the index [jj]. *)
Definition initial_vars (jj : Z) : vars :=
  let eps_0 := C0 in
  let exp_e := exp_e_of eps_0 in
  let dexp_e := dexp_e_of eps_0 in
  let integrand := map2 Cmul exp_e cfx in
  let integrand2 := map2 Cmul dexp_e cfx in
  let sum_int := Csum (slice_from (jj + 1) integrand) in
  let sum_int2 := Csum (slice_from (jj + 1) integrand2) in
  let delta_temp := (sum_int * RtoC dx)%C in
  let derivative := (sum_int2 * RtoC dx)%C in
  mkVars eps_0 exp_e dexp_e integrand integrand2 sum_int sum_int2
         delta_temp derivative.

(** The two sums that the code forms for an iterate [eps] and a start
    index [k], lines 73-78 and 104-109. *)
Definition tail_delta (eps : C) (k : Z) : C :=
  (Csum (slice_from (k + 1) (map2 Cmul (exp_e_of eps) cfx)) * RtoC dx)%C.
Definition tail_derivative (eps : C) (k : Z) : C :=
  (Csum (slice_from (k + 1) (map2 Cmul (dexp_e_of eps) cfx)) * RtoC dx)%C.

(** The tail integral as the specification words it (section 4.5), for a
    real candidate [eps]: [k] is the first grid index at which
    [1 - exp (eps - x)] is positive, the grid points at or below [k] are
    left out, and the real part of [cfx] enters the sums. *)
Definition spec_first_positive (eps : R) : nat :=
  first_index (fun xi => Rltb 0 (1 - exp (eps - Re xi))) x.
Definition spec_delta (eps : R) : R :=
  dx * Rsum (skipn (S (spec_first_positive eps))
                   (map2 (fun xi c => (1 - exp (eps - Re xi)) * Re c) x cfx)).
Definition spec_derivative (eps : R) : R :=
  dx * Rsum (skipn (S (spec_first_positive eps))
                   (map2 (fun xi c => (- exp (eps - Re xi)) * Re c) x cfx)).

(** The loop test, lines 83 and 195, on a finite [delta_temp]
    ([IEEE.keep_going] has the test on NaN and on an infinity). *)
Definition residual (v : vars) : R :=
  Cabs (delta_temp v - RtoC target_delta)%C.
Definition keep_going (v : vars) : bool := Rgtb (residual v) tol_newton.

(** The window test inside the loop, lines 89 and 202:
    [eps_0 < -L or eps_0 > L] on a numpy complex number. *)
Definition out_of_window (eps : C) : bool :=
  Cltb eps (RtoC (- L)) || Cgtb eps (RtoC L).

(** Line 87, on finite values and for a nonzero [derivative]
    ([IEEE.newton_step] has the quotient by zero). *)
Definition newton_step (v : vars) : C :=
  (eps_0 v - (delta_temp v - RtoC target_delta) / derivative v)%C.

(** The loop body, lines 84-109 and 197-223; the boolean tells whether the
    body left through [break]. *)
Definition newton_body (v : vars) : vars * bool :=
  let eps_0 := newton_step v in
  if out_of_window eps_0 then
    (mkVars eps_0 (exp_e v) (dexp_e v) (integrand v) (integrand2 v)
            (sum_int v) (sum_int2 v) (delta_temp v) (derivative v), true)
  else
    let exp_e := exp_e_of eps_0 in
    let dexp_e := dexp_e_of eps_0 in
    let kk := start_index eps_0 in
    let integrand := map2 Cmul exp_e cfx in
    let sum_int := Csum (slice_from (kk + 1) integrand) in
    let delta_temp := (sum_int * RtoC dx)%C in
    let integrand := map2 Cmul exp_e cfx in
    let integrand2 := map2 Cmul dexp_e cfx in
    let sum_int := Csum (slice_from (kk + 1) integrand) in
    let sum_int2 := Csum (slice_from (kk + 1) integrand2) in
    let delta_temp := (sum_int * RtoC dx)%C in
    let derivative := (sum_int2 * RtoC dx)%C in
    (mkVars eps_0 exp_e dexp_e integrand integrand2 sum_int sum_int2
            delta_temp derivative, false).

(** The [while] loop; [None] when the fuel does not suffice. *)
Fixpoint newton_loop (fuel : nat) (v : vars) : option vars :=
  if keep_going v then
    match fuel with
    | O => None
    | S fuel' =>
        let (v', broke) := newton_body v in
        if broke then Some v' else newton_loop fuel' v'
    end
  else Some v.

(** The loop body with one evaluation of the sums per iteration, as the
    specification proposes (section 4.6). *)
Definition newton_body_single (v : vars) : vars * bool :=
  let eps_0 := newton_step v in
  if out_of_window eps_0 then
    (mkVars eps_0 (exp_e v) (dexp_e v) (integrand v) (integrand2 v)
            (sum_int v) (sum_int2 v) (delta_temp v) (derivative v), true)
  else
    let exp_e := exp_e_of eps_0 in
    let dexp_e := dexp_e_of eps_0 in
    let kk := start_index eps_0 in
    let integrand := map2 Cmul exp_e cfx in
    let integrand2 := map2 Cmul dexp_e cfx in
    let sum_int := Csum (slice_from (kk + 1) integrand) in
    let sum_int2 := Csum (slice_from (kk + 1) integrand2) in
    let delta_temp := (sum_int * RtoC dx)%C in
    let derivative := (sum_int2 * RtoC dx)%C in
    (mkVars eps_0 exp_e dexp_e integrand integrand2 sum_int sum_int2
            delta_temp derivative, false).

Fixpoint newton_loop_single (fuel : nat) (v : vars) : option vars :=
  if keep_going v then
    match fuel with
    | O => None
    | S fuel' =>
        let (v', broke) := newton_body_single v in
        if broke then Some v' else newton_loop_single fuel' v'
    end
  else Some v.

End Newton.

(** Lines 111-118 and 225-231. *)
Definition report (rel : relation) (eps : C) : outcome :=
  if Rltb (Re eps) (- L) || Rltb L (Re eps) then
    Returned PlusInf [MsgOutOfWindow]
  else
    Returned (Finite (Re eps))
             [MsgEpsilon rel (py_int ncomp) (Re eps) target_delta].

(** Lines 55 and 168: [FF1 = np.fft.fft(fx * dx)] *)
Definition forward (fx : list R) (dx : R) : list C :=
  fft (map RtoC (map (fun v => v * dx) fx)).

(** Lines 63 and 176: [cfx = np.fft.ifft((FF1 ** ncomp / dx))] *)
Definition backward (FF1 : list C) (dx : R) : list C :=
  ifft (map (fun z => (Cpow z ncomp / RtoC dx)%C) FF1).

(** The composed density as the specification writes it (section 4.4):
    [flip (IDFT ((DFT (flip fx * dx)) ^ ncomp / dx))]. *)
Definition composed_density (fx : list R) (dx : R) : list C :=
  swap_halves
    (ifft (map (fun z => (Cpow z ncomp / RtoC dx)%C)
               (fft (map RtoC (map (fun v => v * dx) (swap_halves fx)))))).

(** *** The two entry points up to the loop *)

(** Lines 22-78: the grid, its spacing, the composed density and the
    variables with which the loop is entered. *)
Definition prepare_unbounded : result (list C * R * list C * vars) :=
  dx <- py_div (2 * L) (IZR nx) ;;
  x <- linspace (- L) (L - dx) nx ;;
  ii <- boundary_index ;;
  fx <- pld_unbounded x ii ;;
  fx <- flip nx fx ;;
  let FF1 := forward fx dx in
  jj <- py_div (IZR nx * (L + 0)) (2 * L) ;;
  let jj := Zfloor jj in
  let cfx := backward FF1 dx in
  cfx <- flip nx cfx ;;
  Ok (x, dx, cfx, initial_vars x dx cfx jj).

(** Lines 130-191.  In line 173 [np.real(eps_0)] is taken of the Python
    integer 0 and is that integer, so the quotient is a Python float
    division as in line 60. *)
Definition prepare_bounded : result (list C * R * list C * vars) :=
  dx <- py_div (2 * L) (IZR nx) ;;
  x <- linspace (- L) (L - dx) nx ;;
  let ii := 1%Z in
  c <- c_bounded ;;
  fx <- pld_bounded x c ii ;;
  fx <- flip nx fx ;;
  let FF1 := forward fx dx in
  jj <- py_div (IZR nx * (L + Re C0)) (2 * L) ;;
  let jj := Zfloor jj in
  let cfx := backward FF1 dx in
  cfx <- flip nx cfx ;;
  Ok (x, dx, cfx, initial_vars x dx cfx jj).

Definition run_newton (rel : relation) (fuel : nat)
  (st : list C * R * list C * vars) : outcome :=
  let '(x, dx, cfx, v) := st in
  match newton_loop x dx cfx fuel v with
  | None => OutOfFuel
  | Some v' => report rel (eps_0 v')
  end.

(** The same with the single-evaluation loop body. *)
Definition run_newton_single (rel : relation) (fuel : nat)
  (st : list C * R * list C * vars) : outcome :=
  let '(x, dx, cfx, v) := st in
  match newton_loop_single x dx cfx fuel v with
  | None => OutOfFuel
  | Some v' => report rel (eps_0 v')
  end.

Definition get_epsilon_unbounded (fuel : nat) : outcome :=
  match prepare_unbounded with
  | Raise e => Raised e
  | Ok st => run_newton RemoveAdd fuel st
  end.

Definition get_epsilon_bounded (fuel : nat) : outcome :=
  match prepare_bounded with
  | Raise e => Raised e
  | Ok st => run_newton Substitution fuel st
  end.

Definition get_epsilon_unbounded_single (fuel : nat) : outcome :=
  match prepare_unbounded with
  | Raise e => Raised e
  | Ok st => run_newton_single RemoveAdd fuel st
  end.

Definition get_epsilon_bounded_single (fuel : nat) : outcome :=
  match prepare_bounded with
  | Raise e => Raised e
  | Ok st => run_newton_single Substitution fuel st
  end.

(** The two entry points indexed by the relation, to state what holds
    of both. *)
Definition prepare (rel : relation) : result (list C * R * list C * vars) :=
  match rel with
  | RemoveAdd => prepare_unbounded
  | Substitution => prepare_bounded
  end.

Definition get_epsilon (rel : relation) (fuel : nat) : outcome :=
  match rel with
  | RemoveAdd => get_epsilon_unbounded fuel
  | Substitution => get_epsilon_bounded fuel
  end.

Definition get_epsilon_single (rel : relation) (fuel : nat) : outcome :=
  match rel with
  | RemoveAdd => get_epsilon_unbounded_single fuel
  | Substitution => get_epsilon_bounded_single fuel
  end.

End Accountant.

(** The numerator of line 145, before the division by [2 * c]. *)
Definition term1_numerator (q c : R) (ey : C) : C :=
  (RtoC (- (1 - q)) * (C1 - ey) + sq_bounded q c ey)%C.

(** ** IEEE 754 special values *)

(** A [float64] with its special values: a finite number, one of the two
    infinities, or NaN.  Operations on finite numbers are exact; the sign
    of a zero is not kept, and a zero divisor counts as [+0.0] (numpy
    divides by the absolute value of the divisor where a complex quotient
    has a zero divisor). *)
Inductive xreal : Type :=
| XFin (r : R)
| XPInf
| XNInf
| XNaN.

Definition xinf (positive : bool) : xreal := if positive then XPInf else XNInf.

Definition xisnan (a : xreal) : bool :=
  match a with XNaN => true | _ => false end.

Definition xisinf (a : xreal) : bool :=
  match a with XPInf | XNInf => true | _ => false end.

Definition xneg (a : xreal) : xreal :=
  match a with
  | XFin r => XFin (- r)
  | XPInf => XNInf
  | XNInf => XPInf
  | XNaN => XNaN
  end.

Definition xadd (a b : xreal) : xreal :=
  match a, b with
  | XNaN, _ | _, XNaN => XNaN
  | XFin r, XFin s => XFin (r + s)
  | XPInf, XNInf | XNInf, XPInf => XNaN
  | XPInf, _ | _, XPInf => XPInf
  | XNInf, _ | _, XNInf => XNInf
  end.

Definition xsub (a b : xreal) : xreal := xadd a (xneg b).

Definition xmul (a b : xreal) : xreal :=
  match a, b with
  | XNaN, _ | _, XNaN => XNaN
  | XFin r, XFin s => XFin (r * s)
  | XFin r, XPInf | XPInf, XFin r =>
      if Reqb r 0 then XNaN else xinf (Rltb 0 r)
  | XFin r, XNInf | XNInf, XFin r =>
      if Reqb r 0 then XNaN else xinf (Rltb r 0)
  | XPInf, XPInf | XNInf, XNInf => XPInf
  | XPInf, XNInf | XNInf, XPInf => XNInf
  end.

Definition xdiv (a b : xreal) : xreal :=
  match a, b with
  | XNaN, _ | _, XNaN => XNaN
  | XFin r, XFin s =>
      if Reqb s 0 then (if Reqb r 0 then XNaN else xinf (Rltb 0 r))
      else XFin (r / s)
  | XFin _, XPInf | XFin _, XNInf => XFin 0
  | XPInf, XFin s => xinf (Rleb 0 s)
  | XNInf, XFin s => xinf (Rltb s 0)
  | _, _ => XNaN
  end.

Definition xabs (a : xreal) : xreal :=
  match a with
  | XFin r => XFin (Rabs r)
  | XNaN => XNaN
  | _ => XPInf
  end.

(** Comparisons: every comparison with NaN is false. *)
Definition xltb (a b : xreal) : bool :=
  match a, b with
  | XFin r, XFin s => Rltb r s
  | XNInf, XFin _ | XNInf, XPInf | XFin _, XPInf => true
  | _, _ => false
  end.

Definition xeqb (a b : xreal) : bool :=
  match a, b with
  | XFin r, XFin s => Reqb r s
  | XPInf, XPInf | XNInf, XNInf => true
  | _, _ => false
  end.

Definition xleb (a b : xreal) : bool := xltb a b || xeqb a b.

(** [int(np.floor(float(t)))]: [int] raises [ValueError] on NaN and
    [OverflowError] on an infinity. *)
Definition int_floor (t : xreal) : result Z :=
  match t with
  | XFin r => Ok (Zfloor r)
  | XNaN => Raise ValueError
  | _ => Raise OverflowError
  end.

(** A [complex128] with special values in its two parts. *)
Record xC : Type := mkX { xRe : xreal; xIm : xreal }.

Definition fin (z : C) : xC := mkX (XFin (Re z)) (XFin (Im z)).

Definition xCadd (z w : xC) : xC :=
  mkX (xadd (xRe z) (xRe w)) (xadd (xIm z) (xIm w)).
Definition xCsub (z w : xC) : xC :=
  mkX (xsub (xRe z) (xRe w)) (xsub (xIm z) (xIm w)).
Definition xCneg (z : xC) : xC := mkX (xneg (xRe z)) (xneg (xIm z)).
Definition xCmul (z w : xC) : xC :=
  mkX (xsub (xmul (xRe z) (xRe w)) (xmul (xIm z) (xIm w)))
      (xadd (xmul (xRe z) (xIm w)) (xmul (xIm z) (xRe w))).

(** numpy's complex quotient (Smith's method).  A zero divisor gives the
    two parts of the dividend divided by zero: an infinity for a nonzero
    part and NaN for a zero part. *)
Definition xCdiv (z w : xC) : xC :=
  let ar := xRe z in let ai := xIm z in
  let br := xRe w in let bi := xIm w in
  if xleb (xabs bi) (xabs br) then
    if xeqb (xabs br) (XFin 0) && xeqb (xabs bi) (XFin 0) then
      mkX (xdiv ar (xabs br)) (xdiv ai (xabs br))
    else
      let rat := xdiv bi br in
      let scl := xdiv (XFin 1) (xadd br (xmul bi rat)) in
      mkX (xmul (xadd ar (xmul ai rat)) scl) (xmul (xsub ai (xmul ar rat)) scl)
  else
    let rat := xdiv br bi in
    let scl := xdiv (XFin 1) (xadd bi (xmul br rat)) in
    mkX (xmul (xadd (xmul ar rat) ai) scl) (xmul (xsub (xmul ai rat) ar) scl).

(** [np.abs] of a complex number, a [hypot]: an infinite part gives
    [inf], otherwise a NaN part gives NaN. *)
Definition xCabs (z : xC) : xreal :=
  if xisinf (xRe z) || xisinf (xIm z) then XPInf
  else match xRe z, xIm z with
       | XFin r, XFin s => XFin (sqrt (r * r + s * s))
       | _, _ => XNaN
       end.

(** [z < w] on numpy complex scalars: lexicographic, real part first. *)
Definition xCltb (z w : xC) : bool :=
  xltb (xRe z) (xRe w) || (xeqb (xRe z) (xRe w) && xltb (xIm z) (xIm w)).

(** [np.maximum] on complex arrays: the first argument is kept when one of
    its parts is NaN or when it is at least the second in numpy's order. *)
Definition xCgeb (z w : xC) : bool :=
  (xltb (xRe w) (xRe z) && negb (xisnan (xIm z)) && negb (xisnan (xIm w)))
  || (xeqb (xRe z) (xRe w) && xleb (xIm w) (xIm z)).

Definition xCmaximum (z w : xC) : xC :=
  if xisnan (xRe z) || xisnan (xIm z) || xCgeb z w then z else w.

(** [np.exp] on a complex number with a finite real part: NaN in both
    parts when the imaginary part is not finite.  An argument whose real
    part is not finite reaches [np.exp] only in an iteration that line 97
    ends with an exception, where the value is not used; it is given NaN. *)
Definition xCexp (z : xC) : xC :=
  match xRe z, xIm z with
  | XFin r, XFin t => fin (Cexp (mkC r t))
  | _, _ => mkX XNaN XNaN
  end.

(** [np.sum] of a complex array. *)
Definition xCsum (l : list xC) : xC := fold_left xCadd l (fin C0).

(** ** The Newton loop and the floor of line 146 with special values *)

Module IEEE.

(** The value returned is a float, which may be [float('inf')]. *)
Inductive message : Type :=
| MsgOutOfWindow
| MsgEpsilon (rel : relation) (n : Z) (eps : xreal) (delta : R).

Inductive outcome : Type :=
| Returned (v : xreal) (stdout : list message)
| Raised (e : exn)
| OutOfFuel.

Record vars : Type := mkVars {
  eps_0 : xC;
  exp_e : list xC;
  dexp_e : list xC;
  integrand : list xC;
  integrand2 : list xC;
  sum_int : xC;
  sum_int2 : xC;
  delta_temp : xC;
  derivative : xC
}.

(** How the [while] loop ends: it is left with the variables [v], an
    exception is raised in its body, or the fuel does not suffice. *)
Inductive loop_result : Type :=
| Stopped (v : vars)
| Failed (e : exn)
| NoFuel.

(** Lines 145-146 for one entry: the quotient by [2 * c] and the floor. *)
Definition term1_bounded (q c : R) (ey : C) : xC :=
  xCdiv (fin (term1_numerator q c ey)) (fin (RtoC (2 * c))).

Definition term1_floored (q c : R) (ey : C) : xC :=
  xCmaximum (term1_bounded q c ey) (fin (RtoC (/ 10 ^ 16))).

Section Accountant.

(** Rounding to the nearest [float64]. *)
Variable rnd : R -> R.

Variables (target_delta sigma q ncomp : R) (nx : Z) (L : R).

Definition xrnd (a : xreal) : xreal :=
  match a with XFin r => XFin (rnd r) | _ => a end.

(** [nx * (L + np.real(eps_0)) / (2 * L)] of lines 97 and 211, every
    operation rounded. *)
Definition quotient (re : xreal) : xreal :=
  xrnd (xdiv (xrnd (xmul (XFin (IZR nx)) (xrnd (xadd (XFin L) re))))
             (xrnd (xmul (XFin 2) (XFin L)))).

(** [jj] of lines 60 and 173, where [eps_0] is the Python integer 0 and
    the quotient is a Python float division, whose zero divisor has raised
    in [prepare]. *)
Definition initial_index : Z :=
  Zfloor (rnd (rnd (IZR nx * rnd (L + 0)) / rnd (2 * L))).

Section Newton.

Variables (x : list C) (dx : R) (cfx : list xC).

(** [1 - np.exp(eps_0 - x)] and [-np.exp(eps_0 - x)] *)
Definition exp_e_of (eps : xC) : list xC :=
  map (fun xi => xCsub (fin C1) (xCexp (xCsub eps (fin xi)))) x.
Definition dexp_e_of (eps : xC) : list xC :=
  map (fun xi => xCneg (xCexp (xCsub eps (fin xi)))) x.

(** The two sums for an iterate [eps] and a start index [k]. *)
Definition tail_delta (eps : xC) (k : Z) : xC :=
  xCmul (xCsum (slice_from (k + 1) (map2 xCmul (exp_e_of eps) cfx)))
        (fin (RtoC dx)).
Definition tail_derivative (eps : xC) (k : Z) : xC :=
  xCmul (xCsum (slice_from (k + 1) (map2 xCmul (dexp_e_of eps) cfx)))
        (fin (RtoC dx)).

(** Lines 71-78 and 184-191, with [eps_0 = 0] and the index [jj]. *)
Definition initial_vars (jj : Z) : vars :=
  let eps_0 := fin C0 in
  let exp_e := exp_e_of eps_0 in
  let dexp_e := dexp_e_of eps_0 in
  let integrand := map2 xCmul exp_e cfx in
  let integrand2 := map2 xCmul dexp_e cfx in
  let sum_int := xCsum (slice_from (jj + 1) integrand) in
  let sum_int2 := xCsum (slice_from (jj + 1) integrand2) in
  let delta_temp := xCmul sum_int (fin (RtoC dx)) in
  let derivative := xCmul sum_int2 (fin (RtoC dx)) in
  mkVars eps_0 exp_e dexp_e integrand integrand2 sum_int sum_int2
         delta_temp derivative.

(** The loop test, lines 83 and 195:
    [np.abs(delta_temp - target_delta) > tol_newton]. *)
Definition residual (v : vars) : xreal :=
  xCabs (xCsub (delta_temp v) (fin (RtoC target_delta))).
Definition keep_going (v : vars) : bool :=
  xltb (XFin tol_newton) (residual v).

(** The window test inside the loop, lines 89 and 202:
    [eps_0 < -L or eps_0 > L] on a numpy complex scalar. *)
Definition out_of_window (eps : xC) : bool :=
  xCltb eps (fin (RtoC (- L))) || xCltb (fin (RtoC L)) eps.

(** Line 87 *)
Definition newton_step (v : vars) : xC :=
  xCsub (eps_0 v)
        (xCdiv (xCsub (delta_temp v) (fin (RtoC target_delta))) (derivative v)).

(** The loop body, lines 84-109 and 197-223; the boolean tells whether the
    body left through [break]. *)
Definition newton_body (v : vars) : result (vars * bool) :=
  let eps_0 := newton_step v in
  if out_of_window eps_0 then
    Ok (mkVars eps_0 (exp_e v) (dexp_e v) (integrand v) (integrand2 v)
               (sum_int v) (sum_int2 v) (delta_temp v) (derivative v), true)
  else
    let exp_e := exp_e_of eps_0 in
    let dexp_e := dexp_e_of eps_0 in
    kk <- int_floor (quotient (xRe eps_0)) ;;
    let integrand := map2 xCmul exp_e cfx in
    let sum_int := xCsum (slice_from (kk + 1) integrand) in
    let delta_temp := xCmul sum_int (fin (RtoC dx)) in
    let integrand := map2 xCmul exp_e cfx in
    let integrand2 := map2 xCmul dexp_e cfx in
    let sum_int := xCsum (slice_from (kk + 1) integrand) in
    let sum_int2 := xCsum (slice_from (kk + 1) integrand2) in
    let delta_temp := xCmul sum_int (fin (RtoC dx)) in
    let derivative := xCmul sum_int2 (fin (RtoC dx)) in
    Ok (mkVars eps_0 exp_e dexp_e integrand integrand2 sum_int sum_int2
               delta_temp derivative, false).

(** The [while] loop, run with fuel. *)
Fixpoint newton_loop (fuel : nat) (v : vars) : loop_result :=
  if keep_going v then
    match fuel with
    | O => NoFuel
    | S fuel' =>
        match newton_body v with
        | Raise e => Failed e
        | Ok (v', true) => Stopped v'
        | Ok (v', false) => newton_loop fuel' v'
        end
    end
  else Stopped v.

End Newton.

(** Lines 111-118 and 225-231. *)
Definition report (rel : relation) (eps : xC) : outcome :=
  if xltb (xRe eps) (XFin (- L)) || xltb (XFin L) (xRe eps) then
    Returned XPInf [MsgOutOfWindow]
  else
    Returned (xRe eps) [MsgEpsilon rel (py_int ncomp) (xRe eps) target_delta].

(** The loop and the exit, from the variables [v]. *)
Definition run_newton (rel : relation) (fuel : nat)
  (x : list C) (dx : R) (cfx : list xC) (v : vars) : outcome :=
  match newton_loop x dx cfx fuel v with
  | NoFuel => OutOfFuel
  | Failed e => Raised e
  | Stopped v' => report rel (eps_0 v')
  end.

(** The two entry points: the stages before the loop are those of
    [prepare_unbounded] and [prepare_bounded]; the loop is entered with the
    sums of lines 71-78 from the index [jj] as the floats give it. *)
Definition get_epsilon_unbounded (fuel : nat) : outcome :=
  match prepare_unbounded sigma q ncomp nx L with
  | Raise e => Raised e
  | Ok (x, dx, cfx, _) =>
      run_newton RemoveAdd fuel x dx (map fin cfx)
                 (initial_vars x dx (map fin cfx) initial_index)
  end.

Definition get_epsilon_bounded (fuel : nat) : outcome :=
  match prepare_bounded sigma q ncomp nx L with
  | Raise e => Raised e
  | Ok (x, dx, cfx, _) =>
      run_newton Substitution fuel x dx (map fin cfx)
                 (initial_vars x dx (map fin cfx) initial_index)
  end.

Definition get_epsilon (rel : relation) (fuel : nat) : outcome :=
  match rel with
  | RemoveAdd => get_epsilon_unbounded fuel
  | Substitution => get_epsilon_bounded fuel
  end.

End Accountant.

End IEEE.

Lemma Rltb_true a b : Rltb a b = true <-> a < b.
Proof. unfold Rltb; destruct (Rlt_dec a b); split; intros; try easy. Qed.

Lemma Rltb_false a b : Rltb a b = false <-> b <= a.
Proof.
  unfold Rltb; destruct (Rlt_dec a b); split; intros; try easy; lra.
Qed.

Lemma Rleb_true a b : Rleb a b = true <-> a <= b.
Proof. unfold Rleb; destruct (Rle_dec a b); split; intros; try easy. Qed.

Lemma Reqb_true a b : Reqb a b = true <-> a = b.
Proof. unfold Reqb; destruct (Req_dec_T a b); split; intros; try easy. Qed.

Lemma Reqb_refl a : Reqb a a = true.
Proof. now apply Reqb_true. Qed.

(** ** Lemmas on slices and the flip *)

Section SliceFacts.
Context {A : Type}.
Implicit Types (l v : list A).

Lemma norm_index_nonneg n (s : Z) :
  (0 <= s)%Z -> norm_index n s = Nat.min n (Z.to_nat s).
Proof.
  intros Hs. unfold norm_index.
  destruct (Z.ltb_spec s 0); [lia | reflexivity].
Qed.

Lemma norm_index_le n s : (norm_index n s <= n)%nat.
Proof.
  unfold norm_index. destruct (Z.ltb_spec s 0); lia.
Qed.

Lemma broadcast_same m v : length v = m -> broadcast_to m v = Ok v.
Proof.
  intros H. unfold broadcast_to. now rewrite H, Nat.eqb_refl.
Qed.

Lemma half_norm l (nx : Z) :
  Z.of_nat (length l) = nx -> Z.even nx = true ->
  norm_index (length l) (Z.quot nx 2) = (length l / 2)%nat.
Proof.
  intros Hlen Hev.
  assert (Hnn : (0 <= nx)%Z) by lia.
  rewrite norm_index_nonneg by (apply Z.quot_pos; lia).
  rewrite Z.quot_div_nonneg by lia.
  assert (Z.to_nat (nx / 2) = (length l / 2)%nat) as ->.
  { rewrite <- Hlen.
    change 2%Z with (Z.of_nat 2).
    rewrite <- Nat2Z.inj_div. apply Nat2Z.id. }
  apply Nat.min_r.
  apply Nat.Div0.div_le_upper_bound. lia.
Qed.

Lemma even_halves (n : nat) :
  Z.even (Z.of_nat n) = true -> (n - n / 2 = n / 2)%nat.
Proof.
  intros Hev.
  apply Z.even_spec in Hev. destruct Hev as [k Hk].
  assert (n = 2 * Z.to_nat k)%nat as -> by lia.
  rewrite Nat.mul_comm, Nat.div_mul by lia. lia.
Qed.

(** On an array of even length [nx] the three statements of the flip
    exchange the two halves, and no exception is raised. *)
Lemma flip_even l (nx : Z) :
  Z.of_nat (length l) = nx -> Z.even nx = true ->
  flip nx l = Ok (swap_halves l).
Proof.
  intros Hlen Hev.
  assert (Hh := half_norm l nx Hlen Hev).
  assert (Hsub : (length l - length l / 2 = length l / 2)%nat)
    by (apply even_halves; now rewrite Hlen).
  assert (Hle : (length l / 2 <= length l)%nat)
    by (apply Nat.Div0.div_le_upper_bound; lia).
  unfold flip, assign_from, assign_to, slice_from, slice_to.
  rewrite Hh.
  rewrite broadcast_same by (rewrite length_firstn; lia).
  cbn [bind].
  assert (Hl1 : length (firstn (length l / 2) l ++ firstn (length l / 2) l)
                = length l)
    by (rewrite length_app, !length_firstn; lia).
  rewrite Hl1.
  rewrite <- Hlen in Hev.
  assert (Hh1 := half_norm (firstn (length l / 2) l ++ firstn (length l / 2) l)
                   nx).
  rewrite Hl1 in Hh1. rewrite (Hh1 Hlen) by (now rewrite Hlen in Hev).
  rewrite broadcast_same by (rewrite length_skipn; lia).
  cbn [bind]. unfold swap_halves. f_equal. f_equal.
  rewrite skipn_app, length_firstn, Nat.min_l by lia.
  rewrite Nat.sub_diag. cbn [skipn].
  rewrite skipn_all2 by (rewrite length_firstn; lia).
  reflexivity.
Qed.

Lemma swap_halves_length l : length (swap_halves l) = length l.
Proof.
  unfold swap_halves.
  rewrite length_app, length_skipn, length_firstn.
  assert (length l / 2 <= length l)%nat
    by (apply Nat.Div0.div_le_upper_bound; lia).
  lia.
Qed.

Lemma swap_halves_involutive l :
  Z.even (Z.of_nat (length l)) = true -> swap_halves (swap_halves l) = l.
Proof.
  intros Hev.
  assert (Hsub := even_halves _ Hev).
  assert (Hle : (length l / 2 <= length l)%nat)
    by (apply Nat.Div0.div_le_upper_bound; lia).
  unfold swap_halves at 1. rewrite swap_halves_length.
  unfold swap_halves.
  rewrite skipn_app, firstn_app, length_skipn, Hsub, Nat.sub_diag.
  cbn [skipn firstn].
  rewrite skipn_all2 by (rewrite length_skipn; lia).
  rewrite (firstn_all2 (skipn (length l / 2) l))
    by (rewrite length_skipn; lia).
  rewrite app_nil_l, app_nil_r.
  apply firstn_skipn.
Qed.

End SliceFacts.

(** ** Element-wise operations and array lengths *)

Lemma length_map2 {A B D : Type} (f : A -> B -> D) a b :
  length (map2 f a b) = Nat.min (length a) (length b).
Proof. unfold map2. now rewrite length_map, length_combine. Qed.

Lemma combine_map_map {A B D : Type} (g : A -> B) (h : A -> D) (l : list A) :
  combine (map g l) (map h l) = map (fun a => (g a, h a)) l.
Proof. induction l as [|a l IH]; cbn; [reflexivity | now rewrite IH]. Qed.

Lemma map2_map_map {A B D E : Type} (f : B -> D -> E) (g : A -> B)
  (h : A -> D) (l : list A) :
  map2 f (map g l) (map h l) = map (fun a => f (g a) (h a)) l.
Proof. unfold map2. now rewrite combine_map_map, map_map. Qed.

Lemma length_dft sgn a : length (dft sgn a) = length a.
Proof. unfold dft. now rewrite length_map, length_seq. Qed.

Lemma length_fft a : length (fft a) = length a.
Proof. apply length_dft. Qed.

Lemma length_ifft a : length (ifft a) = length a.
Proof. unfold ifft. rewrite length_map. apply length_dft. Qed.

Lemma length_zeros n : length (zeros n) = Z.to_nat n.
Proof. apply repeat_length. Qed.

Lemma length_slice_from {A : Type} s (l : list A) :
  length (slice_from s l) = (length l - norm_index (length l) s)%nat.
Proof. unfold slice_from. apply length_skipn. Qed.

(** Assigning to [l[s:]] an array computed element-wise from [x[s:]],
    where [x] is as long as [l], never fails. *)
Lemma assign_from_same_slice {A B : Type} s (l : list A) (x : list B) v :
  length l = length x ->
  length v = length (slice_from s x) ->
  assign_from s l v = Ok (firstn (norm_index (length l) s) l ++ v).
Proof.
  intros Hl Hv. unfold assign_from.
  rewrite broadcast_same; [reflexivity|].
  now rewrite Hv, length_slice_from, Hl.
Qed.

(** ** The grid *)

Lemma linspace_ok start stop (num : Z) :
  (0 <= num)%Z ->
  linspace start stop num =
  Ok (map (fun i => RtoC (INR i * (if (0 <? num - 1)%Z
                                   then (stop - start) / IZR (num - 1)
                                   else stop - start) + start))
          (seq 0 (Z.to_nat num))).
Proof.
  intros H. unfold linspace.
  destruct (Z.ltb_spec num 0); [lia | reflexivity].
Qed.

Lemma linspace_grid (nx : Z) (L : R) :
  (0 < nx)%Z ->
  linspace (- L) (L - 2 * L / IZR nx) nx = Ok (grid nx L).
Proof.
  intros Hnx. rewrite linspace_ok by lia. f_equal.
  unfold grid. apply map_ext_in. intros i Hi. f_equal.
  apply in_seq in Hi.
  assert (Hn : IZR nx <> 0) by (apply not_0_IZR; lia).
  destruct (Z.ltb_spec 0 (nx - 1)) as [H1|H1].
  - assert (Hd : IZR (nx - 1) <> 0) by (apply not_0_IZR; lia).
    rewrite minus_IZR in *. field. split; assumption.
  - assert (nx = 1%Z) as -> by lia.
    assert (i = 0%nat) as -> by lia. cbn [INR]. lra.
Qed.

(** ** The density arrays *)

Lemma firstn_repeat {A : Type} (a : A) (k n : nat) :
  (k <= n)%nat -> firstn k (repeat a n) = repeat a k.
Proof.
  revert n. induction k as [|k IH]; intros n Hk; [reflexivity|].
  destruct n as [|n]; [lia|]. cbn. f_equal. apply IH. lia.
Qed.

Section Density.

Variables (sigma q : R) (nx : Z).

Lemma pld_unbounded_ok (x : list C) (ii : Z) :
  length x = Z.to_nat nx ->
  pld_unbounded sigma q nx x ii =
  Ok (repeat 0 (norm_index (Z.to_nat nx) (ii + 1))
      ++ map (density_unbounded sigma q) (slice_from (ii + 1) x)).
Proof.
  intros Hx. unfold pld_unbounded.
  rewrite !map_map, map2_map_map, map_map.
  rewrite (assign_from_same_slice _ _ x).
  - rewrite length_zeros. f_equal. f_equal.
    unfold zeros. apply firstn_repeat, norm_index_le.
  - now rewrite length_zeros.
  - now rewrite length_map.
Qed.

Lemma slice_from_0 {A : Type} (l : list A) : slice_from 0 l = l.
Proof.
  unfold slice_from. rewrite norm_index_nonneg by lia.
  now rewrite Nat.min_r by lia.
Qed.

Lemma pld_bounded_ok (x : list C) (c : R) :
  length x = Z.to_nat nx ->
  pld_bounded sigma q nx x c 1 = Ok (map (density_bounded sigma q c) x).
Proof.
  intros Hx. unfold pld_bounded.
  change (1 - 1)%Z with 0%Z. rewrite slice_from_0.
  rewrite !map_map.
  rewrite (assign_from_same_slice _ _ x).
  - rewrite length_zeros, norm_index_nonneg by lia.
    rewrite Nat.min_r by lia. change (Z.to_nat 0) with 0%nat.
    cbn [firstn app]. f_equal.
    repeat (rewrite map2_map_map || rewrite combine_map_map).
    rewrite map_map.
    apply map_ext. intros xi. reflexivity.
  - now rewrite length_zeros.
  - rewrite slice_from_0, length_map, length_map2, !length_map.
    rewrite !length_map2, !length_map, length_combine, !length_map.
    lia.
Qed.

End Density.

(** ** The stages before the loop *)

Lemma py_div_ok a b : b <> 0 -> py_div a b = Ok (a / b).
Proof.
  intros Hb. unfold py_div, Reqb.
  destruct (Req_dec_T b 0); [contradiction | reflexivity].
Qed.

Lemma np_floor_div_ok a b : b <> 0 -> np_floor_div a b = Ok (Zfloor (a / b)).
Proof.
  intros Hb. unfold np_floor_div, Reqb.
  destruct (Req_dec_T b 0); [contradiction | reflexivity].
Qed.

Lemma boundary_index_ok q nx L :
  q < 1 -> L <> 0 ->
  boundary_index q nx L = Ok (Zfloor (IZR nx * (L + ln (1 - q)) / (2 * L))).
Proof.
  intros Hq HL. unfold boundary_index.
  assert (Rltb (1 - q) 0 = false) as -> by (apply Rltb_false; lra).
  unfold Reqb at 1. destruct (Req_dec_T (1 - q) 0); [lra|].
  apply np_floor_div_ok. lra.
Qed.

Lemma length_grid nx L : length (grid nx L) = Z.to_nat nx.
Proof. unfold grid. now rewrite length_map, length_seq. Qed.

(** For an even [nx] and [eps_0 = 0] the index [jj] is [nx / 2]. *)
Lemma half_index (nx : Z) (L : R) :
  Z.even nx = true -> L <> 0 ->
  Zfloor (IZR nx * (L + 0) / (2 * L)) = (nx / 2)%Z.
Proof.
  intros Hev HL.
  apply Z.even_spec in Hev. destruct Hev as [k ->].
  replace (2 * k / 2)%Z with k by (symmetry; rewrite Z.mul_comm; apply Z.div_mul; lia).
  rewrite mult_IZR.
  replace (2 * IZR k * (L + 0) / (2 * L)) with (IZR k) by (field; assumption).
  apply ZfloorZ.
Qed.

Section Prepare.

Variables (sigma q ncomp : R) (nx : Z) (L : R).
Hypotheses (Hnx : (0 < nx)%Z) (Hev : Z.even nx = true) (HL : L <> 0).

Let dx := 2 * L / IZR nx.

Lemma flip_real_ok (fx : list R) :
  length fx = Z.to_nat nx -> flip nx fx = Ok (swap_halves fx).
Proof. intros H. apply flip_even; [lia | assumption]. Qed.

Lemma flip_backward_ok (fx : list R) :
  length fx = Z.to_nat nx ->
  flip nx (backward ncomp (forward (swap_halves fx) dx) dx)
  = Ok (composed_density ncomp fx dx).
Proof.
  intros H. unfold composed_density, backward, forward.
  apply flip_even; [|assumption].
  rewrite length_ifft, length_map, length_fft, !length_map.
  rewrite swap_halves_length. lia.
Qed.

Lemma length_composed (fx : list R) :
  length (composed_density ncomp fx dx) = length fx.
Proof.
  unfold composed_density.
  rewrite swap_halves_length, length_ifft, length_map, length_fft, !length_map.
  apply swap_halves_length.
Qed.

(** The remove/add entry point reaches the loop whenever [q < 1]. *)
Lemma prepare_unbounded_ok :
  q < 1 ->
  let ii := Zfloor (IZR nx * (L + ln (1 - q)) / (2 * L)) in
  let fx := repeat 0 (norm_index (Z.to_nat nx) (ii + 1))
            ++ map (density_unbounded sigma q) (slice_from (ii + 1) (grid nx L)) in
  let cfx := composed_density ncomp fx dx in
  prepare_unbounded sigma q ncomp nx L
  = Ok (grid nx L, dx, cfx, initial_vars (grid nx L) dx cfx (nx / 2)).
Proof.
  intros Hq ii fx cfx. unfold prepare_unbounded.
  assert (Hn : IZR nx <> 0) by (apply not_0_IZR; lia).
  rewrite py_div_ok by assumption. cbn [bind].
  rewrite linspace_grid by assumption. cbn [bind].
  rewrite boundary_index_ok by assumption. cbn [bind].
  rewrite pld_unbounded_ok by apply length_grid. cbn [bind].
  fold ii. fold fx.
  assert (Hfx : length fx = Z.to_nat nx).
  { subst fx. rewrite length_app, repeat_length, length_map, length_slice_from.
    rewrite length_grid.
    pose proof (norm_index_le (Z.to_nat nx) (ii + 1)). lia. }
  rewrite flip_real_ok by assumption. cbn [bind].
  rewrite py_div_ok by lra. cbn [bind].
  rewrite half_index by assumption.
  fold dx. rewrite flip_backward_ok by assumption. cbn [bind].
  reflexivity.
Qed.

(** The substitution entry point reaches the loop whenever [sigma <> 0]. *)
Lemma prepare_bounded_ok :
  sigma <> 0 ->
  let c := q * exp (-1 / (2 * sigma ^ 2)) in
  let fx := map (density_bounded sigma q c) (grid nx L) in
  let cfx := composed_density ncomp fx dx in
  prepare_bounded sigma q ncomp nx L
  = Ok (grid nx L, dx, cfx, initial_vars (grid nx L) dx cfx (nx / 2)).
Proof.
  intros Hs c fx cfx. unfold prepare_bounded, c_bounded.
  assert (Hn : IZR nx <> 0) by (apply not_0_IZR; lia).
  assert (Hs2 : 2 * sigma ^ 2 <> 0) by (apply Rmult_integral_contrapositive_currified; [lra | now apply pow_nonzero]).
  rewrite py_div_ok by assumption. cbn [bind].
  rewrite linspace_grid by assumption. cbn [bind].
  rewrite py_div_ok by assumption. cbn [bind].
  rewrite pld_bounded_ok by apply length_grid. cbn [bind].
  fold c. fold fx.
  assert (Hfx : length fx = Z.to_nat nx)
    by (subst fx; now rewrite length_map, length_grid).
  rewrite flip_real_ok by assumption. cbn [bind].
  rewrite py_div_ok by lra. cbn [bind].
  change (Re C0) with 0.
  rewrite half_index by assumption.
  fold dx. rewrite flip_backward_ok by assumption. cbn [bind].
  reflexivity.
Qed.

End Prepare.

(** ** The flip *)

(** C7.  On an array of even length [nx] the flip exchanges the first half
    (indices below [nx / 2]) with the second half, and flipping twice gives
    the array back. *)
Theorem flip_swaps_halves_and_is_self_inverse
  {A : Type} (nx : Z) (l : list A) :
  Z.of_nat (length l) = nx -> Z.even nx = true ->
  flip nx l = Ok (skipn (Z.to_nat (nx / 2)) l ++ firstn (Z.to_nat (nx / 2)) l)
  /\ (l1 <- flip nx l ;; flip nx l1) = Ok l.
Proof.
  intros Hlen Hev.
  assert (Hh : Z.to_nat (nx / 2) = (length l / 2)%nat).
  { rewrite <- Hlen. change 2%Z with (Z.of_nat 2).
    rewrite <- Nat2Z.inj_div. apply Nat2Z.id. }
  rewrite Hh. fold (swap_halves l).
  rewrite (flip_even l nx Hlen Hev). split; [reflexivity|].
  cbn [bind]. rewrite flip_even.
  - f_equal. apply swap_halves_involutive. now rewrite Hlen.
  - now rewrite swap_halves_length.
  - assumption.
Qed.

Lemma flip_swaps_halves_and_is_self_inverse_witness :
  flip 4 [1; 2; 3; 4]%Z = Ok [3; 4; 1; 2]%Z
  /\ (l1 <- flip 4 [1; 2; 3; 4]%Z ;; flip 4 l1) = Ok [1; 2; 3; 4]%Z.
Proof.
  exact (flip_swaps_halves_and_is_self_inverse 4 [1; 2; 3; 4]%Z
           eq_refl eq_refl).
Defined.

(** An array of odd length cannot be flipped: one of the two slice
    assignments has a value of the wrong shape. *)
Lemma flip_odd {A : Type} (nx : Z) (l : list A) :
  Z.of_nat (length l) = nx -> Z.odd nx = true ->
  flip nx l = Raise ValueError.
Proof.
  intros Hlen Hodd.
  apply Z.odd_spec in Hodd. destruct Hodd as [k Hk].
  assert (Hk0 : (0 <= k)%Z) by lia.
  assert (Hq : Z.quot nx 2 = k).
  { rewrite Z.quot_div_nonneg by lia. subst nx.
    rewrite Hk, Z.mul_comm, Z.div_add_l by lia.
    change (1 / 2)%Z with 0%Z. lia. }
  assert (Hn : length l = (2 * Z.to_nat k + 1)%nat) by lia.
  set (h := Z.to_nat k) in *.
  assert (Hnorm : forall m, (h <= m)%nat -> norm_index m k = h).
  { intros m Hm. rewrite norm_index_nonneg by lia. fold h. lia. }
  unfold flip, assign_from, slice_to, slice_from. rewrite Hq.
  rewrite (Hnorm (length l)) by lia.
  unfold broadcast_to at 1.
  rewrite length_firstn.
  destruct (Nat.eqb_spec (Nat.min h (length l)) (length l - h)) as [E|_];
    [lia|].
  destruct (firstn h l) as [|a [|b t]] eqn:Hf; [reflexivity| |reflexivity].
  assert (Hh1 : h = 1%nat).
  { apply (f_equal (@length A)) in Hf. rewrite length_firstn in Hf.
    cbn in Hf. lia. }
  cbn [bind]. unfold assign_to.
  rewrite Hnorm by (rewrite length_app, repeat_length; cbn; lia).
  unfold broadcast_to. rewrite length_skipn.
  destruct (Nat.eqb_spec (length l - h) h) as [E|_]; [lia|].
  destruct (skipn h l) as [|c [|d t]] eqn:Hs; try reflexivity.
  apply (f_equal (@length A)) in Hs. rewrite length_skipn in Hs.
  cbn in Hs. lia.
Qed.

(** ** The Newton loop *)

Section NewtonFacts.

Variables (target_delta : R) (nx : Z) (L : R).
Variables (x : list C) (dx : R) (cfx : list C).

Local Abbreviation loop := (newton_loop target_delta nx L x dx cfx).
Local Abbreviation body := (newton_body target_delta nx L x dx cfx).
Local Abbreviation res := (residual target_delta).
Local Abbreviation step := (newton_step target_delta).

Lemma keep_going_true v :
  keep_going target_delta v = true <-> tol_newton < res v.
Proof. unfold keep_going, Rgtb. apply Rltb_true. Qed.

Lemma keep_going_false v :
  keep_going target_delta v = false <-> res v <= tol_newton.
Proof. unfold keep_going, Rgtb. apply Rltb_false. Qed.

Lemma loop_converged fuel v : res v <= tol_newton -> loop fuel v = Some v.
Proof.
  intros H. apply keep_going_false in H.
  destruct fuel; cbn; now rewrite H.
Qed.

Lemma loop_unfold fuel v :
  tol_newton < res v ->
  loop (S fuel) v =
  if out_of_window L (step v) then Some (fst (body v))
  else loop fuel (fst (body v)).
Proof.
  intros H. apply keep_going_true in H.
  cbn [newton_loop]. rewrite H. unfold newton_body.
  destruct (out_of_window L (step v)); reflexivity.
Qed.

Lemma body_eps v : eps_0 (fst (body v)) = step v.
Proof. unfold newton_body. destruct (out_of_window L (step v)); reflexivity. Qed.

(** The single-evaluation body computes the same variables. *)
Lemma body_single_eq v :
  newton_body_single target_delta nx L x dx cfx v = body v.
Proof. reflexivity. Qed.

Lemma loop_single_eq fuel : forall v,
  newton_loop_single target_delta nx L x dx cfx fuel v = loop fuel v.
Proof.
  induction fuel as [|fuel IH]; intros v; cbn [newton_loop_single newton_loop].
  - reflexivity.
  - rewrite body_single_eq.
    destruct (keep_going target_delta v); [|reflexivity].
    destruct (body v) as [v' [|]]; [reflexivity | apply IH].
Qed.

(** What the window test of the loop means for the real part. *)
Lemma out_of_window_real (e : C) :
  (Re e < - L \/ L < Re e -> out_of_window L e = true)
  /\ (out_of_window L e = true -> Re e <= - L \/ L <= Re e).
Proof.
  unfold out_of_window, Cgtb, Cltb. cbn [Re Im RtoC]. split.
  - intros [H|H].
    + apply (proj2 (Rltb_true _ _)) in H. now rewrite H.
    + apply (proj2 (Rltb_true _ _)) in H. rewrite H.
      now rewrite orb_true_r.
  - intros H. apply orb_true_iff in H. destruct H as [H|H];
      apply orb_true_iff in H; destruct H as [H|H].
    + apply Rltb_true in H. lra.
    + apply andb_true_iff in H. destruct H as [H _].
      apply Reqb_true in H. lra.
    + apply Rltb_true in H. lra.
    + apply andb_true_iff in H. destruct H as [H _].
      apply Reqb_true in H. lra.
Qed.

End NewtonFacts.

(** C8.  Each entry point run with the loop body that evaluates the sums
    once per iteration gives the same outcome as the original, for every
    input and every amount of fuel. *)
Theorem single_evaluation_same_outcome
  (rel : relation) (target_delta sigma q ncomp : R) (nx : Z) (L : R)
  (fuel : nat) :
  get_epsilon_single target_delta sigma q ncomp nx L rel fuel
  = get_epsilon target_delta sigma q ncomp nx L rel fuel.
Proof.
  destruct rel; cbn [get_epsilon_single get_epsilon];
    unfold get_epsilon_unbounded_single, get_epsilon_unbounded,
           get_epsilon_bounded_single, get_epsilon_bounded.
  - destruct (prepare_unbounded sigma q ncomp nx L) as [[[[x dx] cfx] v]|e];
      [|reflexivity].
    unfold run_newton_single, run_newton. now rewrite loop_single_eq.
  - destruct (prepare_bounded sigma q ncomp nx L) as [[[[x dx] cfx] v]|e];
      [|reflexivity].
    unfold run_newton_single, run_newton. now rewrite loop_single_eq.
Qed.

(** ** The entry points *)

Ltac bind_inv H E :=
  match type of H with
  | bind ?r _ = Ok _ =>
      destruct r eqn:E; cbn [bind] in H; [|discriminate H]
  end.

Lemma py_div_inv a b r : py_div a b = Ok r -> b <> 0 /\ r = a / b.
Proof.
  unfold py_div, Reqb. destruct (Req_dec_T b 0); [discriminate|].
  intros H. injection H as <-. now split.
Qed.

Lemma linspace_inv start stop num x :
  linspace start stop num = Ok x -> (0 <= num)%Z /\ length x = Z.to_nat num.
Proof.
  unfold linspace. destruct (Z.ltb_spec num 0) as [Hneg|Hnn]; [discriminate|].
  intros Hx. injection Hx as <-. split; [assumption|].
  now rewrite length_map, length_seq.
Qed.

Lemma flip_inv {A : Type} (nx : Z) (l l' : list A) :
  Z.of_nat (length l) = nx -> flip nx l = Ok l' ->
  Z.even nx = true /\ l' = swap_halves l.
Proof.
  intros Hlen H.
  destruct (Z.even nx) eqn:Hev.
  - rewrite flip_even in H by assumption. injection H as <-. now split.
  - rewrite flip_odd in H; [discriminate | assumption |].
    now rewrite <- Z.negb_even, Hev.
Qed.

Section EntryPoints.

Variables (target_delta sigma q ncomp : R) (nx : Z) (L : R).

(** When an entry point reaches the loop, the configuration has an even
    positive [nx] and a nonzero [L], and the loop variables are those of
    lines 71-78 at [eps_0 = 0] with the start index [nx / 2]. *)
Lemma prepare_inv rel x dx cfx v :
  prepare sigma q ncomp nx L rel = Ok (x, dx, cfx, v) ->
  (0 < nx)%Z /\ Z.even nx = true /\ L <> 0
  /\ x = grid nx L /\ dx = 2 * L / IZR nx
  /\ length cfx = Z.to_nat nx
  /\ v = initial_vars x dx cfx (nx / 2).
Proof.
  destruct rel; cbn [prepare].
  - unfold prepare_unbounded. intros H.
    bind_inv H Edx. apply py_div_inv in Edx as [Hn ->].
    bind_inv H Ex. pose proof (linspace_inv _ _ _ _ Ex) as [Hnn Hlx].
    assert (Hnx : (0 < nx)%Z).
    { destruct (Z.eq_dec nx 0) as [->|]; [now elim Hn | lia]. }
    rewrite linspace_grid in Ex by assumption. injection Ex as <-.
    bind_inv H Eii. bind_inv H Efx.
    rewrite pld_unbounded_ok in Efx by assumption. injection Efx as <-.
    match type of H with context [flip nx ?l] =>
      assert (Hlen : length l = Z.to_nat nx)
    end.
    { rewrite length_app, repeat_length, length_map, length_slice_from, Hlx.
      pose proof (norm_index_le (Z.to_nat nx) (a + 1)). lia. }
    bind_inv H Eflip. apply flip_inv in Eflip as [Hev ->]; [|lia].
    bind_inv H Ejj. apply py_div_inv in Ejj as [HL ->].
    assert (HL' : L <> 0) by lra.
    rewrite half_index in H by assumption.
    rewrite flip_backward_ok in H by assumption.
    cbn [bind] in H. injection H as <- <- <- <-.
    repeat split; try assumption.
    now rewrite length_composed.
  - unfold prepare_bounded. intros H.
    bind_inv H Edx. apply py_div_inv in Edx as [Hn ->].
    bind_inv H Ex. pose proof (linspace_inv _ _ _ _ Ex) as [Hnn Hlx].
    assert (Hnx : (0 < nx)%Z).
    { destruct (Z.eq_dec nx 0) as [->|]; [now elim Hn | lia]. }
    rewrite linspace_grid in Ex by assumption. injection Ex as <-.
    bind_inv H Ec. bind_inv H Efx.
    rewrite pld_bounded_ok in Efx by assumption. injection Efx as <-.
    match type of H with context [flip nx ?l] =>
      assert (Hlen : length l = Z.to_nat nx)
    end.
    { now rewrite length_map. }
    bind_inv H Eflip. apply flip_inv in Eflip as [Hev ->]; [|lia].
    bind_inv H Ejj. apply py_div_inv in Ejj as [HL ->].
    assert (HL' : L <> 0) by lra.
    change (Re C0) with 0 in H.
    rewrite half_index in H by assumption.
    rewrite flip_backward_ok in H by assumption.
    cbn [bind] in H. injection H as <- <- <- <-.
    repeat split; try assumption.
    now rewrite length_composed.
Qed.

Lemma get_epsilon_run rel fuel st :
  prepare sigma q ncomp nx L rel = Ok st ->
  get_epsilon target_delta sigma q ncomp nx L rel fuel
  = run_newton target_delta ncomp nx L rel fuel st.
Proof.
  destruct rel; cbn [prepare get_epsilon];
    unfold get_epsilon_unbounded, get_epsilon_bounded;
    intros ->; reflexivity.
Qed.

Lemma get_epsilon_raise rel fuel e :
  prepare sigma q ncomp nx L rel = Raise e ->
  get_epsilon target_delta sigma q ncomp nx L rel fuel = Raised e.
Proof.
  destruct rel; cbn [prepare get_epsilon];
    unfold get_epsilon_unbounded, get_epsilon_bounded;
    intros ->; reflexivity.
Qed.

End EntryPoints.

(** ** A grid whose tail is empty at [eps_0 = 0] *)

Lemma slice_from_all {A : Type} (s : Z) (l : list A) :
  (Z.of_nat (length l) <= s)%Z -> slice_from s l = [].
Proof.
  intros H. unfold slice_from.
  rewrite norm_index_nonneg by lia.
  apply skipn_all2. lia.
Qed.

Lemma tol_newton_pos : 0 < tol_newton.
Proof. unfold tol_newton. apply Rinv_0_lt_compat, pow_lt. lra. Qed.

(** When no grid index lies above [jj], the sums of lines 75-78 are empty
    and the residual is [|target_delta|]. *)
Lemma residual_empty_tail target_delta x dx cfx jj :
  (Z.of_nat (length x) <= jj + 1)%Z ->
  residual target_delta (initial_vars x dx cfx jj) = Rabs target_delta.
Proof.
  intros H. unfold residual, initial_vars. cbn [delta_temp].
  rewrite slice_from_all.
  2:{ rewrite length_map2. unfold exp_e_of. rewrite length_map. lia. }
  unfold Csum, Cabs. cbn.
  rewrite <- sqrt_Rsqr_abs. f_equal. unfold Rsqr. ring.
Qed.

Lemma residual_two_points sigma q ncomp L rel x dx cfx v :
  prepare sigma q ncomp 2 L rel = Ok (x, dx, cfx, v) ->
  residual 0 v <= tol_newton.
Proof.
  intros H. apply prepare_inv in H as (_ & _ & _ & -> & _ & _ & ->).
  rewrite residual_empty_tail.
  - rewrite Rabs_R0. left. apply tol_newton_pos.
  - rewrite length_grid. cbn. lia.
Qed.

(** ** The exit of the entry points *)

(** The exit, lines 111-118 and 225-231, after a loop that has stopped. *)
Lemma exit_cases
  (rel : relation) (target_delta sigma q ncomp : R) (nx : Z) (L : R)
  (fuel : nat) (x : list C) (dx : R) (cfx : list C) (v v' : vars) :
  prepare sigma q ncomp nx L rel = Ok (x, dx, cfx, v) ->
  newton_loop target_delta nx L x dx cfx fuel v = Some v' ->
  let e := Re (eps_0 v') in
  ((e < - L \/ L < e)
   /\ get_epsilon target_delta sigma q ncomp nx L rel fuel
      = Returned PlusInf [MsgOutOfWindow])
  \/ (- L <= e <= L
      /\ get_epsilon target_delta sigma q ncomp nx L rel fuel
         = Returned (Finite e) [MsgEpsilon rel (py_int ncomp) e target_delta]).
Proof.
  intros Hp Hl e.
  rewrite (get_epsilon_run _ _ _ _ _ _ _ _ _ Hp).
  unfold run_newton. rewrite Hl. unfold report. fold e.
  destruct (Rltb e (- L)) eqn:H1; cbn [orb].
  - left. apply Rltb_true in H1. split; [now left | reflexivity].
  - destruct (Rltb L e) eqn:H2.
    + left. apply Rltb_true in H2. split; [now right | reflexivity].
    + right. apply Rltb_false in H1, H2. split; [lra | reflexivity].
Qed.




(** ** Complex arithmetic on real values *)

Lemma C_eq (z w : C) : Re z = Re w -> Im z = Im w -> z = w.
Proof. destruct z, w. cbn. now intros -> ->. Qed.

Lemma Cadd_real a b : (RtoC a + RtoC b)%C = RtoC (a + b).
Proof. apply C_eq; cbn; lra. Qed.

Lemma Csub_real a b : (RtoC a - RtoC b)%C = RtoC (a - b).
Proof. apply C_eq; cbn; lra. Qed.

Lemma Cneg_real a : (- RtoC a)%C = RtoC (- a).
Proof. apply C_eq; cbn; lra. Qed.

Lemma Cmul_real a b : (RtoC a * RtoC b)%C = RtoC (a * b).
Proof. apply C_eq; cbn; ring. Qed.

Lemma Cdiv_real a b : b <> 0 -> (RtoC a / RtoC b)%C = RtoC (a / b).
Proof. intros Hb. apply C_eq; cbn; field; assumption. Qed.

Lemma Cexp_real t : Cexp (RtoC t) = RtoC (exp t).
Proof. apply C_eq; cbn; rewrite ?cos_0, ?sin_0; ring. Qed.

Lemma Clog_real r : 0 < r -> Clog (RtoC r) = RtoC (ln r).
Proof.
  intros Hr. unfold Clog, Cabs, Carg. cbn [Re Im RtoC].
  apply C_eq; cbn [Re Im RtoC].
  - f_equal. replace (r * r + 0 * 0) with (r * r) by ring.
    apply sqrt_square. lra.
  - assert (Rltb 0 r = true) as -> by now apply Rltb_true.
    replace (0 / r) with 0 by (field; lra). apply atan_0.
Qed.

Lemma Cabs_real a : 0 <= a -> Cabs (RtoC a) = a.
Proof.
  intros Ha. unfold Cabs. cbn [Re Im RtoC].
  replace (a * a + 0 * 0) with (a * a) by ring. now apply sqrt_square.
Qed.

Lemma Csqrt_real a : 0 <= a -> Csqrt (RtoC a) = RtoC (sqrt a).
Proof.
  intros Ha. unfold Csqrt. rewrite Cabs_real by assumption.
  cbn [Re Im RtoC].
  assert (Rltb 0 0 = false) as -> by (apply Rltb_false; lra).
  apply C_eq; cbn [Re Im RtoC].
  - f_equal. lra.
  - replace ((a - a) / 2) with 0 by lra. rewrite sqrt_0. ring.
Qed.

Lemma Cmaximum_real r m : Cmaximum (RtoC r) (RtoC m) = RtoC (Rmax r m).
Proof.
  unfold Cmaximum, Cgeb. cbn [Re Im RtoC].
  assert (Rleb 0 0 = true) as -> by (apply Rleb_true; lra).
  rewrite andb_true_r. unfold Rmax.
  destruct (Rle_dec r m) as [Hle|Hgt].
  - destruct (Rltb m r) eqn:H1; [apply Rltb_true in H1; lra|].
    destruct (Reqb r m) eqn:H2; [|reflexivity].
    apply Reqb_true in H2. now subst.
  - assert (Rltb m r = true) as -> by (apply Rltb_true; lra).
    reflexivity.
Qed.

(** For a real grid point and a nonzero [c] the root of line 145 is real. *)
Lemma term1_bounded_real q c e :
  c <> 0 -> 0 <= e ->
  term1_bounded q c (RtoC e)
  = RtoC ((- (1 - q) * (1 - e)
           + sqrt ((1 - q) ^ 2 * ((1 - e) * (1 - e)) + 4 * c ^ 2 * e))
          / (2 * c)).
Proof.
  intros Hc He. unfold term1_bounded, sq_bounded, Csqr, C1.
  rewrite !Csub_real, !Cmul_real, Cadd_real.
  rewrite Csqrt_real.
  - assert (H2c : 2 * c <> 0) by (intros H; apply Hc; lra).
    rewrite Cadd_real, Cdiv_real by assumption. reflexivity.
  - apply Rplus_le_le_0_compat.
    + apply Rmult_le_pos; [apply pow2_ge_0 | apply (Rle_0_sqr (1 - e))].
    + apply Rmult_le_pos; [|assumption].
      apply Rmult_le_pos; [lra | apply pow2_ge_0].
Qed.

(** ** The substitution density *)

Lemma Cgeb_refl w : Cgeb w w = true.
Proof.
  unfold Cgeb. rewrite Reqb_refl.
  assert (Rleb (Im w) (Im w) = true) as -> by (apply Rleb_true; lra).
  apply orb_true_r.
Qed.

Lemma Cmaximum_ge z w : Cgeb (Cmaximum z w) w = true.
Proof.
  unfold Cmaximum. destruct (Cgeb z w) eqn:H; [exact H | apply Cgeb_refl].
Qed.

Lemma Cgeb_Re z w : Cgeb z w = true -> Re w <= Re z.
Proof.
  unfold Cgeb. intros H. apply orb_true_iff in H. destruct H as [H|H].
  - apply Rltb_true in H. lra.
  - apply andb_true_iff in H. destruct H as [H _].
    apply Reqb_true in H. lra.
Qed.

(** ** Configurations that the specification calls invalid *)

Lemma neg_sq (s : R) : (- s) ^ 2 = s ^ 2.
Proof. ring. Qed.

(** [sigma] is only used squared. *)
Lemma prepare_sigma_sign rel sigma q ncomp nx L :
  prepare (- sigma) q ncomp nx L rel = prepare sigma q ncomp nx L rel.
Proof.
  destruct rel; cbn [prepare];
    unfold prepare_unbounded, prepare_bounded, pld_unbounded, pld_bounded,
      c_bounded, mixture, Linvx_unbounded, dLinvx_unbounded;
    rewrite !neg_sq; reflexivity.
Qed.

Lemma get_epsilon_sigma_sign rel target_delta sigma q ncomp nx L fuel :
  get_epsilon target_delta (- sigma) q ncomp nx L rel fuel
  = get_epsilon target_delta sigma q ncomp nx L rel fuel.
Proof.
  pose proof (prepare_sigma_sign rel sigma q ncomp nx L) as H.
  destruct rel; cbn [prepare get_epsilon] in *;
    unfold get_epsilon_unbounded, get_epsilon_bounded; now rewrite H.
Qed.

Lemma odd_nx_raises rel target_delta sigma q ncomp nx L fuel :
  Z.odd nx = true ->
  exists e, get_epsilon target_delta sigma q ncomp nx L rel fuel = Raised e.
Proof.
  intros Hodd.
  destruct (prepare sigma q ncomp nx L rel) as [[[[x dx] cfx] v]|e] eqn:Hp.
  - apply prepare_inv in Hp as (_ & Hev & _).
    rewrite <- Z.negb_even, Hev in Hodd. discriminate.
  - exists e. now apply get_epsilon_raise.
Qed.

(** C9, as the code has it.  The entry points do not validate their
    configuration.  An odd [nx] makes each of them raise an exception (the
    shape mismatch of the flip, or an earlier exception); the sign of
    [sigma] is not looked at, [-sigma] giving the outcome of [sigma]; and
    [q] is not checked against (0, 1]: the substitution entry point reaches
    the loop for every [q] (on an even positive [nx], with [L] and [sigma]
    nonzero). *)
Theorem configuration_is_not_validated
  (rel : relation) (target_delta sigma q ncomp : R) (nx : Z) (L : R)
  (fuel : nat) :
  (Z.odd nx = true ->
   exists e, get_epsilon target_delta sigma q ncomp nx L rel fuel = Raised e)
  /\ get_epsilon target_delta (- sigma) q ncomp nx L rel fuel
     = get_epsilon target_delta sigma q ncomp nx L rel fuel
  /\ ((0 < nx)%Z -> Z.even nx = true -> L <> 0 -> sigma <> 0 ->
      exists st, prepare sigma q ncomp nx L Substitution = Ok st).
Proof.
  split; [apply odd_nx_raises|]. split; [apply get_epsilon_sigma_sign|].
  intros Hnx Hev HL Hs.
  pose proof (prepare_bounded_ok sigma q ncomp nx L Hnx Hev HL Hs) as Hp.
  cbv zeta in Hp. eexists. exact Hp.
Qed.

Lemma configuration_is_not_validated_witness :
  (exists e, get_epsilon 0 2 (1 / 2) 1 3 1 RemoveAdd 0 = Raised e)
  /\ (exists st, prepare 2 (-1) 1 2 1 Substitution = Ok st).
Proof.
  split.
  - exact (proj1 (configuration_is_not_validated
                    RemoveAdd 0 2 (1 / 2) 1 3 1 0) eq_refl).
  - exact (proj2 (proj2 (configuration_is_not_validated
                           Substitution 0 2 (-1) 1 2 1 0))
             eq_refl eq_refl R1_neq_R0 ltac:(lra)).
Defined.

(** C9 as stated fails: with the negative noise scale [sigma = -2] (and
    [target_delta = 0], [q = 0.01], [ncomp = 1], [nx = 2], [L = 20]) both
    entry points return [0] through the success branch; no error is
    raised. *)
Lemma negative_sigma_is_accepted :
  -2 <= 0
  /\ get_epsilon 0 (-2) (1 / 100) 1 2 20 RemoveAdd 100
     = Returned (Finite 0) [MsgEpsilon RemoveAdd (py_int 1) 0 0]
  /\ get_epsilon 0 (-2) (1 / 100) 1 2 20 Substitution 100
     = Returned (Finite 0) [MsgEpsilon Substitution (py_int 1) 0 0].
Proof.
  split; [lra|].
  assert (H20 : 20 <> 0) by lra.
  assert (Hs : -2 <> 0) by lra.
  split.
  - pose proof (prepare_unbounded_ok (-2) (1 / 100) 1 2 20 eq_refl eq_refl
                  H20 ltac:(lra)) as Hp.
    cbv zeta in Hp.
    change (prepare_unbounded (-2) (1 / 100) 1 2 20)
      with (prepare (-2) (1 / 100) 1 2 20 RemoveAdd) in Hp.
    match type of Hp with
    | _ = Ok (?x, ?dx, ?cfx, ?v) =>
        pose proof (residual_two_points _ _ _ _ _ x dx cfx v Hp) as Hres;
        pose proof (loop_converged 0 2 20 x dx cfx 100 v Hres) as Hl;
        destruct (exit_cases RemoveAdd 0 (-2) (1 / 100) 1 2 20 100
                    x dx cfx v v Hp Hl) as [[Hout _]|[_ Hret]];
        [cbn in Hout; lra | exact Hret]
    end.
  - pose proof (prepare_bounded_ok (-2) (1 / 100) 1 2 20 eq_refl eq_refl
                  H20 Hs) as Hp.
    cbv zeta in Hp.
    change (prepare_bounded (-2) (1 / 100) 1 2 20)
      with (prepare (-2) (1 / 100) 1 2 20 Substitution) in Hp.
    match type of Hp with
    | _ = Ok (?x, ?dx, ?cfx, ?v) =>
        pose proof (residual_two_points _ _ _ _ _ x dx cfx v Hp) as Hres;
        pose proof (loop_converged 0 2 20 x dx cfx 100 v Hres) as Hl;
        destruct (exit_cases Substitution 0 (-2) (1 / 100) 1 2 20 100
                    x dx cfx v v Hp Hl) as [[Hout _]|[_ Hret]];
        [cbn in Hout; lra | exact Hret]
    end.
Qed.

(** ** The tail integral *)

Lemma skipn_as_map_nth {A : Type} (d : A) (l : list A) (m : nat) :
  skipn m l = map (fun i => nth i l d) (seq m (length l - m)).
Proof.
  revert m. induction l as [|a l IH]; intros m.
  - now rewrite skipn_nil.
  - destruct m as [|m].
    + cbn [skipn length]. rewrite Nat.sub_0_r. cbn [seq map nth].
      f_equal. rewrite <- seq_shift, map_map. cbn [nth].
      specialize (IH 0%nat). cbn [skipn] in IH.
      rewrite Nat.sub_0_r in IH. exact IH.
    + cbn [skipn length]. rewrite IH.
      replace (S (length l) - S m)%nat with (length l - m)%nat by lia.
      rewrite <- seq_shift, map_map. reflexivity.
Qed.

Lemma nth_map2 {A B D : Type} (f : A -> B -> D) a b da db i :
  (i < length a)%nat -> (i < length b)%nat ->
  nth i (map2 f a b) (f da db) = f (nth i a da) (nth i b db).
Proof.
  revert b i. induction a as [|x a IH]; intros [|y b] [|i] Ha Hb;
    cbn in *; try lia; [reflexivity|].
  apply IH; lia.
Qed.

Lemma nth_grid nx L i :
  (i < Z.to_nat nx)%nat ->
  nth i (grid nx L) C0 = RtoC (- L + INR i * (2 * L / IZR nx)).
Proof.
  intros Hi. unfold grid.
  set (f := fun i => RtoC (- L + INR i * (2 * L / IZR nx))).
  change (nth i (map f (seq 0 (Z.to_nat nx))) C0 = f i).
  rewrite (nth_indep _ C0 (f 0%nat)) by (now rewrite length_map, length_seq).
  rewrite (map_nth f), seq_nth by assumption. reflexivity.
Qed.

(** The start index separates the grid points at or below the real part of
    the iterate from those above it. *)
Lemma start_index_separates (nx : Z) (L : R) (e : C) (i : nat) :
  (0 < nx)%Z -> 0 < L ->
  (start_index nx L e < Z.of_nat i)%Z
  <-> Re e < - L + INR i * (2 * L / IZR nx).
Proof.
  intros Hnx HL. unfold start_index.
  assert (Hn : 0 < IZR nx) by (apply IZR_lt; lia).
  set (d := 2 * L / IZR nx).
  assert (Hd : 0 < d) by (apply Rdiv_lt_0_compat; lra).
  set (t := IZR nx * (L + Re e) / (2 * L)).
  assert (Ht : t * d = L + Re e) by (unfold t, d; field; lra).
  pose proof (Zfloor_bound t) as [Hlo Hhi].
  rewrite INR_IZR_INZ. split; intros H.
  - assert (IZR (Zfloor t) + 1 <= IZR (Z.of_nat i)).
    { rewrite <- plus_IZR. apply IZR_le. lia. }
    nra.
  - apply lt_IZR. nra.
Qed.

Lemma start_index_nonneg (nx : Z) (L : R) (e : C) :
  (0 < nx)%Z -> 0 < L -> - L <= Re e -> (0 <= start_index nx L e)%Z.
Proof.
  intros Hnx HL He. unfold start_index.
  apply Zfloor_lub. cbn.
  assert (Hn : 0 < IZR nx) by (apply IZR_lt; lia).
  apply Rmult_le_pos; [apply Rmult_le_pos; lra|].
  left. apply Rinv_0_lt_compat. lra.
Qed.

(** ** The tail integral at a concrete grid *)

Lemma start_index_4_2 : start_index 4 2 C0 = 2%Z.
Proof.
  unfold start_index. cbn [Re C0 RtoC].
  replace (4 * (2 + 0) / (2 * 2)) with (IZR 2) by lra.
  apply ZfloorZ.
Qed.

Lemma exp_neg1_lt_1 : exp (-1) < 1.
Proof. rewrite <- exp_0. apply exp_increasing. lra. Qed.

Lemma slice_last_of_four {A : Type} (a b c d : A) :
  slice_from (2 + 1) [a; b; c; d] = [d].
Proof. reflexivity. Qed.

Ltac eval_tail_4_2 :=
  rewrite start_index_4_2;
  unfold initial_vars, grid, exp_e_of; cbn [delta_temp];
  change (Z.to_nat 4) with 4%nat;
  cbn [seq map map2 combine fst snd];
  rewrite slice_last_of_four;
  cbn [Csum fold_left Cadd Cmul Csub Cexp Re Im RtoC C0 C1 INR];
  replace (0 - (- (2) + (1 + 1 + 1) * (2 * 2 / 4))) with (-1) by lra;
  replace (0 - 0) with 0 by lra;
  rewrite ?cos_0, ?sin_0.

Lemma spec_first_positive_4_2 :
  spec_first_positive (grid 4 2) 0 = 3%nat.
Proof.
  unfold spec_first_positive, grid.
  change (Z.to_nat 4) with 4%nat.
  cbn [seq map first_index Re RtoC INR].
  assert (H0 : Rltb 0 (1 - exp (0 - (- (2) + 0 * (2 * 2 / 4)))) = false).
  { apply Rltb_false.
    assert (exp 0 < exp (0 - (- (2) + 0 * (2 * 2 / 4))))
      by (apply exp_increasing; lra).
    rewrite exp_0 in *. lra. }
  assert (H1 : Rltb 0 (1 - exp (0 - (- (2) + 1 * (2 * 2 / 4)))) = false).
  { apply Rltb_false.
    assert (exp 0 < exp (0 - (- (2) + 1 * (2 * 2 / 4))))
      by (apply exp_increasing; lra).
    rewrite exp_0 in *. lra. }
  assert (H2 : Rltb 0 (1 - exp (0 - (- (2) + (1 + 1) * (2 * 2 / 4)))) = false).
  { apply Rltb_false.
    replace (0 - (- (2) + (1 + 1) * (2 * 2 / 4))) with 0 by lra.
    rewrite exp_0. lra. }
  assert (H3 : Rltb 0 (1 - exp (0 - (- (2) + (1 + 1 + 1) * (2 * 2 / 4))))
               = true).
  { apply Rltb_true.
    replace (0 - (- (2) + (1 + 1 + 1) * (2 * 2 / 4))) with (-1) by lra.
    pose proof exp_neg1_lt_1. lra. }
  now rewrite H0, H1, H2, H3.
Qed.

(** C3 as stated fails, at the grid of [nx = 4] points with [L = 2]
    ([x = -2, -1, 0, 1], [dx = 1]) and the candidate [eps_0 = 0].  With the
    composed density [cfx = (0, 0, 0, i)] the code returns a [delta] with
    imaginary part [1 - exp (-1)], where a sum over real parts is real.
    With [cfx = (1, 1, 1, 1)] the code returns [1 - exp (-1)], the term of
    the first grid point above [eps_0] (index 3, the code's start index
    being 2), where the sum over the indices above the first positive one
    is empty. *)
Lemma tail_integral_is_complex_and_keeps_first_point :
  Im (delta_temp (initial_vars (grid 4 2) 1 [C0; C0; C0; mkC 0 1]
                               (start_index 4 2 C0))) <> 0
  /\ delta_temp (initial_vars (grid 4 2) 1 [C1; C1; C1; C1]
                              (start_index 4 2 C0))
     <> RtoC (spec_delta (grid 4 2) 1 [C1; C1; C1; C1] 0).
Proof.
  pose proof exp_neg1_lt_1 as He. split.
  - eval_tail_4_2. lra.
  - intros H. apply (f_equal Re) in H. revert H.
    unfold spec_delta. rewrite spec_first_positive_4_2.
    eval_tail_4_2.
    unfold grid. change (Z.to_nat 4) with 4%nat.
    cbn [seq map map2 combine fst snd skipn Rsum fold_left].
    lra.
Qed.

(** On the support of the privacy loss ([exp t > 1 - q]) every
    intermediate value of lines 38-46 is real, the stored entry is the
    product of the specification, and it is positive. *)
Lemma density_unbounded_on_support sigma q t :
  sigma <> 0 -> 0 < q <= 1 -> 1 - q < exp t ->
  density_unbounded sigma q (RtoC t) = spec_density_unbounded sigma q t
  /\ 0 < spec_density_unbounded sigma q t.
Proof.
  intros Hs Hq Ht.
  assert (Hs2 : 0 < sigma ^ 2) by (cbn [pow]; nra).
  assert (Harg : 0 < (exp t - (1 - q)) / q)
    by (apply Rdiv_lt_0_compat; lra).
  split.
  - unfold density_unbounded, Linvx_unbounded, dLinvx_unbounded, mixture,
      spec_density_unbounded.
    rewrite Cexp_real, Csub_real, Cdiv_real by lra.
    rewrite Clog_real by assumption.
    rewrite Cmul_real, Cadd_real.
    set (l := sigma ^ 2 * ln ((exp t - (1 - q)) / q) + 1 / 2).
    unfold C1. rewrite Cneg_real, Csub_real, Cneg_real, !Cmul_real.
    rewrite !Cdiv_real by lra.
    rewrite ?Cexp_real, ?Cmul_real, ?Cadd_real, ?Cmul_real.
    rewrite ?Cdiv_real by lra. rewrite ?Cmul_real. reflexivity.
  - unfold spec_density_unbounded. cbv zeta.
    apply Rmult_lt_0_compat.
    + apply Rmult_lt_0_compat.
      * apply Rdiv_lt_0_compat; [lra|].
        apply sqrt_lt_R0.
        apply Rmult_lt_0_compat; [|assumption].
        pose proof PI_RGT_0. lra.
      * match goal with |- 0 < _ * exp ?a + _ * exp ?b =>
          pose proof (exp_pos a); pose proof (exp_pos b) end.
        nra.
    + apply Rdiv_lt_0_compat; [|lra].
      apply Rmult_lt_0_compat; [assumption | apply exp_pos].
Qed.

(** ** The remove/add density array *)

Lemma nth_pld_array (f : C -> R) (x : list C) (k i : nat) :
  (k <= length x)%nat -> (i < length x)%nat ->
  nth i (repeat 0 k ++ map f (skipn k x)) 0
  = if (i <? k)%nat then 0 else f (nth i x C0).
Proof.
  intros Hk Hi. destruct (Nat.ltb_spec i k) as [Hlt|Hge].
  - rewrite app_nth1 by (now rewrite repeat_length).
    apply nth_repeat.
  - rewrite app_nth2 by (rewrite repeat_length; lia).
    rewrite repeat_length.
    rewrite (nth_indep _ 0 (f C0))
      by (rewrite length_map, length_skipn; lia).
    rewrite map_nth, nth_skipn. f_equal. f_equal. lia.
Qed.

(** Where the boundary index is at least [-1], the array is as section 4.2
    describes it: zero up to the boundary index, the positive product of
    the mixture weight and the derivative above it, and the boundary index
    separates the grid points [x <= ln (1 - q)] from the others. *)
Lemma pld_unbounded_in_range (sigma q : R) (nx : Z) (L : R) (ii : Z) :
  (0 < nx)%Z -> 0 < L -> sigma <> 0 -> 0 < q < 1 ->
  boundary_index q nx L = Ok ii -> (-1 <= ii)%Z ->
  exists fx,
    pld_unbounded sigma q nx (grid nx L) ii = Ok fx
    /\ length fx = Z.to_nat nx
    /\ forall i, (i < Z.to_nat nx)%nat ->
         let t := - L + INR i * (2 * L / IZR nx) in
         nth i (grid nx L) C0 = RtoC t
         /\ ((Z.of_nat i <= ii)%Z -> t <= ln (1 - q) /\ nth i fx 0 = 0)
         /\ ((ii < Z.of_nat i)%Z ->
             ln (1 - q) < t
             /\ nth i fx 0 = spec_density_unbounded sigma q t
             /\ 0 < nth i fx 0).
Proof.
  intros Hnx HL Hs Hq Hii Hge.
  rewrite boundary_index_ok in Hii by lra. injection Hii as Hii.
  change (ln (1 - q)) with (Re (RtoC (ln (1 - q)))) in Hii.
  fold (start_index nx L (RtoC (ln (1 - q)))) in Hii.
  rewrite pld_unbounded_ok by apply length_grid.
  eexists. split; [reflexivity|].
  assert (Hk : (norm_index (Z.to_nat nx) (ii + 1) <= Z.to_nat nx)%nat)
    by apply norm_index_le.
  split.
  { rewrite length_app, repeat_length, length_map, length_slice_from,
      length_grid. lia. }
  intros i Hi t.
  pose proof (start_index_separates nx L (RtoC (ln (1 - q))) i Hnx HL) as Hsep.
  rewrite Hii in Hsep. cbn [Re RtoC] in Hsep. fold t in Hsep.
  unfold slice_from. rewrite length_grid.
  rewrite nth_pld_array by (rewrite length_grid; assumption).
  rewrite nth_grid by assumption. fold t.
  rewrite norm_index_nonneg by lia.
  split; [reflexivity|]. split.
  - intros Hle.
    assert (~ ln (1 - q) < t) by (intros H; apply Hsep in H; lia).
    split; [lra|].
    destruct (Nat.ltb_spec i (Nat.min (Z.to_nat nx) (Z.to_nat (ii + 1))));
      [reflexivity | lia].
  - intros Hlt.
    assert (Ht : ln (1 - q) < t) by (apply Hsep; exact Hlt).
    assert (Hexp : 1 - q < exp t).
    { rewrite <- (exp_ln (1 - q)) by lra. now apply exp_increasing. }
    destruct (density_unbounded_on_support sigma q t Hs ltac:(lra) Hexp)
      as [Heq Hpos].
    destruct (Nat.ltb_spec i (Nat.min (Z.to_nat nx) (Z.to_nat (ii + 1))));
      [lia|].
    rewrite Heq. repeat split; assumption.
Qed.

(** Where the boundary index is between [-nx] and [-2], the whole grid
    lies above [ln (1 - q)], yet the slices of lines 38-46 start at
    [nx + ii + 1 > 0]: the entry at index 0 stays 0 although the product is
    positive at [x_0 = -L]. *)
Lemma pld_unbounded_wraps (sigma q : R) (nx : Z) (L : R) (ii : Z) :
  (0 < nx)%Z -> 0 < L -> sigma <> 0 -> 0 < q < 1 ->
  boundary_index q nx L = Ok ii -> (- nx <= ii <= -2)%Z ->
  exists fx,
    pld_unbounded sigma q nx (grid nx L) ii = Ok fx
    /\ nth 0 fx 0 = 0
    /\ nth 0 (grid nx L) C0 = RtoC (- L + INR 0 * (2 * L / IZR nx))
    /\ ln (1 - q) < - L + INR 0 * (2 * L / IZR nx)
    /\ 0 < spec_density_unbounded sigma q (- L + INR 0 * (2 * L / IZR nx)).
Proof.
  intros Hnx HL Hs Hq Hii Hrange.
  rewrite boundary_index_ok in Hii by lra. injection Hii as Hii.
  change (ln (1 - q)) with (Re (RtoC (ln (1 - q)))) in Hii.
  fold (start_index nx L (RtoC (ln (1 - q)))) in Hii.
  rewrite pld_unbounded_ok by apply length_grid.
  eexists. split; [reflexivity|].
  pose proof (start_index_separates nx L (RtoC (ln (1 - q))) 0 Hnx HL) as Hsep.
  rewrite Hii in Hsep. cbn [Re RtoC] in Hsep.
  assert (Ht : ln (1 - q) < - L + INR 0 * (2 * L / IZR nx))
    by (apply Hsep; cbn; lia).
  split.
  { unfold norm_index. destruct (Z.ltb_spec (ii + 1) 0) as [_|Hc]; [|lia].
    destruct (Z.to_nat (Z.max 0 (Z.of_nat (Z.to_nat nx) + (ii + 1))))
      as [|k] eqn:Hk; [lia | reflexivity]. }
  split; [apply nth_grid; lia|]. split; [exact Ht|].
  apply density_unbounded_on_support; [assumption | lra |].
  rewrite <- (exp_ln (1 - q)) by lra. now apply exp_increasing.
Qed.

(** Bounds on [exp] that place [ln (1/10)] between -3 and -2. *)
Lemma exp_2_lt_10 : exp 2 < 10.
Proof.
  replace 2 with (1 + 1) by lra. rewrite exp_plus.
  pose proof exp_le_3. pose proof (exp_pos 1). nra.
Qed.

Lemma exp_3_ge_10 : 10 <= exp 3.
Proof.
  pose proof (exp_ineq1_le (1 / 2)) as Hh.
  assert (H1 : exp 1 = exp (1 / 2) * exp (1 / 2))
    by (rewrite <- exp_plus; f_equal; lra).
  assert (H3 : exp 3 = exp 1 * exp 1 * exp 1)
    by (rewrite <- !exp_plus; f_equal; lra).
  assert (9 / 4 <= exp 1) by nra.
  rewrite H3. nra.
Qed.

Lemma ln_tenth_bounds : -3 <= ln (1 - 9 / 10) < -2.
Proof.
  replace (1 - 9 / 10) with (/ 10) by lra.
  rewrite ln_Rinv by lra.
  assert (2 < ln 10).
  { rewrite <- (ln_exp 2). apply ln_increasing; [apply exp_pos|].
    apply exp_2_lt_10. }
  assert (ln 10 <= 3).
  { destruct (Rle_dec (ln 10) 3) as [H3|H3]; [exact H3|].
    assert (Hlt : exp 3 < exp (ln 10)) by (apply exp_increasing; lra).
    rewrite exp_ln in Hlt by lra.
    pose proof exp_3_ge_10. lra. }
  lra.
Qed.

(** C4 at the input [sigma = 2], [q = 0.9], [nx = 2], [L = 1].  The grid
    is [x = (-1, 0)] and both points lie above [ln (1 - q)], so no index is
    at or below the boundary; line 31 gives [ii = -2], and the slices
    [x[ii + 1:]] and [fx[ii + 1:]] of lines 38-46, with the start [-1],
    denote the last entry only.  The array is [fx = (0, d)]: at index 0,
    above the boundary, it holds 0 and not the product of the mixture
    weight and the derivative, which is positive there. *)
Theorem negative_boundary_index_wraps :
  boundary_index (9 / 10) 2 1 = Ok (-2)%Z
  /\ grid 2 1 = [RtoC (- (1) + 0 * (2 * 1 / 2)); RtoC (- (1) + 1 * (2 * 1 / 2))]
  /\ ln (1 - 9 / 10) < - (1) + 0 * (2 * 1 / 2)
  /\ pld_unbounded 2 (9 / 10) 2 (grid 2 1) (-2)
     = Ok [0; density_unbounded 2 (9 / 10) (RtoC (- (1) + 1 * (2 * 1 / 2)))]
  /\ density_unbounded 2 (9 / 10) (RtoC (- (1) + 0 * (2 * 1 / 2)))
     = spec_density_unbounded 2 (9 / 10) (- (1) + 0 * (2 * 1 / 2))
  /\ 0 < spec_density_unbounded 2 (9 / 10) (- (1) + 0 * (2 * 1 / 2)).
Proof.
  pose proof ln_tenth_bounds as Hln.
  split.
  { rewrite boundary_index_ok by lra. f_equal.
    apply Zfloor_eq. lra. }
  split; [reflexivity|]. split; [lra|]. split.
  { rewrite pld_unbounded_ok by reflexivity. reflexivity. }
  apply density_unbounded_on_support; [lra | lra |].
  rewrite <- (exp_ln (1 - 9 / 10)) by lra.
  apply exp_increasing. lra.
Qed.

(** ** The solver *)

(** The window test on an iterate that is real. *)
Lemma out_of_window_of_real (L : R) (e : C) :
  Im e = 0 -> (out_of_window L e = true <-> Re e < - L \/ L < Re e).
Proof.
  intros Him. split; [|apply out_of_window_real].
  unfold out_of_window, Cgtb, Cltb. cbn [Re Im RtoC]. rewrite Him.
  assert (Rltb 0 0 = false) as -> by (apply Rltb_false; lra).
  rewrite !andb_false_r, !orb_false_r.
  intros H. apply orb_true_iff in H.
  destruct H as [H|H]; apply Rltb_true in H; [now left | now right].
Qed.

(** ** An odd sample count *)

Lemma length_pld_unbounded_array (f : C -> R) (nx ii : Z) (L : R) :
  length (repeat 0 (norm_index (Z.to_nat nx) (ii + 1))
          ++ map f (slice_from (ii + 1) (grid nx L))) = Z.to_nat nx.
Proof.
  rewrite length_app, repeat_length, length_map, length_slice_from,
    length_grid.
  pose proof (norm_index_le (Z.to_nat nx) (ii + 1)). lia.
Qed.

(** The stages of the remove/add entry point up to the first flip, on a
    positive [nx] with [q < 1] and a nonzero [L]. *)
Lemma prepare_unbounded_odd sigma q ncomp nx L :
  (0 < nx)%Z -> q < 1 -> L <> 0 -> Z.odd nx = true ->
  prepare_unbounded sigma q ncomp nx L = Raise ValueError.
Proof.
  intros Hnx Hq HL Hodd. unfold prepare_unbounded.
  rewrite py_div_ok by (apply not_0_IZR; lia). cbn [bind].
  rewrite linspace_grid by assumption. cbn [bind].
  rewrite boundary_index_ok by assumption. cbn [bind].
  rewrite pld_unbounded_ok by apply length_grid. cbn [bind].
  rewrite flip_odd; [reflexivity | | assumption].
  rewrite length_pld_unbounded_array. lia.
Qed.

Lemma prepare_bounded_odd sigma q ncomp nx L :
  (0 < nx)%Z -> sigma <> 0 -> Z.odd nx = true ->
  prepare_bounded sigma q ncomp nx L = Raise ValueError.
Proof.
  intros Hnx Hs Hodd. unfold prepare_bounded, c_bounded.
  rewrite py_div_ok by (apply not_0_IZR; lia). cbn [bind].
  rewrite linspace_grid by assumption. cbn [bind].
  rewrite py_div_ok
    by (apply Rmult_integral_contrapositive_currified;
        [lra | now apply pow_nonzero]).
  cbn [bind].
  rewrite pld_bounded_ok by apply length_grid. cbn [bind].
  rewrite flip_odd; [reflexivity | | assumption].
  rewrite length_map, length_grid. lia.
Qed.

(** ** Special values: arithmetic on finite numbers *)

Lemma xleb_fin r s : xleb (XFin r) (XFin s) = Rleb r s.
Proof.
  unfold xleb, xltb, xeqb, Rltb, Reqb, Rleb.
  destruct (Rlt_dec r s), (Req_dec_T r s), (Rle_dec r s);
    try reflexivity; exfalso; lra.
Qed.

Lemma xdiv_fin r s : s <> 0 -> xdiv (XFin r) (XFin s) = XFin (r / s).
Proof.
  intros Hs. unfold xdiv, Reqb.
  destruct (Req_dec_T s 0); [contradiction | reflexivity].
Qed.

Lemma xdiv_zero r :
  xdiv (XFin r) (XFin 0)
  = if Reqb r 0 then XNaN else xinf (Rltb 0 r).
Proof. unfold xdiv. now rewrite Reqb_refl. Qed.

Lemma Reqb_false a b : Reqb a b = false <-> a <> b.
Proof. unfold Reqb; destruct (Req_dec_T a b); split; intros; try easy. Qed.

Lemma xCadd_fin a b : xCadd (fin a) (fin b) = fin (a + b).
Proof. reflexivity. Qed.

Lemma xCsub_fin a b : xCsub (fin a) (fin b) = fin (a - b).
Proof. reflexivity. Qed.

Lemma xCneg_fin a : xCneg (fin a) = fin (- a).
Proof. reflexivity. Qed.

Lemma xCmul_fin a b : xCmul (fin a) (fin b) = fin (a * b).
Proof. reflexivity. Qed.

Lemma xCabs_fin a : xCabs (fin a) = XFin (Cabs a).
Proof. reflexivity. Qed.

Lemma xCexp_fin a : xCexp (fin a) = fin (Cexp a).
Proof. destruct a. reflexivity. Qed.

Lemma xCsum_fin l : xCsum (map fin l) = fin (Csum l).
Proof.
  unfold xCsum, Csum. generalize C0.
  induction l as [|a l IH]; intros z; cbn [map fold_left]; [reflexivity|].
  rewrite xCadd_fin. apply IH.
Qed.

Lemma map2_fin (f : xC -> xC -> xC) (g : C -> C -> C) a b :
  (forall u w, f (fin u) (fin w) = fin (g u w)) ->
  map2 f (map fin a) (map fin b) = map fin (map2 g a b).
Proof.
  intros H. unfold map2. revert b.
  induction a as [|u a IH]; intros [|w b]; cbn; try reflexivity.
  rewrite H. f_equal. apply IH.
Qed.

(** On finite numbers with a nonzero divisor, the quotient of numpy is the
    quotient of complex numbers. *)
Lemma xCdiv_fin a b : b <> C0 -> xCdiv (fin a) (fin b) = fin (a / b).
Proof.
  intros Hb. destruct a as [ar ai], b as [br bi].
  assert (Hnz : br <> 0 \/ bi <> 0).
  { destruct (Req_dec_T br 0) as [->|]; [|now left].
    destruct (Req_dec_T bi 0) as [->|]; [|now right].
    exfalso. apply Hb. reflexivity. }
  unfold xCdiv, fin, Cdiv. cbn [xRe xIm Re Im xabs].
  rewrite xleb_fin.
  destruct (Rleb (Rabs bi) (Rabs br)) eqn:Hle.
  - apply Rleb_true in Hle.
    assert (Hbr : br <> 0).
    { intros ->. rewrite Rabs_R0 in Hle.
      pose proof (Rabs_pos bi) as Hp.
      assert (Hz : Rabs bi = 0) by lra.
      destruct Hnz as [Hn|Hn]; [now apply Hn|].
      now apply (Rabs_no_R0 bi). }
    assert (Reqb (Rabs br) 0 = false) as E.
    { apply Reqb_false. now apply Rabs_no_R0. }
    cbn [xeqb]. rewrite E. cbn [andb].
    rewrite (xdiv_fin bi br Hbr). cbn [xmul xadd].
    assert (Hd : br + bi * (bi / br) <> 0).
    { replace (br + bi * (bi / br)) with ((br * br + bi * bi) / br)
        by (field; assumption).
      intros H. apply Rmult_eq_compat_r with (r := br) in H.
      unfold Rdiv in H. rewrite Rmult_assoc, Rinv_l, Rmult_1_r, Rmult_0_l in H
        by assumption.
      nra. }
    rewrite (xdiv_fin 1 _ Hd). cbn [xmul xsub xadd xneg].
    assert (Hs : br * br + bi * bi <> 0) by nra.
    f_equal; f_equal; field; repeat split; try assumption.
    all: intros H; apply Hd; rewrite <- H; field; assumption.
  - assert (Hlt : Rabs br < Rabs bi).
    { apply Rnot_le_lt. intros H. apply (proj2 (Rleb_true _ _)) in H.
      rewrite H in Hle. discriminate. }
    assert (Hbi : bi <> 0).
    { intros ->. rewrite Rabs_R0 in Hlt. pose proof (Rabs_pos br). lra. }
    rewrite (xdiv_fin br bi Hbi). cbn [xmul xadd].
    assert (Hd : bi + br * (br / bi) <> 0).
    { replace (bi + br * (br / bi)) with ((br * br + bi * bi) / bi)
        by (field; assumption).
      intros H. apply Rmult_eq_compat_r with (r := bi) in H.
      unfold Rdiv in H. rewrite Rmult_assoc, Rinv_l, Rmult_1_r, Rmult_0_l in H
        by assumption.
      nra. }
    rewrite (xdiv_fin 1 _ Hd). cbn [xmul xsub xadd xneg].
    assert (Hs : br * br + bi * bi <> 0) by nra.
    f_equal; f_equal; field; repeat split; try assumption.
    all: intros H; apply Hd; rewrite <- H; field; assumption.
Qed.

(** A zero divisor: each part of the dividend is divided by zero. *)
Lemma xCdiv_zero z :
  xCdiv z (fin C0) = mkX (xdiv (xRe z) (XFin 0)) (xdiv (xIm z) (XFin 0)).
Proof.
  unfold xCdiv, fin. cbn [xRe xIm Re Im C0 RtoC xabs].
  rewrite xleb_fin, Rabs_R0.
  assert (Rleb 0 0 = true) as -> by (apply Rleb_true; lra).
  cbn [xeqb]. now rewrite Reqb_refl.
Qed.

Lemma xCgeb_fin z w : xCgeb (fin z) (fin w) = Cgeb z w.
Proof.
  unfold xCgeb, Cgeb, fin. cbn [xRe xIm xisnan negb xltb xeqb].
  rewrite xleb_fin, !andb_true_r. reflexivity.
Qed.

Lemma xCmaximum_fin z w : xCmaximum (fin z) (fin w) = fin (Cmaximum z w).
Proof.
  unfold xCmaximum, Cmaximum. rewrite xCgeb_fin.
  cbn [fin xRe xIm xisnan orb].
  destruct (Cgeb z w); reflexivity.
Qed.

(** ** The floor of line 146 *)

(** With a nonzero [c] the quotient of line 145 and the floor of line 146
    have finite values, those of the complex arithmetic. *)
Lemma term1_floored_finite q c ey :
  c <> 0 ->
  IEEE.term1_bounded q c ey = fin (term1_bounded q c ey)
  /\ IEEE.term1_floored q c ey = fin (term1_floored q c ey).
Proof.
  intros Hc.
  assert (H2c : RtoC (2 * c) <> C0).
  { intros H. apply (f_equal Re) in H. cbn in H. lra. }
  assert (E : IEEE.term1_bounded q c ey = fin (term1_bounded q c ey)).
  { unfold IEEE.term1_bounded. now rewrite xCdiv_fin. }
  split; [exact E|].
  unfold IEEE.term1_floored. rewrite E. apply xCmaximum_fin.
Qed.

(** With [c = 0] the numerator of line 145 vanishes at every real grid
    point [x <= 0] (for [q <= 1]), and the quotient is [0 / 0]. *)
Lemma term1_numerator_zero q t :
  q <= 1 -> t <= 0 -> term1_numerator q 0 (Cexp (RtoC t)) = C0.
Proof.
  intros Hq Ht. rewrite Cexp_real.
  assert (He : 0 < exp t <= 1).
  { split; [apply exp_pos|]. rewrite <- exp_0.
    destruct Ht as [Ht| ->]; [left; now apply exp_increasing | right; reflexivity]. }
  unfold term1_numerator, sq_bounded, Csqr, C1.
  rewrite !Csub_real, !Cmul_real, Cadd_real.
  replace ((1 - q) ^ 2 * ((1 - exp t) * (1 - exp t)) + 4 * 0 ^ 2 * exp t)
    with (((1 - q) * (1 - exp t)) * ((1 - q) * (1 - exp t))) by ring.
  assert (Ha : 0 <= (1 - q) * (1 - exp t)) by (apply Rmult_le_pos; lra).
  rewrite Csqrt_real by (apply Rmult_le_pos; assumption).
  rewrite sqrt_square by assumption.
  rewrite Cadd_real. unfold C0. f_equal. ring.
Qed.

Lemma term1_floored_nan q t :
  q <= 1 -> t <= 0 ->
  IEEE.term1_bounded q 0 (Cexp (RtoC t)) = mkX XNaN XNaN
  /\ IEEE.term1_floored q 0 (Cexp (RtoC t)) = mkX XNaN XNaN.
Proof.
  intros Hq Ht.
  assert (E : IEEE.term1_bounded q 0 (Cexp (RtoC t)) = mkX XNaN XNaN).
  { unfold IEEE.term1_bounded. rewrite term1_numerator_zero by assumption.
    replace (RtoC (2 * 0)) with C0 by (unfold C0; f_equal; ring).
    rewrite xCdiv_zero. cbn [fin xRe xIm Re Im C0 RtoC].
    rewrite xdiv_zero. now rewrite Reqb_refl. }
  split; [exact E|]. unfold IEEE.term1_floored. now rewrite E.
Qed.

(** C5, as the code has it.  In the substitution variant [fx[ii - 1:]] with
    [ii = 1] is the whole array, so every index is assigned.  When [c] is
    not zero, the argument of the logarithm of line 147,
    [np.maximum(term1, 1e-16)], is finite and at least [1e-16] in numpy's
    order on complex numbers, so its real part is at least [1e-16] and
    positive; at a real grid point it is the real number
    [max (term1, 1e-16)], and (for a nonzero [sigma]) the entry stored is
    the real part of the product of the mixture weight and the derivative.
    When [c] is zero, the quotient of line 145 is [0 / 0] at every real
    grid point [x <= 0] (for [q <= 1]), and the floor returns NaN, not
    [1e-16]. *)
Theorem substitution_density_floored
  (sigma q : R) (nx : Z) (x : list C) (c : R) :
  length x = Z.to_nat nx ->
  slice_from (1 - 1) x = x
  /\ (forall v : list R,
        length v = Z.to_nat nx -> assign_from (1 - 1) (zeros nx) v = Ok v)
  /\ (exists fx,
        pld_bounded sigma q nx x c 1 = Ok fx
        /\ length fx = Z.to_nat nx
        /\ (sigma <> 0 -> c <> 0 ->
            forall i, (i < length x)%nat -> Im (nth i x C0) = 0 ->
              let t := Cmaximum (term1_bounded q c (Cexp (nth i x C0)))
                                (RtoC (/ 10 ^ 16)) in
              nth i fx 0
              = Re (mixture sigma q (RtoC (sigma ^ 2) * Clog t)
                    * dLinvx_bounded sigma q c (Cexp (nth i x C0)))%C))
  /\ forall i, (i < length x)%nat ->
       let ey := Cexp (nth i x C0) in
       let t := Cmaximum (term1_bounded q c ey) (RtoC (/ 10 ^ 16)) in
       (c <> 0 ->
        IEEE.term1_floored q c ey = fin t
        /\ Cgeb t (RtoC (/ 10 ^ 16)) = true
        /\ / 10 ^ 16 <= Re t
        /\ 0 < Re t
        /\ (Im (nth i x C0) = 0 ->
            exists r, term1_bounded q c ey = RtoC r
                      /\ t = RtoC (Rmax r (/ 10 ^ 16))))
       /\ (c = 0 -> q <= 1 -> Im (nth i x C0) = 0 -> Re (nth i x C0) <= 0 ->
           IEEE.term1_bounded q c ey = mkX XNaN XNaN
           /\ IEEE.term1_floored q c ey = mkX XNaN XNaN).
Proof.
  intros Hx.
  split; [apply slice_from_0|]. split.
  { intros v Hv. change (1 - 1)%Z with 0%Z.
    unfold assign_from. rewrite length_zeros, norm_index_nonneg by lia.
    rewrite Nat.min_r by lia. change (Z.to_nat 0) with 0%nat.
    rewrite Nat.sub_0_r, broadcast_same by assumption. reflexivity. }
  split.
  { exists (map (density_bounded sigma q c) x).
    split; [now apply pld_bounded_ok|]. split; [now rewrite length_map|].
    intros _ _ i Hi _ t.
    rewrite (nth_indep _ 0 (density_bounded sigma q c C0))
      by (now rewrite length_map).
    rewrite map_nth. reflexivity. }
  intros i Hi ey t. split.
  - intros Hc.
    assert (Hge : Cgeb t (RtoC (/ 10 ^ 16)) = true) by apply Cmaximum_ge.
    assert (Hre : / 10 ^ 16 <= Re t) by (apply Cgeb_Re in Hge; exact Hge).
    assert (Hpos : 0 < / 10 ^ 16) by (apply Rinv_0_lt_compat, pow_lt; lra).
    split; [apply (term1_floored_finite q c ey Hc)|].
    split; [assumption|]. split; [assumption|]. split; [lra|].
    intros Him.
    assert (Hxi : nth i x C0 = RtoC (Re (nth i x C0)))
      by (apply C_eq; [reflexivity | exact Him]).
    subst t ey. rewrite Hxi, Cexp_real.
    rewrite term1_bounded_real by (try assumption; left; apply exp_pos).
    eexists. split; [reflexivity | apply Cmaximum_real].
  - intros -> Hq Him Hre.
    assert (Hxi : nth i x C0 = RtoC (Re (nth i x C0)))
      by (apply C_eq; [reflexivity | exact Him]).
    subst ey. rewrite Hxi. now apply term1_floored_nan.
Qed.

Lemma substitution_density_floored_witness :
  let ey := Cexp (nth 0 [C0; C1] C0) in
  let t := Cmaximum (term1_bounded (1 / 2) 1 ey) (RtoC (/ 10 ^ 16)) in
  length [C0; C1] = Z.to_nat 2
  /\ IEEE.term1_floored (1 / 2) 1 ey = fin t
  /\ / 10 ^ 16 <= Re t
  /\ exists r, term1_bounded (1 / 2) 1 ey = RtoC r
               /\ t = RtoC (Rmax r (/ 10 ^ 16)).
Proof.
  intros ey t. split; [reflexivity|].
  destruct (substitution_density_floored 2 (1 / 2) 2 [C0; C1] 1 eq_refl)
    as (_ & _ & _ & H).
  destruct (H 0%nat ltac:(cbn; lia)) as [Hc _].
  destruct (Hc R1_neq_R0) as (Hfin & _ & Hre & _ & Hreal).
  split; [exact Hfin|]. split; [exact Hre|]. exact (Hreal eq_refl).
Defined.

(** C5 as stated fails when [c] is zero.  With [q = 0] line 143 gives
    [c = 0]; at the grid point [x = 0] (the second point of the grid of
    [nx = 2] points with [L = 1]) both terms of the numerator of line 145
    are zero, the quotient is [0 / 0] and [np.maximum] returns its NaN: the
    argument of the logarithm is not at least [1e-16]. *)
Lemma floor_propagates_nan_at_zero_c :
  exists c,
    c_bounded 2 0 = Ok c
    /\ c = 0
    /\ nth 1 (grid 2 1) C0 = RtoC (- (1) + 1 * (2 * 1 / 2))
    /\ IEEE.term1_floored 0 c (Cexp (nth 1 (grid 2 1) C0)) = mkX XNaN XNaN
    /\ xleb (XFin (/ 10 ^ 16))
            (xRe (IEEE.term1_floored 0 c (Cexp (nth 1 (grid 2 1) C0))))
       = false.
Proof.
  exists (0 * exp (-1 / (2 * 2 ^ 2))).
  split.
  { unfold c_bounded. rewrite py_div_ok; [reflexivity|]. lra. }
  split; [ring|]. split; [reflexivity|].
  assert (E : IEEE.term1_floored 0 (0 * exp (-1 / (2 * 2 ^ 2)))
                (Cexp (nth 1 (grid 2 1) C0)) = mkX XNaN XNaN).
  { rewrite Rmult_0_l.
    change (nth 1 (grid 2 1) C0) with (RtoC (- (1) + 1 * (2 * 1 / 2))).
    apply term1_floored_nan; lra. }
  split; [exact E|]. now rewrite E.
Qed.

(** ** The composition *)

Lemma Cexp_add a b : Cexp (a + b) = (Cexp a * Cexp b)%C.
Proof.
  unfold Cexp, Cadd, Cmul. cbn [Re Im].
  rewrite exp_plus, cos_plus, sin_plus. apply C_eq; cbn [Re Im]; ring.
Qed.

Lemma Cexp_0 : Cexp C0 = C1.
Proof.
  unfold Cexp. cbn [Re Im C0 RtoC]. rewrite exp_0, cos_0, sin_0.
  apply C_eq; cbn; ring.
Qed.

Lemma Cabs_pos_lt z : z <> C0 -> 0 < Cabs z.
Proof.
  intros Hz. unfold Cabs. apply sqrt_lt_R0.
  destruct z as [a b]. cbn [Re Im].
  destruct (Req_dec_T a 0) as [->|Ha].
  - destruct (Req_dec_T b 0) as [->|Hb]; [now elim Hz|]. nra.
  - nra.
Qed.

Lemma sqrt_one_plus_sqr a b :
  a <> 0 -> sqrt (1 + (b / a)²) = sqrt (a * a + b * b) / Rabs a.
Proof.
  intros Ha.
  assert (Hp : 0 < Rabs a) by now apply Rabs_pos_lt.
  apply sqrt_lem_1.
  - pose proof (Rle_0_sqr (b / a)). lra.
  - apply Rmult_le_pos; [apply sqrt_pos | left; now apply Rinv_0_lt_compat].
  - unfold Rdiv.
    replace (sqrt (a * a + b * b) * / Rabs a * (sqrt (a * a + b * b) * / Rabs a))
      with (sqrt (a * a + b * b) * sqrt (a * a + b * b) * / (Rabs a * Rabs a))
      by (field; lra).
    rewrite sqrt_sqrt by nra.
    replace (Rabs a * Rabs a) with (a * a)
      by (unfold Rabs; destruct (Rcase_abs a); ring).
    unfold Rsqr. field. assumption.
Qed.

(** The polar form of a nonzero complex number, with the principal
    argument. *)
Lemma polar_form z :
  z <> C0 ->
  Cabs z * cos (Carg z) = Re z /\ Cabs z * sin (Carg z) = Im z.
Proof.
  intros Hz. pose proof (Cabs_pos_lt z Hz) as Hm.
  destruct z as [a b]. unfold Carg, Cabs in *. cbn [Re Im] in *.
  set (m := sqrt (a * a + b * b)) in *.
  destruct (Rltb 0 a) eqn:Hpos.
  - apply Rltb_true in Hpos.
    rewrite cos_atan, sin_atan, sqrt_one_plus_sqr by lra. fold m.
    rewrite Rabs_right by lra. split; field; lra.
  - apply Rltb_false in Hpos.
    destruct (Rltb a 0) eqn:Hneg.
    + apply Rltb_true in Hneg.
      assert (Hs : sqrt (1 + (b / a)²) = m / - a).
      { rewrite sqrt_one_plus_sqr by lra. fold m.
        now rewrite Rabs_left by lra. }
      destruct (Rltb b 0).
      * unfold Rminus. rewrite cos_plus, sin_plus, cos_neg, sin_neg.
        rewrite cos_PI, sin_PI, cos_atan, sin_atan, Hs.
        split; field; lra.
      * rewrite neg_cos, neg_sin, cos_atan, sin_atan, Hs.
        split; field; lra.
    + apply Rltb_false in Hneg. assert (a = 0) as -> by lra.
      assert (Hmb : m * m = b * b).
      { unfold m. rewrite sqrt_sqrt by nra. ring. }
      destruct (Rltb 0 b) eqn:Hb.
      * apply Rltb_true in Hb. rewrite cos_PI2, sin_PI2.
        split; [ring|]. nra.
      * apply Rltb_false in Hb. destruct (Rltb b 0) eqn:Hb'.
        -- apply Rltb_true in Hb'. rewrite cos_neg, sin_neg, cos_PI2, sin_PI2.
           split; [ring|]. nra.
        -- apply Rltb_false in Hb'. assert (b = 0) as -> by lra.
           exfalso. apply Hz. reflexivity.
Qed.

Lemma Cexp_Clog z : z <> C0 -> Cexp (Clog z) = z.
Proof.
  intros Hz. destruct (polar_form z Hz) as [Hr Hi].
  unfold Cexp, Clog. cbn [Re Im].
  rewrite exp_ln by now apply Cabs_pos_lt.
  now apply C_eq.
Qed.

Lemma Cexp_nat (n : nat) (w : C) :
  Cexp (RtoC (INR n) * w) = Nat.iter n (Cmul (Cexp w)) C1.
Proof.
  induction n as [|n IH].
  - replace (RtoC (INR 0) * w)%C with C0 by (apply C_eq; cbn; ring).
    apply Cexp_0.
  - replace (RtoC (INR (S n)) * w)%C with (w + RtoC (INR n) * w)%C
      by (apply C_eq; rewrite S_INR; cbn; ring).
    rewrite Cexp_add, IH. reflexivity.
Qed.

Lemma iter_Cmul_zero (n : nat) : Nat.iter (S n) (Cmul C0) C1 = C0.
Proof. cbn [Nat.iter]. apply C_eq; cbn; ring. Qed.

(** The power of lines 63 and 176 at a natural exponent is the repeated
    product. *)
Lemma Cpow_nat (z : C) (n : nat) : Cpow z (INR n) = Nat.iter n (Cmul z) C1.
Proof.
  unfold Cpow. destruct n as [|n].
  - cbn [INR]. now rewrite Reqb_refl.
  - assert (Reqb (INR (S n)) 0 = false) as ->
      by (apply Reqb_false, not_0_INR; discriminate).
    destruct (Reqb (Re z) 0) eqn:Hr; cbn [andb].
    + destruct (Reqb (Im z) 0) eqn:Hi.
      * apply Reqb_true in Hr, Hi.
        assert (z = C0) as -> by (apply C_eq; assumption).
        symmetry. apply iter_Cmul_zero.
      * rewrite Cexp_nat, Cexp_Clog; [reflexivity|].
        intros ->. apply Reqb_false in Hi. now apply Hi.
    + rewrite Cexp_nat, Cexp_Clog; [reflexivity|].
      intros ->. apply Reqb_false in Hr. now apply Hr.
Qed.

Lemma Cpow_principal (z : C) (p : R) :
  p <> 0 -> z <> C0 -> Cpow z p = Cexp (RtoC p * Clog z).
Proof.
  intros Hp Hz. unfold Cpow.
  assert (Reqb p 0 = false) as -> by now apply Reqb_false.
  destruct (Reqb (Re z) 0) eqn:Hr; [|reflexivity].
  destruct (Reqb (Im z) 0) eqn:Hi; [|reflexivity].
  apply Reqb_true in Hr, Hi. exfalso. apply Hz. now apply C_eq.
Qed.

Lemma iter_Cmul_real (s : R) (n : nat) :
  Nat.iter n (Cmul (RtoC s)) C1 = RtoC (s ^ n).
Proof.
  induction n as [|n IH]; [reflexivity|].
  rewrite Nat.iter_succ, IH, Cmul_real. reflexivity.
Qed.

(** The entries of the two transforms. *)
Lemma twiddle_parts (sgn : R) (n k j : nat) :
  twiddle sgn n k j
  = mkC (cos (sgn * (2 * PI * INR j * INR k / INR n)))
        (sin (sgn * (2 * PI * INR j * INR k / INR n))).
Proof.
  unfold twiddle, Cexp. cbn [Re Im]. rewrite exp_0. apply C_eq; cbn; ring.
Qed.

Lemma nth_dft (sgn : R) (a : list C) (k : nat) :
  (k < length a)%nat ->
  nth k (dft sgn a) C0
  = Csum (map (fun j =>
                 (nth j a C0
                  * mkC (cos (sgn * (2 * PI * INR j * INR k / INR (length a))))
                        (sin (sgn * (2 * PI * INR j * INR k / INR (length a)))))%C)
              (seq 0 (length a))).
Proof.
  intros Hk. unfold dft.
  set (f := fun k => Csum (map (fun j => (nth j a C0 * twiddle sgn (length a) k j)%C)
                               (seq 0 (length a)))).
  fold f.
  rewrite (nth_indep _ C0 (f 0%nat)) by (now rewrite length_map, length_seq).
  rewrite (map_nth f), seq_nth by assumption. cbn [Nat.add]. unfold f.
  f_equal. apply map_ext. intros j. now rewrite twiddle_parts.
Qed.

(** The transform of two points. *)
Lemma dft_two (sgn : R) (a b : C) :
  sgn = 1 \/ sgn = -1 -> dft sgn [a; b] = [(a + b)%C; (a - b)%C].
Proof.
  intros Hs. unfold dft. cbn [length seq map nth].
  rewrite !twiddle_parts. cbn [INR].
  replace (sgn * (2 * PI * 0 * 0 / (1 + 1))) with 0 by (field; lra).
  replace (sgn * (2 * PI * 1 * 0 / (1 + 1))) with 0 by (field; lra).
  replace (sgn * (2 * PI * 0 * 1 / (1 + 1))) with 0 by (field; lra).
  replace (sgn * (2 * PI * 1 * 1 / (1 + 1))) with (sgn * PI) by (field; lra).
  assert (Hc : cos (sgn * PI) = -1 /\ sin (sgn * PI) = 0).
  { destruct Hs as [-> | ->].
    - rewrite Rmult_1_l, cos_PI, sin_PI. split; reflexivity.
    - replace (-1 * PI) with (- PI) by ring.
      rewrite cos_neg, sin_neg, cos_PI, sin_PI. split; ring. }
  destruct Hc as [-> ->]. rewrite cos_0, sin_0.
  unfold Csum. cbn [fold_left].
  f_equal; [|f_equal]; apply C_eq; cbn; ring.
Qed.

(** The composed density of two points, at a natural number of
    compositions: the transform of [(f1, f0) * dx] is
    [(dx (f1 + f0), dx (f1 - f0))], each entry is raised to the power [n]
    and divided by [dx], and the inverse transform and the flip give the
    half difference and the half sum. *)
Lemma composed_density_two (n : nat) (f0 f1 dx : R) :
  dx <> 0 ->
  composed_density (INR n) [f0; f1] dx
  = [RtoC (((dx * (f1 + f0)) ^ n - (dx * (f1 - f0)) ^ n) / dx / 2);
     RtoC (((dx * (f1 + f0)) ^ n + (dx * (f1 - f0)) ^ n) / dx / 2)].
Proof.
  intros Hdx. unfold composed_density, swap_halves.
  cbn [length Nat.div Nat.divmod fst skipn firstn app map].
  unfold fft. rewrite dft_two by (now right).
  rewrite Cadd_real, Csub_real. cbn [map].
  rewrite !Cpow_nat, !iter_Cmul_real, !Cdiv_real by assumption.
  unfold ifft. rewrite dft_two by (now left). cbn [map length].
  rewrite Cadd_real, Csub_real, !Cdiv_real by (cbn; lra).
  change (fst (Nat.divmod 2 1 0 1)) with 1%nat.
  cbn [skipn firstn app INR].
  f_equal; [|f_equal]; f_equal.
  - replace (f1 * dx + f0 * dx) with (dx * (f1 + f0)) by ring.
    replace (f1 * dx - f0 * dx) with (dx * (f1 - f0)) by ring.
    field. assumption.
  - replace (f1 * dx + f0 * dx) with (dx * (f1 + f0)) by ring.
    replace (f1 * dx - f0 * dx) with (dx * (f1 - f0)) by ring.
    field. assumption.
Qed.

Lemma nth_ifft (a : list C) (k : nat) :
  (k < length a)%nat ->
  nth k (ifft a) C0 = (nth k (dft 1 a) C0 / RtoC (INR (length a)))%C.
Proof.
  intros Hk. unfold ifft.
  set (f := fun z : C => (z / RtoC (INR (length a)))%C).
  rewrite (nth_indep _ C0 (f C0)) by (now rewrite length_map, length_dft).
  apply map_nth.
Qed.

(** C6.  In both entry points, on a configuration that reaches the loop
    (even positive [nx], nonzero [L], and [q < 1] for the remove/add
    relation, [sigma <> 0] for the substitution relation), the composed
    density is [flip (IDFT ((DFT (flip fx * dx)) ^ ncomp / dx))], where [fx]
    is the density array of the relation, [dx = 2 L / nx] and the flip (which
    succeeds on [fx]) exchanges the halves; nothing else is done to the
    arrays between these steps.  The transform has the entries
    [A_k = sum_j a_j exp (-2 pi i j k / n)], the inverse transform the
    entries [(1 / n) sum_j a_j exp (2 pi i j k / n)]; the power is 1 at the
    exponent 0, the [n]-fold product at a natural exponent [n], and
    [exp (p log z)] on the principal branch in general.  On two points and
    for [n] compositions this gives the half difference and the half sum
    of [(dx (f1 + f0)) ^ n / dx] and [(dx (f1 - f0)) ^ n / dx]. *)
Theorem composed_density_pipeline
  (rel : relation) (sigma q ncomp : R) (nx : Z) (L : R) :
  (0 < nx)%Z -> Z.even nx = true -> L <> 0 ->
  match rel with RemoveAdd => q < 1 | Substitution => sigma <> 0 end ->
  let dx := 2 * L / IZR nx in
  (exists (fx : list R) (v : vars),
     match rel with
     | RemoveAdd =>
         exists ii, boundary_index q nx L = Ok ii
                    /\ pld_unbounded sigma q nx (grid nx L) ii = Ok fx
     | Substitution =>
         exists c, c_bounded sigma q = Ok c
                   /\ pld_bounded sigma q nx (grid nx L) c 1 = Ok fx
     end
     /\ flip nx fx = Ok (swap_halves fx)
     /\ prepare sigma q ncomp nx L rel
        = Ok (grid nx L, dx,
              swap_halves
                (ifft (map (fun z => (Cpow z ncomp / RtoC dx)%C)
                           (fft (map RtoC
                                     (map (fun a => a * dx) (swap_halves fx)))))),
              v))
  /\ (forall (a : list C) (k : nat), (k < length a)%nat ->
        let t := fun j => 2 * PI * INR j * INR k / INR (length a) in
        nth k (fft a) C0
        = Csum (map (fun j => (nth j a C0 * mkC (cos (t j)) (- sin (t j)))%C)
                    (seq 0 (length a)))
        /\ nth k (ifft a) C0
           = (Csum (map (fun j => (nth j a C0 * mkC (cos (t j)) (sin (t j)))%C)
                        (seq 0 (length a)))
              / RtoC (INR (length a)))%C)
  /\ (forall z, Cpow z 0 = C1)
  /\ (forall z (n : nat), Cpow z (INR n) = Nat.iter n (Cmul z) C1)
  /\ (forall z p, p <> 0 -> z <> C0 ->
        Cexp (Clog z) = z /\ Cpow z p = Cexp (RtoC p * Clog z))
  /\ (forall (n : nat) (f0 f1 d : R), d <> 0 ->
        composed_density (INR n) [f0; f1] d
        = [RtoC (((d * (f1 + f0)) ^ n - (d * (f1 - f0)) ^ n) / d / 2);
           RtoC (((d * (f1 + f0)) ^ n + (d * (f1 - f0)) ^ n) / d / 2)]).
Proof.
  intros Hnx Hev HL Hrel dx.
  split; [|split; [|split; [|split; [|split]]]].
  - destruct rel; cbn [prepare].
    + pose proof (prepare_unbounded_ok sigma q ncomp nx L Hnx Hev HL Hrel) as Hp.
      cbv zeta in Hp. fold dx in Hp.
      eexists _, _. split; [|split; [|exact Hp]].
      * eexists. split; [now apply boundary_index_ok|].
        apply pld_unbounded_ok, length_grid.
      * apply flip_real_ok; try assumption.
        rewrite length_app, repeat_length, length_map, length_slice_from,
          length_grid.
        match goal with |- context [norm_index ?n ?s] =>
          pose proof (norm_index_le n s) end.
        lia.
    + pose proof (prepare_bounded_ok sigma q ncomp nx L Hnx Hev HL Hrel) as Hp.
      cbv zeta in Hp. fold dx in Hp.
      eexists _, _. split; [|split; [|exact Hp]].
      * eexists. split.
        -- unfold c_bounded. rewrite py_div_ok; [reflexivity|].
           apply Rmult_integral_contrapositive_currified;
             [lra | now apply pow_nonzero].
        -- apply pld_bounded_ok, length_grid.
      * apply flip_real_ok; try assumption.
        now rewrite length_map, length_grid.
  - intros a k Hk t. split.
    + unfold fft. rewrite nth_dft by assumption.
      f_equal. apply map_ext. intros j. unfold t.
      replace (-1 * (2 * PI * INR j * INR k / INR (length a)))
        with (- (2 * PI * INR j * INR k / INR (length a))) by ring.
      now rewrite cos_neg, sin_neg.
    + rewrite nth_ifft, nth_dft by assumption.
      f_equal. f_equal. apply map_ext. intros j. unfold t.
      now rewrite Rmult_1_l.
  - intros z. unfold Cpow. now rewrite Reqb_refl.
  - apply Cpow_nat.
  - intros z p Hp Hz. split; [now apply Cexp_Clog | now apply Cpow_principal].
  - intros n f0 f1 d Hd. now apply composed_density_two.
Qed.

Lemma composed_density_pipeline_witness :
  let c := 1 / 2 * exp (-1 / (2 * 2 ^ 2)) in
  let f0 := density_bounded 2 (1 / 2) c (nth 0 (grid 2 1) C0) in
  let f1 := density_bounded 2 (1 / 2) c (nth 1 (grid 2 1) C0) in
  let d := 2 * 1 / 2 in
  exists v,
    prepare 2 (1 / 2) (INR 2) 2 1 Substitution
    = Ok (grid 2 1, d,
          [RtoC (((d * (f1 + f0)) ^ 2 - (d * (f1 - f0)) ^ 2) / d / 2);
           RtoC (((d * (f1 + f0)) ^ 2 + (d * (f1 - f0)) ^ 2) / d / 2)],
          v).
Proof.
  intros c f0 f1 d.
  destruct (composed_density_pipeline Substitution 2 (1 / 2) (INR 2) 2 1
              eq_refl eq_refl R1_neq_R0 ltac:(lra))
    as ((fx & v & (c' & Hc & Hfx) & _ & Hp) & _ & _ & _ & _ & Htwo).
  exists v.
  unfold c_bounded in Hc. rewrite py_div_ok in Hc by lra.
  cbn [bind] in Hc. injection Hc as <-. fold c in Hfx.
  rewrite pld_bounded_ok in Hfx by reflexivity. injection Hfx as <-.
  rewrite Hp. do 3 f_equal.
  exact (Htwo 2%nat f0 f1 d ltac:(unfold d; lra)).
Defined.

(** ** The tail integral and its start index *)

Lemma map_slice_from {A B : Type} (f : A -> B) (s : Z) (l : list A) :
  map f (slice_from s l) = slice_from s (map f l).
Proof. unfold slice_from. now rewrite length_map, skipn_map. Qed.

(** The slice [[k + 1:]] of an element-wise product, for a start index
    that is not negative: the entries at the indices above [k]. *)
Lemma tail_slice_at (x cfx : list C) (k : Z) (f : C -> C) :
  (0 <= k)%Z -> length cfx = length x ->
  slice_from (k + 1) (map2 Cmul (map f x) cfx)
  = map (fun i => (f (nth i x C0) * nth i cfx C0)%C)
        (seq (Z.to_nat (k + 1)) (length x - Z.to_nat (k + 1))).
Proof.
  intros Hk Hcfx.
  assert (Hlen : length (map2 Cmul (map f x) cfx) = length x).
  { rewrite length_map2, length_map. lia. }
  unfold slice_from. rewrite Hlen, norm_index_nonneg by lia.
  rewrite (skipn_as_map_nth (f C0 * C0)%C), Hlen.
  destruct (Nat.le_gt_cases (length x) (Z.to_nat (k + 1))) as [Hge|Hlt].
  - rewrite Nat.min_l by assumption.
    replace (length x - length x)%nat with 0%nat by lia.
    replace (length x - Z.to_nat (k + 1))%nat with 0%nat by lia.
    reflexivity.
  - rewrite Nat.min_r by lia.
    apply map_ext_in. intros i Hi. apply in_seq in Hi.
    rewrite nth_map2.
    + f_equal. apply map_nth.
    + rewrite length_map. lia.
    + lia.
Qed.

(** On finite numbers the sums with special values are the sums of the
    complex arithmetic. *)
Lemma exp_e_of_fin x e :
  IEEE.exp_e_of x (fin e) = map fin (exp_e_of x e)
  /\ IEEE.dexp_e_of x (fin e) = map fin (dexp_e_of x e).
Proof.
  unfold IEEE.exp_e_of, IEEE.dexp_e_of, exp_e_of, dexp_e_of.
  rewrite !map_map. split; apply map_ext; intros xi.
  - now rewrite xCsub_fin, xCexp_fin, xCsub_fin.
  - now rewrite xCsub_fin, xCexp_fin, xCneg_fin.
Qed.

Lemma tail_fin x dx cfx e k :
  IEEE.tail_delta x dx (map fin cfx) (fin e) k = fin (tail_delta x dx cfx e k)
  /\ IEEE.tail_derivative x dx (map fin cfx) (fin e) k
     = fin (tail_derivative x dx cfx e k).
Proof.
  unfold IEEE.tail_delta, IEEE.tail_derivative, tail_delta, tail_derivative.
  destruct (exp_e_of_fin x e) as [-> ->].
  rewrite !(map2_fin xCmul Cmul) by apply xCmul_fin.
  rewrite <- !map_slice_from, !xCsum_fin, !xCmul_fin. split; reflexivity.
Qed.

Section FloatFloor.

(** Rounding to the nearest [float64], in the standard model of floating
    point arithmetic (no overflow, no underflow): the relative error of an
    operation is at most [2^-53]. *)
Variable rnd : R -> R.
Hypothesis Hrnd : forall y, Rabs (rnd y - y) <= / 2 ^ 53 * Rabs y.

Let u := / 2 ^ 53.

Lemma unit_roundoff_small : 0 < u <= / 16.
Proof.
  unfold u. split.
  - apply Rinv_0_lt_compat, pow_lt. lra.
  - apply Rinv_le_contravar; [lra|].
    replace 16 with (2 ^ 4) by (cbn; lra).
    apply Rle_pow; [lra | lia].
Qed.

Lemma rnd_bounds y : 0 <= y -> (1 - u) * y <= rnd y <= (1 + u) * y.
Proof.
  intros Hy. pose proof (Hrnd y) as H. fold u in H.
  rewrite (Rabs_right y) in H by lra.
  unfold Rabs in H. destruct (Rcase_abs (rnd y - y)); lra.
Qed.

Variables (nx : Z) (L r : R).
Hypotheses (Hnx : (0 < nx)%Z) (HL : 0 < L) (Hr : - L <= r).

Let t := IZR nx * (L + r) / (2 * L).

(** The quotient of line 97 as the floats give it is within a relative
    error of [5 * 2^-53] of the exact quotient. *)
Lemma quotient_bounds :
  exists th,
    IEEE.quotient rnd nx L (XFin r) = XFin th
    /\ (1 - 5 * u) * t <= th <= (1 + 5 * u) * t.
Proof.
  pose proof unit_roundoff_small as [Hu0 Hu1].
  assert (Hn : 0 < IZR nx) by (apply IZR_lt; lia).
  assert (Hs : 0 <= L + r) by lra.
  pose proof (rnd_bounds (L + r) Hs) as [Ha1 Ha1'].
  set (a1 := rnd (L + r)) in *.
  assert (Ha1p : 0 <= a1) by nra.
  assert (Hp : 0 <= IZR nx * a1) by (apply Rmult_le_pos; lra).
  pose proof (rnd_bounds (IZR nx * a1) Hp) as [Ha2 Ha2'].
  set (a2 := rnd (IZR nx * a1)) in *.
  assert (Ha2p : 0 <= a2) by nra.
  pose proof (rnd_bounds (2 * L) ltac:(lra)) as [Hb Hb'].
  set (b := rnd (2 * L)) in *.
  assert (Hbp : 0 < b) by nra.
  assert (Hqp : 0 <= a2 / b).
  { apply Rmult_le_pos; [assumption | left; now apply Rinv_0_lt_compat]. }
  pose proof (rnd_bounds (a2 / b) Hqp) as [Hq Hq'].
  exists (rnd (a2 / b)). split.
  { unfold IEEE.quotient. cbn [xadd xmul IEEE.xrnd]. fold a1. fold a2. fold b.
    rewrite xdiv_fin by lra. reflexivity. }
  assert (Ht : t * (2 * L) = IZR nx * (L + r)) by (unfold t; field; lra).
  assert (Htp : 0 <= t).
  { unfold t. apply Rmult_le_pos; [apply Rmult_le_pos; lra|].
    left. apply Rinv_0_lt_compat. lra. }
  assert (Hqb : a2 / b * b = a2) by (field; lra).
  set (qv := a2 / b) in *.
  (* the products [nx * a1] and [a2] *)
  assert (Hp1 : (1 - u) * (t * (2 * L)) <= IZR nx * a1 <= (1 + u) * (t * (2 * L))).
  { rewrite Ht. split.
    - replace ((1 - u) * (IZR nx * (L + r))) with (IZR nx * ((1 - u) * (L + r)))
        by ring.
      apply Rmult_le_compat_l; lra.
    - replace ((1 + u) * (IZR nx * (L + r))) with (IZR nx * ((1 + u) * (L + r)))
        by ring.
      apply Rmult_le_compat_l; lra. }
  assert (Hp2 : (1 - u) * ((1 - u) * (t * (2 * L))) <= a2
                <= (1 + u) * ((1 + u) * (t * (2 * L)))).
  { split.
    - apply Rle_trans with ((1 - u) * (IZR nx * a1)); [|lra].
      apply Rmult_le_compat_l; lra.
    - apply Rle_trans with ((1 + u) * (IZR nx * a1)); [lra|].
      apply Rmult_le_compat_l; lra. }
  (* the quotient [a2 / b] *)
  assert (Hq1 : qv * (1 - u) <= (1 + u) * (1 + u) * t).
  { apply Rmult_le_reg_r with (2 * L); [lra|].
    apply Rle_trans with (qv * b).
    - replace (qv * (1 - u) * (2 * L)) with (qv * ((1 - u) * (2 * L))) by ring.
      apply Rmult_le_compat_l; lra.
    - rewrite Hqb. lra. }
  assert (Hq2 : (1 - u) * (1 - u) * t <= qv * (1 + u)).
  { apply Rmult_le_reg_r with (2 * L); [lra|].
    apply Rle_trans with (qv * b).
    - rewrite Hqb. lra.
    - replace (qv * (1 + u) * (2 * L)) with (qv * ((1 + u) * (2 * L))) by ring.
      apply Rmult_le_compat_l; lra. }
  split.
  - (* lower bound *)
    apply Rle_trans with ((1 - u) * qv); [|lra].
    apply Rmult_le_reg_r with (1 + u); [lra|].
    apply Rle_trans with ((1 - u) * ((1 - u) * (1 - u) * t)).
    + assert (0 <= u * t) by (apply Rmult_le_pos; lra).
      assert (0 <= u * (u * t)) by (apply Rmult_le_pos; lra).
      assert (u * (u * (u * t)) <= u * (u * t)).
      { rewrite <- (Rmult_1_l (u * (u * t))) at 2.
        apply Rmult_le_compat_r; lra. }
      nra.
    + replace ((1 - u) * qv * (1 + u)) with ((1 - u) * (qv * (1 + u))) by ring.
      apply Rmult_le_compat_l; lra.
  - (* upper bound *)
    apply Rle_trans with ((1 + u) * qv); [lra|].
    apply Rmult_le_reg_r with (1 - u); [lra|].
    apply Rle_trans with ((1 + u) * ((1 + u) * (1 + u) * t)).
    + replace ((1 + u) * qv * (1 - u)) with ((1 + u) * (qv * (1 - u))) by ring.
      apply Rmult_le_compat_l; lra.
    + assert (0 <= u * t) by (apply Rmult_le_pos; lra).
      assert (Hut : u * (u * t) <= / 16 * (u * t)).
      { apply Rmult_le_compat_r; lra. }
      assert (0 <= u * (u * t)) by (apply Rmult_le_pos; lra).
      assert (u * (u * (u * t)) <= / 16 * (u * (u * t))).
      { apply Rmult_le_compat_r; lra. }
      nra.
Qed.

(** The start index of line 97: not negative; every grid point above the
    iterate by more than the rounding margin [5 * 2^-53 * (L + r)] has its
    index above the start index, every grid point that is not above the
    iterate minus the margin has its index at or below it. *)
Lemma start_index_rounded :
  exists k,
    int_floor (IEEE.quotient rnd nx L (XFin r)) = Ok k
    /\ (0 <= k)%Z
    /\ forall i : nat,
         let xi := - L + INR i * (2 * L / IZR nx) in
         (r + 5 * u * (L + r) < xi -> (k < Z.of_nat i)%Z)
         /\ (xi <= r - 5 * u * (L + r) -> (Z.of_nat i <= k)%Z).
Proof.
  pose proof unit_roundoff_small as [Hu0 Hu1].
  destruct quotient_bounds as (th & Eq & Hlo & Hhi).
  assert (Hn : 0 < IZR nx) by (apply IZR_lt; lia).
  assert (Htp : 0 <= t).
  { unfold t. apply Rmult_le_pos; [apply Rmult_le_pos; lra|].
    left. apply Rinv_0_lt_compat. lra. }
  exists (Zfloor th). rewrite Eq. split; [reflexivity|].
  assert (Hth : 0 <= th).
  { apply Rle_trans with ((1 - 5 * u) * t); [|exact Hlo].
    apply Rmult_le_pos; lra. }
  split; [apply Zfloor_lub; cbn; lra|].
  intros i xi. subst xi. rewrite INR_IZR_INZ.
  set (d := 2 * L / IZR nx) in *.
  assert (Hd : 0 < d) by (apply Rdiv_lt_0_compat; lra).
  assert (Htd : t * d = L + r) by (unfold t, d; field; lra).
  pose proof (Zfloor_bound th) as [Hf1 Hf2].
  split.
  - intros Hxi. apply lt_IZR.
    apply Rle_lt_trans with th; [exact Hf1|].
    apply Rle_lt_trans with ((1 + 5 * u) * t); [exact Hhi|].
    apply Rmult_lt_reg_r with d; [exact Hd|].
    replace ((1 + 5 * u) * t * d) with ((1 + 5 * u) * (t * d)) by ring.
    rewrite Htd. lra.
  - intros Hxi. apply Zfloor_lub.
    apply Rle_trans with ((1 - 5 * u) * t); [|exact Hlo].
    apply Rmult_le_reg_r with d; [exact Hd|].
    replace ((1 - 5 * u) * t * d) with ((1 - 5 * u) * (t * d)) by ring.
    rewrite Htd. lra.
Qed.

End FloatFloor.

(** ** The Newton loop with special values *)

Lemma xsub_fin_class a t :
  xisinf (xsub a (XFin t)) = xisinf a /\ xisnan (xsub a (XFin t)) = xisnan a.
Proof. destruct a; split; reflexivity. Qed.

(** A quotient that [int] accepts comes from a finite real part. *)
Lemma int_floor_quotient_finite rnd nx L re kk :
  int_floor (IEEE.quotient rnd nx L re) = Ok kk -> exists r, re = XFin r.
Proof.
  intros H. destruct re as [r| | |]; [now exists r| | |]; exfalso; revert H;
    unfold IEEE.quotient; cbn [xadd IEEE.xrnd xmul];
    repeat (first [ progress unfold xinf
                  | match goal with
                    | |- context [if ?b then _ else _] => destruct b
                    end ];
            cbn [IEEE.xrnd xdiv xmul int_floor]);
    cbn [IEEE.xrnd xdiv xmul int_floor]; discriminate.
Qed.

Section IEEELoop.

Variable rnd : R -> R.
Variables (target_delta : R) (nx : Z) (L : R).
Variables (x : list C) (dx : R) (cfx : list xC).

Local Abbreviation loop := (IEEE.newton_loop rnd target_delta nx L x dx cfx).
Local Abbreviation body := (IEEE.newton_body rnd target_delta nx L x dx cfx).
Local Abbreviation step := (IEEE.newton_step target_delta).
Local Abbreviation going := (IEEE.keep_going target_delta).
Local Abbreviation outside := (IEEE.out_of_window L).
Local Abbreviation kk_of :=
  (fun e : xC => int_floor (IEEE.quotient rnd nx L (xRe e))).

(** The loop test. *)
Lemma going_fin v d :
  IEEE.delta_temp v = fin d ->
  going v = Rltb (/ 10 ^ 10) (Cabs (d - RtoC target_delta)).
Proof.
  intros H. unfold IEEE.keep_going, IEEE.residual. rewrite H.
  now rewrite xCsub_fin, xCabs_fin.
Qed.

Lemma residual_special v :
  let d := IEEE.delta_temp v in
  (xisinf (xRe d) || xisinf (xIm d) = true ->
   IEEE.residual target_delta v = XPInf /\ going v = true)
  /\ (xisinf (xRe d) || xisinf (xIm d) = false ->
      xisnan (xRe d) || xisnan (xIm d) = true ->
      IEEE.residual target_delta v = XNaN /\ going v = false).
Proof.
  intros d. unfold IEEE.keep_going, IEEE.residual, xCabs. fold d.
  cbn [xCsub xRe xIm fin Re Im RtoC].
  destruct (xsub_fin_class (xRe d) target_delta) as [-> En1].
  destruct (xsub_fin_class (xIm d) 0) as [-> En2].
  split.
  - intros ->. split; reflexivity.
  - intros -> Hn.
    destruct (xRe d) as [a| | |], (xIm d) as [b| | |];
      cbn in Hn |- *; try discriminate; split; reflexivity.
Qed.

Lemma ieee_loop_stop fuel v : going v = false -> loop fuel v = IEEE.Stopped v.
Proof. intros H. destruct fuel; cbn [IEEE.newton_loop]; now rewrite H. Qed.

Lemma ieee_loop_unfold fuel v :
  going v = true ->
  loop (S fuel) v
  = match body v with
    | Raise e => IEEE.Failed e
    | Ok (v', true) => IEEE.Stopped v'
    | Ok (v', false) => loop fuel v'
    end.
Proof. intros H. cbn [IEEE.newton_loop]. now rewrite H. Qed.

(** The loop body. *)
Lemma ieee_body_break v :
  outside (step v) = true ->
  body v
  = Ok (IEEE.mkVars (step v) (IEEE.exp_e v) (IEEE.dexp_e v) (IEEE.integrand v)
          (IEEE.integrand2 v) (IEEE.sum_int v) (IEEE.sum_int2 v)
          (IEEE.delta_temp v) (IEEE.derivative v), true).
Proof. intros W. unfold IEEE.newton_body. now rewrite W. Qed.

Lemma ieee_body_continue v kk :
  outside (step v) = false -> kk_of (step v) = Ok kk ->
  exists v1,
    body v = Ok (v1, false)
    /\ IEEE.eps_0 v1 = step v
    /\ IEEE.delta_temp v1 = IEEE.tail_delta x dx cfx (step v) kk
    /\ IEEE.derivative v1 = IEEE.tail_derivative x dx cfx (step v) kk.
Proof.
  intros W K. unfold IEEE.newton_body. rewrite W, K. cbn [bind].
  eexists. split; [reflexivity|]. repeat split.
Qed.

Lemma ieee_body_raise v e :
  outside (step v) = false -> kk_of (step v) = Raise e -> body v = Raise e.
Proof. intros W K. unfold IEEE.newton_body. now rewrite W, K. Qed.

(** The Newton step. *)
Lemma step_fin v e d g :
  IEEE.eps_0 v = fin e -> IEEE.delta_temp v = fin d ->
  IEEE.derivative v = fin g -> g <> C0 ->
  step v = fin (e - (d - RtoC target_delta) / g)%C.
Proof.
  intros He Hd Hg Hnz. unfold IEEE.newton_step. rewrite He, Hd, Hg.
  now rewrite xCsub_fin, xCdiv_fin, xCsub_fin.
Qed.

Lemma step_zero_derivative v e d :
  IEEE.eps_0 v = fin e -> IEEE.delta_temp v = fin d ->
  IEEE.derivative v = fin C0 ->
  step v
  = mkX (xsub (XFin (Re e)) (xdiv (XFin (Re d - target_delta)) (XFin 0)))
        (xsub (XFin (Im e)) (xdiv (XFin (Im d - 0)) (XFin 0))).
Proof.
  intros He Hd Hg. unfold IEEE.newton_step. rewrite He, Hd, Hg.
  now rewrite xCsub_fin, xCdiv_zero.
Qed.

(** The window test. *)
Lemma outside_finite e r :
  xRe e = XFin r ->
  (r < - L \/ L < r -> outside e = true)
  /\ (outside e = true -> r <= - L \/ L <= r)
  /\ (xIm e = XFin 0 -> (outside e = true <-> r < - L \/ L < r)).
Proof.
  intros Hr. unfold IEEE.out_of_window, xCltb.
  cbn [fin xRe xIm Re Im RtoC]. rewrite Hr. cbn [xltb xeqb].
  split; [|split].
  - intros [H|H]; apply (proj2 (Rltb_true _ _)) in H; rewrite H;
      [reflexivity | now rewrite orb_true_r].
  - intros H. apply orb_true_iff in H. destruct H as [H|H];
      apply orb_true_iff in H; destruct H as [H|H].
    + apply Rltb_true in H. lra.
    + apply andb_true_iff in H. destruct H as [H _].
      apply Reqb_true in H. lra.
    + apply Rltb_true in H. lra.
    + apply andb_true_iff in H. destruct H as [H _].
      apply Reqb_true in H. lra.
  - intros Hi. rewrite Hi. cbn [xltb].
    assert (Rltb 0 0 = false) as -> by (apply Rltb_false; lra).
    rewrite !andb_false_r, !orb_false_r. split.
    + intros H. apply orb_true_iff in H.
      destruct H as [H|H]; apply Rltb_true in H; [now left | now right].
    + intros [H|H]; apply (proj2 (Rltb_true _ _)) in H; rewrite H;
        [reflexivity | now rewrite orb_true_r].
Qed.

Lemma outside_special e :
  (xisinf (xRe e) = true -> outside e = true)
  /\ (xRe e = XNaN -> outside e = false).
Proof.
  unfold IEEE.out_of_window, xCltb. cbn [fin xRe xIm Re Im RtoC].
  split.
  - destruct (xRe e); cbn; try discriminate; reflexivity.
  - intros ->. reflexivity.
Qed.

(** More fuel does not change the result of a loop that has ended. *)
Lemma ieee_loop_more_fuel fuel : forall fuel' v,
  (fuel <= fuel')%nat -> loop fuel v <> IEEE.NoFuel ->
  loop fuel' v = loop fuel v.
Proof.
  induction fuel as [|fuel IH]; intros fuel' v Hle H.
  - cbn [IEEE.newton_loop] in H |- *.
    destruct (going v) eqn:K; [now elim H|]. now apply ieee_loop_stop.
  - destruct (going v) eqn:K.
    + destruct fuel' as [|fuel']; [lia|].
      rewrite ieee_loop_unfold in H by assumption.
      rewrite !ieee_loop_unfold by assumption.
      destruct (body v) as [[v1 [|]]|e]; try reflexivity.
      apply IH; [lia | exact H].
    + now rewrite !ieee_loop_stop.
Qed.

(** The three ways in which the loop is left without an exception:
    without an iteration, after an evaluation at the final iterate, which
    has passed the window test and has a finite real part, or by [break]. *)
Lemma ieee_loop_exit_kinds fuel : forall v v',
  loop fuel v = IEEE.Stopped v' ->
  (v' = v /\ going v = false)
  \/ (going v' = false
      /\ outside (IEEE.eps_0 v') = false
      /\ exists r kk,
           xRe (IEEE.eps_0 v') = XFin r
           /\ int_floor (IEEE.quotient rnd nx L (XFin r)) = Ok kk
           /\ IEEE.delta_temp v' = IEEE.tail_delta x dx cfx (IEEE.eps_0 v') kk
           /\ IEEE.derivative v'
              = IEEE.tail_derivative x dx cfx (IEEE.eps_0 v') kk)
  \/ (going v' = true /\ outside (IEEE.eps_0 v') = true).
Proof.
  induction fuel as [|fuel IH]; intros v v' H.
  - cbn [IEEE.newton_loop] in H.
    destruct (going v) eqn:K; [discriminate|].
    injection H as <-. left. now split.
  - destruct (going v) eqn:K.
    + rewrite ieee_loop_unfold in H by assumption.
      destruct (outside (step v)) eqn:W.
      * rewrite ieee_body_break in H by assumption.
        injection H as <-. right. right. split; [exact K | exact W].
      * destruct (kk_of (step v)) as [kk|e] eqn:Hk.
        -- destruct (ieee_body_continue v kk W Hk) as (v1 & Hb & He & Hd & Hd').
           rewrite Hb in H. apply IH in H.
           destruct H as [[-> K1]|[H|H]].
           ++ right. left. split; [exact K1|]. rewrite He.
              split; [exact W|].
              destruct (int_floor_quotient_finite _ _ _ _ _ Hk) as [r Hr].
              exists r, kk. rewrite Hr in Hk. repeat split; assumption.
           ++ right. left. exact H.
           ++ right. right. exact H.
        -- rewrite (ieee_body_raise v e W Hk) in H. discriminate.
    + rewrite ieee_loop_stop in H by assumption.
      injection H as <-. left. now split.
Qed.

(** At the exit the real part of the iterate is never NaN, unless the loop
    was entered with one. *)
Lemma ieee_exit_not_nan fuel v v' :
  loop fuel v = IEEE.Stopped v' ->
  xRe (IEEE.eps_0 v) <> XNaN -> xRe (IEEE.eps_0 v') <> XNaN.
Proof.
  intros H H0.
  destruct (ieee_loop_exit_kinds fuel v v' H)
    as [[-> _]|[(_ & _ & r & kk & Hr & _)|[_ W]]].
  - exact H0.
  - rewrite Hr. discriminate.
  - intros Hn. rewrite (proj2 (outside_special _) Hn) in W. discriminate.
Qed.

End IEEELoop.

(** The exit. *)
Lemma report_cases target_delta ncomp L rel (e : xC) :
  match xRe e with
  | XFin r =>
      (r < - L \/ L < r ->
       IEEE.report target_delta ncomp L rel e
       = IEEE.Returned XPInf [IEEE.MsgOutOfWindow])
      /\ (- L <= r <= L ->
          IEEE.report target_delta ncomp L rel e
          = IEEE.Returned (XFin r)
              [IEEE.MsgEpsilon rel (py_int ncomp) (XFin r) target_delta])
  | XNaN =>
      IEEE.report target_delta ncomp L rel e
      = IEEE.Returned XNaN
          [IEEE.MsgEpsilon rel (py_int ncomp) XNaN target_delta]
  | _ =>
      IEEE.report target_delta ncomp L rel e
      = IEEE.Returned XPInf [IEEE.MsgOutOfWindow]
  end.
Proof.
  unfold IEEE.report. destruct (xRe e) as [r| | |]; cbn [xltb orb];
    try reflexivity.
  split.
  - intros [H|H]; apply (proj2 (Rltb_true _ _)) in H; rewrite H;
      [reflexivity | now rewrite orb_true_r].
  - intros [H1 H2].
    apply (proj2 (Rltb_false _ _)) in H1.
    apply (proj2 (Rltb_false _ _)) in H2.
    now rewrite H1, H2.
Qed.

(** C3, as the code has it.  On the grid of [nx > 0] points with [L > 0],
    the evaluation at an iterate [eps_0] returns
    [delta = dx * sum_{i>k} (1 - exp (eps_0 - x_i)) * cfx_i] and
    [delta' = dx * sum_{i>k} (- exp (eps_0 - x_i)) * cfx_i], computed in
    complex arithmetic on the complex [cfx_i] (no real part is taken), for
    the start index [k] that line 97 computes; these are the sums formed
    before the loop (with [eps_0 = 0]) and in every iteration that passes
    the window test.  The start index is the floor of the quotient
    [nx (L + Re eps_0) / (2 L)] as the floats give it: it is not negative
    for [Re eps_0 >= -L]; every grid point above [Re eps_0] by more than
    the rounding margin [5 * 2^-53 * (L + Re eps_0)] is summed, every grid
    point at or below [Re eps_0] minus that margin is left out, and a grid
    point within the margin of [Re eps_0] may be on either side. *)
Theorem tail_integral_sums
  (rnd : R -> R) (nx : Z) (L dx : R) (cfx : list C) :
  (0 < nx)%Z -> 0 < L -> length cfx = Z.to_nat nx ->
  (forall y, Rabs (rnd y - y) <= / 2 ^ 53 * Rabs y) ->
  let x := grid nx L in
  (forall jj,
      delta_temp (initial_vars x dx cfx jj) = tail_delta x dx cfx C0 jj
      /\ derivative (initial_vars x dx cfx jj) = tail_derivative x dx cfx C0 jj
      /\ IEEE.delta_temp (IEEE.initial_vars x dx (map fin cfx) jj)
         = fin (tail_delta x dx cfx C0 jj)
      /\ IEEE.derivative (IEEE.initial_vars x dx (map fin cfx) jj)
         = fin (tail_derivative x dx cfx C0 jj))
  /\ (forall target_delta v e kk,
        IEEE.newton_step target_delta v = fin e ->
        IEEE.out_of_window L (fin e) = false ->
        int_floor (IEEE.quotient rnd nx L (XFin (Re e))) = Ok kk ->
        exists v1,
          IEEE.newton_body rnd target_delta nx L x dx (map fin cfx) v
          = Ok (v1, false)
          /\ IEEE.delta_temp v1 = fin (tail_delta x dx cfx e kk)
          /\ IEEE.derivative v1 = fin (tail_derivative x dx cfx e kk))
  /\ (forall e k, (0 <= k)%Z ->
        let tail := seq (Z.to_nat (k + 1)) (Z.to_nat nx - Z.to_nat (k + 1)) in
        tail_delta x dx cfx e k
        = (Csum (map (fun i => ((C1 - Cexp (e - nth i x C0)) * nth i cfx C0)%C)
                     tail) * RtoC dx)%C
        /\ tail_derivative x dx cfx e k
           = (Csum (map (fun i => ((- Cexp (e - nth i x C0)) * nth i cfx C0)%C)
                        tail) * RtoC dx)%C)
  /\ (forall r, - L <= r ->
        exists k,
          int_floor (IEEE.quotient rnd nx L (XFin r)) = Ok k
          /\ (0 <= k)%Z
          /\ forall i, (i < Z.to_nat nx)%nat ->
               (r + 5 * / 2 ^ 53 * (L + r) < Re (nth i x C0) ->
                (k < Z.of_nat i)%Z)
               /\ (Re (nth i x C0) <= r - 5 * / 2 ^ 53 * (L + r) ->
                   (Z.of_nat i <= k)%Z)).
Proof.
  intros Hnx HL Hcfx Hrnd x.
  split; [|split; [|split]].
  - intros jj. split; [reflexivity|]. split; [reflexivity|].
    exact (tail_fin x dx cfx C0 jj).
  - intros target_delta v e kk He W Hk.
    destruct (ieee_body_continue rnd target_delta nx L x dx (map fin cfx) v kk)
      as (v1 & Hb & _ & Hd & Hd').
    + now rewrite He.
    + now rewrite He.
    + exists v1. split; [exact Hb|].
      rewrite Hd, Hd', He. exact (tail_fin x dx cfx e kk).
  - intros e k Hk tail.
    assert (Hlen : length cfx = length x)
      by (unfold x; now rewrite length_grid).
    unfold tail_delta, tail_derivative, exp_e_of, dexp_e_of.
    rewrite !(tail_slice_at x cfx k) by assumption.
    replace (length x) with (Z.to_nat nx) by (unfold x; now rewrite length_grid).
    split; reflexivity.
  - intros r Hr.
    destruct (start_index_rounded rnd Hrnd nx L r Hnx HL Hr)
      as (k & Hk & Hk0 & Hi).
    exists k. split; [exact Hk|]. split; [exact Hk0|].
    intros i Hlt. unfold x. rewrite nth_grid by assumption.
    cbn [Re RtoC]. apply Hi.
Qed.

Lemma tail_integral_sums_witness :
  let x := grid 4 2 in
  let cfx := [C0; C0; C0; mkC 0 1] in
  tail_delta x 1 cfx C0 2
  = (Csum (map (fun i => ((C1 - Cexp (C0 - nth i x C0)) * nth i cfx C0)%C)
               (seq (Z.to_nat (2 + 1)) (Z.to_nat 4 - Z.to_nat (2 + 1))))
     * RtoC 1)%C
  /\ exists k,
       int_floor (IEEE.quotient (fun y => y) 4 2 (XFin 0)) = Ok k
       /\ (1 <= k < 3)%Z.
Proof.
  intros x cfx.
  assert (Hid : forall y, Rabs ((fun y => y) y - y) <= / 2 ^ 53 * Rabs y).
  { intros y. cbv beta. unfold Rminus. rewrite Rplus_opp_r, Rabs_R0.
    apply Rmult_le_pos; [|apply Rabs_pos].
    left. apply Rinv_0_lt_compat, pow_lt. lra. }
  destruct (tail_integral_sums (fun y => y) 4 2 1 cfx eq_refl ltac:(lra)
              eq_refl Hid) as (_ & _ & Hsum & Hidx).
  split; [exact (proj1 (Hsum C0 2%Z ltac:(lia)))|].
  destruct (Hidx 0 ltac:(lra)) as (k & Hk & Hk0 & Hi).
  exists k. split; [exact Hk|].
  pose proof unit_roundoff_small as [Hu0 Hu1].
  destruct (Hi 3%nat ltac:(cbn; lia)) as [H3 _].
  destruct (Hi 1%nat ltac:(cbn; lia)) as [_ H1].
  rewrite nth_grid in H1, H3 by (cbn; lia). cbn [Re RtoC INR] in H1, H3.
  assert ((k < Z.of_nat 3)%Z) by (apply H3; lra).
  assert ((Z.of_nat 1 <= k)%Z) by (apply H1; lra).
  lia.
Defined.

(** ** The solver *)

(** C1, as the code has it.  In both entry points the solver starts from
    [eps_0 = 0] and the value returned is the report on the final iterate
    of the loop.  The loop is continued while the test
    [np.abs(delta_temp - target_delta) > 1e-10] is true: for a finite
    [delta_temp] while the modulus exceeds [1e-10], for a [delta_temp] with
    an infinite part always, and for a [delta_temp] with a NaN part (and no
    infinite part) never, so that the loop is left although the residual is
    not at most [1e-10].  An iteration replaces [eps_0] by
    [eps_0 - (delta_temp - target_delta) / derivative], which for finite
    values and a nonzero [derivative] is the Newton update; with a zero
    [derivative] the real part of the new iterate is an infinity of the
    sign opposite to [Re delta_temp - target_delta], or NaN when that is
    zero.  If the new iterate fails the window test the loop is left by
    [break], with [delta_temp] and [derivative] unchanged; otherwise line
    97 computes the start index (and raises when the real part of
    the iterate is NaN) and [delta_temp] and [derivative] are evaluated at
    the new iterate.  Whenever the loop is left, the test is false or the
    iterate fails the window test.  The window test is
    [eps_0 < -L or eps_0 > L] in numpy's order on complex numbers: true for
    an infinite real part, false for a NaN real part, and on a real iterate
    it says that the iterate is outside [-L, L]. *)
Theorem newton_solver_iteration
  (rnd : R -> R) (target_delta : R) (nx : Z) (L : R)
  (x : list C) (dx : R) (cfx : list xC) :
  let loop := IEEE.newton_loop rnd target_delta nx L x dx cfx in
  let step := IEEE.newton_step target_delta in
  let going := IEEE.keep_going target_delta in
  let outside := IEEE.out_of_window L in
  (forall jj, IEEE.eps_0 (IEEE.initial_vars x dx cfx jj) = fin C0)
  /\ (forall rel sigma q ncomp fuel x0 dx0 cfx0 v0,
        prepare sigma q ncomp nx L rel = Ok (x0, dx0, cfx0, v0) ->
        IEEE.get_epsilon rnd target_delta sigma q ncomp nx L rel fuel
        = IEEE.run_newton rnd target_delta ncomp nx L rel fuel
            x0 dx0 (map fin cfx0)
            (IEEE.initial_vars x0 dx0 (map fin cfx0)
               (IEEE.initial_index rnd nx L)))
  /\ (forall v d,
        IEEE.delta_temp v = fin d ->
        (going v = true
         <-> / 10 ^ 10 < sqrt ((Re d - target_delta) * (Re d - target_delta)
                               + (Im d - 0) * (Im d - 0))))
  /\ (forall v,
        let d := IEEE.delta_temp v in
        (xisinf (xRe d) || xisinf (xIm d) = true -> going v = true)
        /\ (xisinf (xRe d) || xisinf (xIm d) = false ->
            xisnan (xRe d) || xisnan (xIm d) = true -> going v = false))
  /\ (forall fuel v, going v = false -> loop fuel v = IEEE.Stopped v)
  /\ (forall v e d g,
        IEEE.eps_0 v = fin e -> IEEE.delta_temp v = fin d ->
        IEEE.derivative v = fin g -> g <> C0 ->
        step v = fin (e - (d - RtoC target_delta) / g)%C)
  /\ (forall v e d,
        IEEE.eps_0 v = fin e -> IEEE.delta_temp v = fin d ->
        IEEE.derivative v = fin C0 ->
        (Re d < target_delta -> xRe (step v) = XPInf)
        /\ (target_delta < Re d -> xRe (step v) = XNInf)
        /\ (Re d = target_delta -> xRe (step v) = XNaN))
  /\ (forall fuel v,
        going v = true -> outside (step v) = true ->
        exists v1,
          loop (S fuel) v = IEEE.Stopped v1
          /\ IEEE.eps_0 v1 = step v
          /\ IEEE.delta_temp v1 = IEEE.delta_temp v
          /\ IEEE.derivative v1 = IEEE.derivative v)
  /\ (forall fuel v kk,
        going v = true -> outside (step v) = false ->
        int_floor (IEEE.quotient rnd nx L (xRe (step v))) = Ok kk ->
        exists v1,
          IEEE.eps_0 v1 = step v
          /\ IEEE.delta_temp v1 = IEEE.tail_delta x dx cfx (step v) kk
          /\ IEEE.derivative v1 = IEEE.tail_derivative x dx cfx (step v) kk
          /\ loop (S fuel) v = loop fuel v1)
  /\ (forall fuel v e,
        going v = true -> outside (step v) = false ->
        int_floor (IEEE.quotient rnd nx L (xRe (step v))) = Raise e ->
        loop (S fuel) v = IEEE.Failed e)
  /\ (forall fuel v v',
        loop fuel v = IEEE.Stopped v' ->
        going v' = false \/ outside (IEEE.eps_0 v') = true)
  /\ (forall e,
        (xisinf (xRe e) = true -> outside e = true)
        /\ (xRe e = XNaN ->
            outside e = false
            /\ int_floor (IEEE.quotient rnd nx L (xRe e)) = Raise ValueError)
        /\ (forall r, xRe e = XFin r ->
              (r < - L \/ L < r -> outside e = true)
              /\ (outside e = true -> r <= - L \/ L <= r)
              /\ (xIm e = XFin 0 ->
                  (outside e = true <-> r < - L \/ L < r)))).
Proof.
  intros loop step going outside.
  split; [reflexivity|]. split.
  { intros rel sigma q ncomp fuel x0 dx0 cfx0 v0 Hp.
    destruct rel; cbn [prepare IEEE.get_epsilon] in *;
      unfold IEEE.get_epsilon_unbounded, IEEE.get_epsilon_bounded;
      now rewrite Hp. }
  split.
  { intros v d Hd. unfold going. rewrite (going_fin target_delta v d Hd).
    unfold Cabs. cbn [Re Im Csub RtoC]. apply Rltb_true. }
  split.
  { intros v d.
    destruct (residual_special target_delta v) as [Hinf Hnan]. fold d in Hinf, Hnan.
    split; [intros H; apply (Hinf H) | intros H1 H2; apply (Hnan H1 H2)]. }
  split; [intros fuel v; apply ieee_loop_stop|].
  split; [intros v e d g; apply step_fin|].
  split.
  { intros v e d He Hd Hg. unfold step.
    rewrite (step_zero_derivative target_delta v e d He Hd Hg).
    cbn [xRe]. rewrite xdiv_zero. unfold Reqb, Rltb.
    repeat split; intros H;
      destruct (Req_dec_T (Re d - target_delta) 0);
      destruct (Rlt_dec 0 (Re d - target_delta));
      try reflexivity; exfalso; lra. }
  split.
  { intros fuel v K W. eexists. split.
    - unfold loop. rewrite ieee_loop_unfold by exact K.
      rewrite ieee_body_break by exact W. reflexivity.
    - repeat split. }
  split.
  { intros fuel v kk K W Hk.
    destruct (ieee_body_continue rnd target_delta nx L x dx cfx v kk W Hk)
      as (v1 & Hb & He & Hd & Hd').
    exists v1. repeat split; try assumption.
    unfold loop. rewrite ieee_loop_unfold by exact K. now rewrite Hb. }
  split.
  { intros fuel v e K W Hk. unfold loop.
    rewrite ieee_loop_unfold by exact K.
    now rewrite (ieee_body_raise rnd target_delta nx L x dx cfx v e W Hk). }
  split.
  { intros fuel v v' H.
    destruct (ieee_loop_exit_kinds rnd target_delta nx L x dx cfx fuel v v' H)
      as [[-> K]|[(K & _)|[_ W]]]; [now left | now left | now right]. }
  intros e. split; [apply outside_special|]. split.
  - intros Hn. split; [now apply outside_special|]. now rewrite Hn.
  - intros r Hr. now apply outside_finite.
Qed.

(** A run of the loop on the grid [x = (-2, -1, 0, 1)] ([nx = 4], [L = 2],
    [dx = 1]) with the composed density [(1, 1, 1, 1)] and
    [target_delta = 0]. *)
Lemma exp_neg1_bounds : / 3 <= exp (- 1) <= / 2.
Proof.
  replace (- 1) with (- (1)) by lra.
  rewrite exp_Ropp. pose proof exp_le_3. pose proof (exp_ineq1_le 1).
  split; apply Rinv_le_contravar; lra.
Qed.

Lemma tail_ones (e : R) :
  tail_delta (grid 4 2) 1 [C1; C1; C1; C1] (RtoC e) 2 = RtoC (1 - exp (e - 1))
  /\ tail_derivative (grid 4 2) 1 [C1; C1; C1; C1] (RtoC e) 2
     = RtoC (- exp (e - 1)).
Proof.
  unfold tail_delta, tail_derivative, exp_e_of, dexp_e_of, grid.
  change (Z.to_nat 4) with 4%nat.
  cbn [seq map map2 combine fst snd]. rewrite !slice_last_of_four.
  unfold Csum, C0, C1. cbn [fold_left INR].
  rewrite !Csub_real, !Cexp_real, !Csub_real, Cneg_real, !Cmul_real,
    !Cadd_real, !Cmul_real.
  replace (e - (- (2) + (1 + 1 + 1) * (2 * 2 / 4))) with (e - 1) by lra.
  split; f_equal; ring.
Qed.

Lemma tail_empty (x : list C) (dx : R) (cfx : list C) (e : C) (k : Z) :
  (Z.of_nat (length x) <= k + 1)%Z ->
  tail_delta x dx cfx e k = C0 /\ tail_derivative x dx cfx e k = C0.
Proof.
  intros Hk. unfold tail_delta, tail_derivative.
  rewrite !slice_from_all.
  - split; apply C_eq; cbn; ring.
  - rewrite length_map2. unfold dexp_e_of. rewrite length_map. lia.
  - rewrite length_map2. unfold exp_e_of. rewrite length_map. lia.
Qed.

Lemma quotient_exact nx L r :
  2 * L <> 0 ->
  IEEE.quotient (fun y => y) nx L (XFin r)
  = XFin (IZR nx * (L + r) / (2 * L)).
Proof.
  intros HL. unfold IEEE.quotient. cbn [xadd xmul IEEE.xrnd].
  now rewrite xdiv_fin.
Qed.

Lemma newton_solver_iteration_witness :
  let x := grid 4 2 in
  let cfx := map fin [C1; C1; C1; C1] in
  let v0 := IEEE.initial_vars x 1 cfx 2 in
  IEEE.keep_going 0 v0 = true
  /\ IEEE.newton_step 0 v0 = fin (RtoC (exp 1 - 1))
  /\ IEEE.out_of_window 2 (IEEE.newton_step 0 v0) = false
  /\ exists v1,
       IEEE.newton_loop (fun y => y) 0 4 2 x 1 cfx 2 v0 = IEEE.Stopped v1
       /\ IEEE.eps_0 v1 = fin (RtoC (exp 1 - 1))
       /\ IEEE.delta_temp v1 = fin C0
       /\ IEEE.keep_going 0 v1 = false.
Proof.
  intros x cfx v0.
  destruct (newton_solver_iteration (fun y => y) 0 4 2 x 1 cfx)
    as (_ & _ & Htest & _ & Hstop & Hstep & _ & _ & Hcont & _ & _ & Hwin).
  pose proof exp_neg1_bounds as [HE1 HE2].
  pose proof exp_le_3 as He3. pose proof (exp_ineq1_le 1) as He2.
  assert (HE : exp (- 1) = / exp 1).
  { replace (- 1) with (- (1)) by lra. apply exp_Ropp. }
  destruct (tail_fin x 1 [C1; C1; C1; C1] C0 2) as [Hd0 Hd0'].
  destruct (tail_ones 0) as [Ht0 Ht0'].
  change (RtoC 0) with C0 in Ht0, Ht0'. fold x in Ht0, Ht0'.
  rewrite Ht0 in Hd0. rewrite Ht0' in Hd0'.
  replace (0 - 1) with (- 1) in Hd0, Hd0' by ring.
  change (IEEE.tail_delta x 1 (map fin [C1; C1; C1; C1]) (fin C0) 2)
    with (IEEE.delta_temp v0) in Hd0.
  change (IEEE.tail_derivative x 1 (map fin [C1; C1; C1; C1]) (fin C0) 2)
    with (IEEE.derivative v0) in Hd0'.
  assert (K0 : IEEE.keep_going 0 v0 = true).
  { apply (Htest v0 _ Hd0). cbn [Re Im RtoC].
    replace ((1 - exp (- 1) - 0) * (1 - exp (- 1) - 0) + (0 - 0) * (0 - 0))
      with ((1 - exp (- 1)) * (1 - exp (- 1))) by ring.
    rewrite sqrt_square by lra.
    pose proof tol_newton_pos. unfold tol_newton in *.
    assert (/ 10 ^ 10 <= / 10).
    { apply Rinv_le_contravar; [lra|]. cbn. lra. }
    lra. }
  assert (Hs : IEEE.newton_step 0 v0 = fin (RtoC (exp 1 - 1))).
  { rewrite (Hstep v0 C0 _ _ eq_refl Hd0 Hd0').
    - unfold C0. rewrite !Csub_real, Cdiv_real, Csub_real by lra.
      do 2 f_equal. rewrite HE. field. lra.
    - intros H. apply (f_equal Re) in H. cbn in H. lra. }
  assert (W : IEEE.out_of_window 2 (IEEE.newton_step 0 v0) = false).
  { rewrite Hs.
    destruct (IEEE.out_of_window 2 (fin (RtoC (exp 1 - 1)))) eqn:W;
      [|reflexivity].
    destruct (Hwin (fin (RtoC (exp 1 - 1)))) as (_ & _ & Hf).
    destruct (Hf (exp 1 - 1) eq_refl) as (_ & _ & Hr).
    apply (proj1 (Hr eq_refl)) in W. lra. }
  split; [exact K0|]. split; [exact Hs|]. split; [exact W|].
  set (kk := Zfloor (4 * (2 + (exp 1 - 1)) / (2 * 2))).
  assert (Hk : int_floor (IEEE.quotient (fun y => y) 4 2
                            (xRe (IEEE.newton_step 0 v0))) = Ok kk).
  { rewrite Hs. cbn [fin xRe Re RtoC]. rewrite quotient_exact by lra.
    reflexivity. }
  assert (Hkk : (3 <= kk)%Z).
  { apply Zfloor_lub. lra. }
  destruct (Hcont 1%nat v0 kk K0 W Hk) as (v1 & He1 & Hd1 & _ & Hl).
  exists v1.
  rewrite Hs in He1, Hd1.
  rewrite (proj1 (tail_fin x 1 [C1; C1; C1; C1] _ kk)) in Hd1.
  assert (Hlx : (Z.of_nat (length x) <= kk + 1)%Z).
  { unfold x. rewrite length_grid. cbn. lia. }
  rewrite (proj1 (tail_empty x 1 [C1; C1; C1; C1] _ kk Hlx)) in Hd1.
  assert (K1 : IEEE.keep_going 0 v1 = false).
  { destruct (IEEE.keep_going 0 v1) eqn:K1; [|reflexivity].
    apply (Htest v1 _ Hd1) in K1. cbn [Re Im C0 RtoC] in K1.
    replace ((0 - 0) * (0 - 0) + (0 - 0) * (0 - 0)) with 0 in K1 by ring.
    rewrite sqrt_0 in K1. pose proof tol_newton_pos. unfold tol_newton in *.
    lra. }
  split.
  { rewrite Hl. apply (Hstop 1%nat v1 K1). }
  split; [exact He1|]. split; [exact Hd1 | exact K1].
Defined.

(** C1 as stated fails when [delta_temp] is NaN.  On the grid
    [x = (-2, -1, 0, 1)] with a composed density whose last entry is NaN (as
    an overflow in the composition leaves it), the sums of lines 71-78 give
    a NaN [delta_temp]; the test of line 83 is false on it, so the loop is
    left at once, although the residual is not at most [1e-10] and the
    iterate [eps_0 = 0] is inside the window, and the entry point returns
    [0] with the success line. *)
Lemma nan_residual_leaves_loop :
  let x := grid 4 2 in
  let cfx := [fin C0; fin C0; fin C0; mkX XNaN XNaN] in
  let v0 := IEEE.initial_vars x 1 cfx 2 in
  IEEE.delta_temp v0 = mkX XNaN XNaN
  /\ IEEE.residual (1 / 1000000) v0 = XNaN
  /\ xleb (IEEE.residual (1 / 1000000) v0) (XFin (/ 10 ^ 10)) = false
  /\ IEEE.out_of_window 2 (IEEE.eps_0 v0) = false
  /\ IEEE.newton_loop (fun y => y) (1 / 1000000) 4 2 x 1 cfx 5 v0
     = IEEE.Stopped v0
  /\ IEEE.run_newton (fun y => y) (1 / 1000000) 1 4 2 RemoveAdd 5 x 1 cfx v0
     = IEEE.Returned (XFin 0)
         [IEEE.MsgEpsilon RemoveAdd (py_int 1) (XFin 0) (1 / 1000000)].
Proof.
  intros x cfx v0.
  assert (Hd : IEEE.delta_temp v0 = mkX XNaN XNaN) by reflexivity.
  assert (Hr : IEEE.residual (1 / 1000000) v0 = XNaN).
  { unfold IEEE.residual. rewrite Hd. reflexivity. }
  assert (K : IEEE.keep_going (1 / 1000000) v0 = false).
  { unfold IEEE.keep_going. rewrite Hr. reflexivity. }
  assert (W : IEEE.out_of_window 2 (IEEE.eps_0 v0) = false).
  { destruct (IEEE.out_of_window 2 (IEEE.eps_0 v0)) eqn:W; [|reflexivity].
    apply (proj2 (proj2 (outside_finite 2 (fin C0) 0 eq_refl)) eq_refl) in W.
    lra. }
  assert (Hl : IEEE.newton_loop (fun y => y) (1 / 1000000) 4 2 x 1 cfx 5 v0
               = IEEE.Stopped v0) by (now apply ieee_loop_stop).
  split; [exact Hd|]. split; [exact Hr|]. split; [now rewrite Hr|].
  split; [exact W|]. split; [exact Hl|].
  unfold IEEE.run_newton. rewrite Hl.
  change (IEEE.eps_0 v0) with (fin C0).
  pose proof (report_cases (1 / 1000000) 1 2 RemoveAdd (fin C0)) as H.
  cbn [fin xRe Re C0 RtoC] in H. apply (proj2 H). lra.
Qed.

(** ** The exit of the entry points, with special values *)

(** C2, as the code has it.  When no statement raises and the loop is
    left, with the final iterate [eps_0], the entry point returns (with
    that much fuel or more) and prints one line.  The real part of the
    final iterate is a number or an infinity, never NaN.  If it is outside
    [-L, L], which includes the infinite iterate that a zero derivative
    produces, the value returned is [+infinity] and the line is the error
    line; otherwise the value returned is that real part, a finite number
    in [-L, L], and the line is the success line.  So [+infinity] is
    returned exactly in the first case. *)
Theorem exit_reports_window
  (rnd : R -> R) (rel : relation) (target_delta ncomp : R) (nx : Z) (L : R)
  (fuel : nat) (x : list C) (dx : R) (cfx : list xC) (v v' : IEEE.vars) :
  xRe (IEEE.eps_0 v) <> XNaN ->
  IEEE.newton_loop rnd target_delta nx L x dx cfx fuel v = IEEE.Stopped v' ->
  let e := xRe (IEEE.eps_0 v') in
  e <> XNaN
  /\ exists r m,
       (forall fuel', (fuel <= fuel')%nat ->
          IEEE.run_newton rnd target_delta ncomp nx L rel fuel' x dx cfx v
          = IEEE.Returned r [m])
       /\ (forall sigma q cfx0 v0 fuel',
             prepare sigma q ncomp nx L rel = Ok (x, dx, cfx0, v0) ->
             cfx = map fin cfx0 ->
             v = IEEE.initial_vars x dx cfx (IEEE.initial_index rnd nx L) ->
             (fuel <= fuel')%nat ->
             IEEE.get_epsilon rnd target_delta sigma q ncomp nx L rel fuel'
             = IEEE.Returned r [m])
       /\ (((xisinf e = true \/ exists t, e = XFin t /\ (t < - L \/ L < t))
            /\ r = XPInf /\ m = IEEE.MsgOutOfWindow)
           \/ (exists t,
                 e = XFin t /\ - L <= t <= L /\ r = XFin t
                 /\ m = IEEE.MsgEpsilon rel (py_int ncomp) (XFin t)
                          target_delta)).
Proof.
  intros H0 Hl e.
  assert (Hn : e <> XNaN)
    by (exact (ieee_exit_not_nan rnd target_delta nx L x dx cfx fuel v v' Hl H0)).
  split; [exact Hn|].
  assert (Hrun : forall fuel', (fuel <= fuel')%nat ->
            IEEE.run_newton rnd target_delta ncomp nx L rel fuel' x dx cfx v
            = IEEE.report target_delta ncomp L rel (IEEE.eps_0 v')).
  { intros fuel' Hle. unfold IEEE.run_newton.
    rewrite (ieee_loop_more_fuel rnd target_delta nx L x dx cfx fuel fuel' v Hle)
      by (rewrite Hl; discriminate).
    now rewrite Hl. }
  assert (Hentry : forall sigma q cfx0 v0 fuel',
            prepare sigma q ncomp nx L rel = Ok (x, dx, cfx0, v0) ->
            cfx = map fin cfx0 ->
            v = IEEE.initial_vars x dx cfx (IEEE.initial_index rnd nx L) ->
            (fuel <= fuel')%nat ->
            IEEE.get_epsilon rnd target_delta sigma q ncomp nx L rel fuel'
            = IEEE.report target_delta ncomp L rel (IEEE.eps_0 v')).
  { intros sigma q cfx0 v0 fuel' Hp Hc Hv Hle.
    rewrite <- (Hrun fuel' Hle). subst cfx v.
    destruct rel; cbn [prepare IEEE.get_epsilon] in *;
      unfold IEEE.get_epsilon_unbounded, IEEE.get_epsilon_bounded;
      now rewrite Hp. }
  pose proof (report_cases target_delta ncomp L rel (IEEE.eps_0 v')) as Hrep.
  fold e in Hrep.
  destruct e as [t| | |] eqn:He.
  - destruct Hrep as [Hout Hin].
    destruct (Rlt_dec t (- L)) as [H1|H1];
      [|destruct (Rlt_dec L t) as [H2|H2]].
    + exists XPInf, IEEE.MsgOutOfWindow.
      split; [intros; rewrite Hrun, Hout by auto; reflexivity|].
      split; [intros; erewrite Hentry, Hout by eauto; reflexivity|].
      left. split; [right; exists t; auto | auto].
    + exists XPInf, IEEE.MsgOutOfWindow.
      split; [intros; rewrite Hrun, Hout by auto; reflexivity|].
      split; [intros; erewrite Hentry, Hout by eauto; reflexivity|].
      left. split; [right; exists t; auto | auto].
    + assert (Ht : - L <= t <= L) by lra.
      exists (XFin t), (IEEE.MsgEpsilon rel (py_int ncomp) (XFin t) target_delta).
      split; [intros; rewrite Hrun, Hin by auto; reflexivity|].
      split; [intros; erewrite Hentry, Hin by eauto; reflexivity|].
      right. exists t. auto.
  - exists XPInf, IEEE.MsgOutOfWindow.
    split; [intros; rewrite Hrun, Hrep by auto; reflexivity|].
    split; [intros; erewrite Hentry, Hrep by eauto; reflexivity|].
    left. split; [left; reflexivity | auto].
  - exists XPInf, IEEE.MsgOutOfWindow.
    split; [intros; rewrite Hrun, Hrep by auto; reflexivity|].
    split; [intros; erewrite Hentry, Hrep by eauto; reflexivity|].
    left. split; [left; reflexivity | auto].
  - now elim Hn.
Qed.

(** On a grid of two points the sums of lines 71-78 are empty:
    [delta_temp] and [derivative] are zero when the loop is entered. *)
Lemma initial_index_exact nx L :
  Z.even nx = true -> L <> 0 ->
  IEEE.initial_index (fun y => y) nx L = (nx / 2)%Z.
Proof. intros Hev HL. unfold IEEE.initial_index. now apply half_index. Qed.

Lemma two_point_entry (x : list C) (dx : R) (cfx : list C) :
  length x = 2%nat ->
  let v0 := IEEE.initial_vars x dx (map fin cfx) 1 in
  IEEE.eps_0 v0 = fin C0
  /\ IEEE.delta_temp v0 = fin C0 /\ IEEE.derivative v0 = fin C0.
Proof.
  intros Hx v0. split; [reflexivity|].
  destruct (tail_fin x dx cfx C0 1) as [Hd Hd'].
  destruct (tail_empty x dx cfx C0 1) as [E E']; [rewrite Hx; cbn; lia|].
  rewrite E in Hd. rewrite E' in Hd'. split; assumption.
Qed.

(** With two grid points and a target above the tolerance, the derivative
    is zero when the loop is entered: the first Newton step divides by
    zero, the new iterate has the real part [+infinity], and the loop is
    left by [break]. *)
Lemma two_point_break rnd (target_delta : R) (nx : Z) (L : R)
  (x : list C) (dx : R) (cfx : list C) (fuel : nat) :
  length x = 2%nat -> / 10 ^ 10 < target_delta ->
  let w0 := IEEE.initial_vars x dx (map fin cfx) 1 in
  exists v',
    IEEE.newton_loop rnd target_delta nx L x dx (map fin cfx) (S fuel) w0
    = IEEE.Stopped v'
    /\ xRe (IEEE.eps_0 v') = XPInf
    /\ IEEE.keep_going target_delta v' = true.
Proof.
  intros Hx Ht w0.
  destruct (two_point_entry x dx cfx Hx) as (He0 & Hd0 & Hg0).
  fold w0 in He0, Hd0, Hg0.
  pose proof tol_newton_pos as Htol. unfold tol_newton in Htol.
  assert (K : IEEE.keep_going target_delta w0 = true).
  { rewrite (going_fin _ _ _ Hd0). apply Rltb_true.
    unfold Cabs. cbn [Re Im Csub C0 RtoC].
    replace ((0 - target_delta) * (0 - target_delta) + (0 - 0) * (0 - 0))
      with (target_delta * target_delta) by ring.
    rewrite sqrt_square by lra. exact Ht. }
  assert (Hs : xRe (IEEE.newton_step target_delta w0) = XPInf).
  { rewrite (step_zero_derivative _ _ _ _ He0 Hd0 Hg0).
    cbn [xRe Re C0 RtoC]. rewrite xdiv_zero.
    assert (Reqb (0 - target_delta) 0 = false) as ->
      by (apply Reqb_false; lra).
    assert (Rltb 0 (0 - target_delta) = false) as ->
      by (apply Rltb_false; lra).
    reflexivity. }
  assert (W : IEEE.out_of_window L (IEEE.newton_step target_delta w0) = true).
  { apply outside_special. now rewrite Hs. }
  eexists. split; [|split].
  - rewrite ieee_loop_unfold by exact K.
    now rewrite ieee_body_break by exact W.
  - exact Hs.
  - exact K.
Qed.

(** A run with one full iteration: on the grid [x = (-2, -1, 0, 1)] with
    the composed density [(1, 1, 1, 1)] and [target_delta = 0] the first
    Newton step leads to [exp 1 - 1], inside the window; the sums are
    evaluated again, [delta_temp] is zero there, and the loop is left by
    its test. *)
Lemma four_point_run :
  let x := grid 4 2 in
  let cfx := map fin [C1; C1; C1; C1] in
  let v0 := IEEE.initial_vars x 1 cfx 2 in
  exists v1,
    IEEE.newton_loop (fun y => y) 0 4 2 x 1 cfx 2 v0 = IEEE.Stopped v1
    /\ IEEE.eps_0 v1 = fin (RtoC (exp 1 - 1))
    /\ IEEE.keep_going 0 v1 = false.
Proof.
  intros x cfx v0.
  pose proof exp_neg1_bounds as [HE1 HE2].
  pose proof exp_le_3 as He3. pose proof (exp_ineq1_le 1) as He2.
  assert (HE : exp (- 1) = / exp 1).
  { replace (- 1) with (- (1)) by lra. apply exp_Ropp. }
  destruct (tail_fin x 1 [C1; C1; C1; C1] C0 2) as [Hd0 Hd0'].
  destruct (tail_ones 0) as [Ht0 Ht0'].
  change (RtoC 0) with C0 in Ht0, Ht0'. fold x in Ht0, Ht0'.
  rewrite Ht0 in Hd0. rewrite Ht0' in Hd0'.
  replace (0 - 1) with (- 1) in Hd0, Hd0' by ring.
  change (IEEE.tail_delta x 1 (map fin [C1; C1; C1; C1]) (fin C0) 2)
    with (IEEE.delta_temp v0) in Hd0.
  change (IEEE.tail_derivative x 1 (map fin [C1; C1; C1; C1]) (fin C0) 2)
    with (IEEE.derivative v0) in Hd0'.
  pose proof tol_newton_pos as Htol. unfold tol_newton in Htol.
  assert (K0 : IEEE.keep_going 0 v0 = true).
  { rewrite (going_fin _ _ _ Hd0). apply Rltb_true.
    unfold Cabs. cbn [Re Im Csub RtoC].
    replace ((1 - exp (- 1) - 0) * (1 - exp (- 1) - 0) + (0 - 0) * (0 - 0))
      with ((1 - exp (- 1)) * (1 - exp (- 1))) by ring.
    rewrite sqrt_square by lra.
    assert (/ 10 ^ 10 <= / 10).
    { apply Rinv_le_contravar; [lra|]. cbn. lra. }
    lra. }
  assert (Hs : IEEE.newton_step 0 v0 = fin (RtoC (exp 1 - 1))).
  { rewrite (step_fin 0 v0 C0 _ _ eq_refl Hd0 Hd0').
    - unfold C0. rewrite !Csub_real, Cdiv_real, Csub_real by lra.
      do 2 f_equal. rewrite HE. field. lra.
    - intros H. apply (f_equal Re) in H. cbn in H. lra. }
  assert (W : IEEE.out_of_window 2 (IEEE.newton_step 0 v0) = false).
  { rewrite Hs.
    destruct (IEEE.out_of_window 2 (fin (RtoC (exp 1 - 1)))) eqn:W;
      [|reflexivity].
    destruct (outside_finite 2 (fin (RtoC (exp 1 - 1))) (exp 1 - 1) eq_refl)
      as (_ & _ & Hr).
    apply (proj1 (Hr eq_refl)) in W. lra. }
  set (kk := Zfloor (4 * (2 + (exp 1 - 1)) / (2 * 2))).
  assert (Hk : int_floor (IEEE.quotient (fun y => y) 4 2
                            (xRe (IEEE.newton_step 0 v0))) = Ok kk).
  { rewrite Hs. cbn [fin xRe Re RtoC]. rewrite quotient_exact by lra.
    reflexivity. }
  assert (Hkk : (3 <= kk)%Z).
  { apply Zfloor_lub. lra. }
  destruct (ieee_body_continue (fun y => y) 0 4 2 x 1 cfx v0 kk W Hk)
    as (v1 & Hb & He1 & Hd1 & _).
  exists v1.
  rewrite Hs in He1, Hd1.
  rewrite (proj1 (tail_fin x 1 [C1; C1; C1; C1] _ kk)) in Hd1.
  assert (Hlx : (Z.of_nat (length x) <= kk + 1)%Z).
  { unfold x. rewrite length_grid. cbn. lia. }
  rewrite (proj1 (tail_empty x 1 [C1; C1; C1; C1] _ kk Hlx)) in Hd1.
  assert (K1 : IEEE.keep_going 0 v1 = false).
  { rewrite (going_fin _ _ _ Hd1). apply Rltb_false.
    unfold Cabs. cbn [Re Im Csub C0 RtoC].
    replace ((0 - 0) * (0 - 0) + (0 - 0) * (0 - 0)) with 0 by ring.
    rewrite sqrt_0. lra. }
  split; [|split; [exact He1 | exact K1]].
  rewrite ieee_loop_unfold by exact K0. rewrite Hb.
  now apply ieee_loop_stop.
Qed.

Lemma tol_below_millionth : / 10 ^ 10 < 1 / 1000000.
Proof. cbn [pow]. lra. Qed.

Lemma exit_reports_window_witness :
  (exists cfx0 v0 v',
     prepare 2 (1 / 2) 1 2 1 RemoveAdd = Ok (grid 2 1, 2 * 1 / 2, cfx0, v0)
     /\ IEEE.newton_loop (fun y => y) (1 / 1000000) 2 1 (grid 2 1) (2 * 1 / 2)
          (map fin cfx0) 1
          (IEEE.initial_vars (grid 2 1) (2 * 1 / 2) (map fin cfx0)
             (IEEE.initial_index (fun y => y) 2 1))
        = IEEE.Stopped v'
     /\ xRe (IEEE.eps_0 v') = XPInf
     /\ forall fuel', (1 <= fuel')%nat ->
          IEEE.get_epsilon (fun y => y) (1 / 1000000) 2 (1 / 2) 1 2 1
            RemoveAdd fuel'
          = IEEE.Returned XPInf [IEEE.MsgOutOfWindow])
  /\ (forall fuel', (2 <= fuel')%nat ->
        IEEE.run_newton (fun y => y) 0 1 4 2 RemoveAdd fuel' (grid 4 2) 1
          (map fin [C1; C1; C1; C1])
          (IEEE.initial_vars (grid 4 2) 1 (map fin [C1; C1; C1; C1]) 2)
        = IEEE.Returned (XFin (exp 1 - 1))
            [IEEE.MsgEpsilon RemoveAdd (py_int 1) (XFin (exp 1 - 1)) 0]).
Proof.
  split.
  2:{ destruct four_point_run as (v1 & Hl & He1 & _). cbv zeta in Hl.
      set (w0 := IEEE.initial_vars (grid 4 2) 1 (map fin [C1; C1; C1; C1]) 2)
        in *.
      assert (Hnan : xRe (IEEE.eps_0 w0) <> XNaN) by discriminate.
      pose proof exp_le_3 as He3. pose proof (exp_ineq1_le 1) as He2.
      destruct (exit_reports_window (fun y => y) RemoveAdd 0 1 4 2 2
                  (grid 4 2) 1 (map fin [C1; C1; C1; C1]) w0 v1 Hnan Hl)
        as (_ & r & m & Hrun & _ & Hcase).
      rewrite He1 in Hcase. cbn [fin xRe Re RtoC] in Hcase.
      destruct Hcase as [([Hi | (t & Ht & Hout)] & _)|(t & Ht & _ & -> & ->)].
      - discriminate.
      - injection Ht as <-. exfalso. lra.
      - injection Ht as <-. exact Hrun. }
  pose proof (prepare_unbounded_ok 2 (1 / 2) 1 2 1 eq_refl eq_refl
                R1_neq_R0 ltac:(lra)) as Hp.
  cbv zeta in Hp.
  change (prepare_unbounded 2 (1 / 2) 1 2 1)
    with (prepare 2 (1 / 2) 1 2 1 RemoveAdd) in Hp.
  match type of Hp with
  | _ = Ok (_, _, ?c, ?v) => set (cfx0 := c) in *; set (v0 := v) in *
  end.
  rewrite (initial_index_exact 2 1 eq_refl R1_neq_R0).
  change (2 / 2)%Z with 1%Z.
  set (w0 := IEEE.initial_vars (grid 2 1) (2 * 1 / 2) (map fin cfx0) 1).
  destruct (two_point_break (fun y => y) (1 / 1000000) 2 1 (grid 2 1)
              (2 * 1 / 2) cfx0 0 eq_refl tol_below_millionth)
    as (v' & Hl & Hs & _).
  fold w0 in Hl.
  exists cfx0, v0, v'. split; [exact Hp|]. split; [exact Hl|].
  split; [exact Hs|].
  assert (Hnan : xRe (IEEE.eps_0 w0) <> XNaN) by discriminate.
  destruct (exit_reports_window (fun y => y) RemoveAdd (1 / 1000000) 1 2 1 1
              (grid 2 1) (2 * 1 / 2) (map fin cfx0) w0 v' Hnan Hl)
    as (_ & r & m & _ & Hentry & [(_ & -> & ->)|(t & Ht & _)]).
  - intros fuel' Hle.
    apply (Hentry 2 (1 / 2) cfx0 v0 fuel' Hp eq_refl); [|exact Hle].
    unfold w0. now rewrite (initial_index_exact 2 1 eq_refl R1_neq_R0).
  - rewrite Hs in Ht. discriminate.
Defined.

(** C2 as stated fails: not every input returns.  With the odd sample
    count [nx = 3] (and [sigma = 2], [q = 1/2], [ncomp = 1], [L = 1]) both
    entry points raise [ValueError] in the flip of line 51 resp. 165: no
    value is returned and no line is printed. *)
Lemma odd_sample_count_does_not_return :
  IEEE.get_epsilon (fun y => y) (1 / 1000000) 2 (1 / 2) 1 3 1 RemoveAdd 5
  = IEEE.Raised ValueError
  /\ IEEE.get_epsilon (fun y => y) (1 / 1000000) 2 (1 / 2) 1 3 1 Substitution 5
     = IEEE.Raised ValueError
  /\ get_epsilon (1 / 1000000) 2 (1 / 2) 1 3 1 RemoveAdd 5 = Raised ValueError
  /\ get_epsilon (1 / 1000000) 2 (1 / 2) 1 3 1 Substitution 5
     = Raised ValueError.
Proof.
  assert (H1 : prepare_unbounded 2 (1 / 2) 1 3 1 = Raise ValueError)
    by (apply prepare_unbounded_odd; try reflexivity; lra).
  assert (H2 : prepare_bounded 2 (1 / 2) 1 3 1 = Raise ValueError)
    by (apply prepare_bounded_odd; try reflexivity; lra).
  cbn [IEEE.get_epsilon get_epsilon].
  unfold IEEE.get_epsilon_unbounded, IEEE.get_epsilon_bounded,
    get_epsilon_unbounded, get_epsilon_bounded.
  rewrite H1, H2. repeat split.
Qed.

(** ** The exact model and the special values *)

(** On finite values the loop test, the Newton step with a nonzero
    derivative, the window test, the start index (without rounding) and the
    two sums of the loop with special values are those of the exact
    model. *)
Lemma exact_model_agrees
  (target_delta : R) (nx : Z) (L : R) (x : list C) (dx : R) (cfx : list C)
  (v : vars) (w : IEEE.vars) :
  IEEE.eps_0 w = fin (eps_0 v) ->
  IEEE.delta_temp w = fin (delta_temp v) ->
  IEEE.derivative w = fin (derivative v) ->
  IEEE.keep_going target_delta w = keep_going target_delta v
  /\ (derivative v <> C0 ->
      IEEE.newton_step target_delta w = fin (newton_step target_delta v))
  /\ (forall e, IEEE.out_of_window L (fin e) = out_of_window L e)
  /\ (forall e, L <> 0 ->
        int_floor (IEEE.quotient (fun y => y) nx L (XFin (Re e)))
        = Ok (start_index nx L e))
  /\ (forall e k,
        IEEE.tail_delta x dx (map fin cfx) (fin e) k
        = fin (tail_delta x dx cfx e k)
        /\ IEEE.tail_derivative x dx (map fin cfx) (fin e) k
           = fin (tail_derivative x dx cfx e k)).
Proof.
  intros He Hd Hg.
  split; [|split; [|split; [|split]]].
  - now rewrite (going_fin _ _ _ Hd).
  - intros Hnz. now apply step_fin.
  - intros e. reflexivity.
  - intros e HL. rewrite quotient_exact by lra. reflexivity.
  - intros e k. apply tail_fin.
Qed.

(** * Further properties of the two entry points *)

(** ** Which configurations reach the loop, and what the others raise *)

Lemma ln_zero_iff (y : R) : 0 < y -> (ln y = 0 <-> y = 1).
Proof.
  intros Hy. split.
  - intros H. destruct (Req_dec_T y 1) as [E|E]; [exact E|].
    exfalso. exact (ln_neq_0 y E Hy H).
  - intros ->. apply ln_1.
Qed.

Lemma linspace_neg start stop num :
  (num < 0)%Z -> linspace start stop num = Raise ValueError.
Proof.
  intros H. unfold linspace. destruct (Z.ltb_spec num 0); [reflexivity | lia].
Qed.

Lemma py_div_zero a : py_div a 0 = Raise ZeroDivisionError.
Proof. unfold py_div. now rewrite Reqb_refl. Qed.

(** X1.  The remove/add entry point reaches the Newton loop exactly on the
    configurations with an even positive [nx], a nonzero [L] and [q < 1];
    on every other configuration it raises, in the order of the statements:
    [ZeroDivisionError] for [nx = 0] (line 26), [ValueError] for a negative
    [nx] (line 27), [ValueError] for [q > 1] and [OverflowError] for [q = 1]
    (line 31, [int] of a NaN or of an infinity), for [L = 0] [ValueError]
    when [q = 0] and [OverflowError] otherwise (line 31), and [ValueError]
    for an odd [nx] (lines 51-52).  [sigma], [ncomp] and [target_delta]
    never make it raise. *)
Theorem unbounded_exception_table
  (target_delta sigma q ncomp : R) (nx : Z) (L : R) (fuel : nat) :
  let run := get_epsilon_unbounded target_delta sigma q ncomp nx L fuel in
  (nx = 0%Z -> run = Raised ZeroDivisionError)
  /\ ((nx < 0)%Z -> run = Raised ValueError)
  /\ ((0 < nx)%Z -> 1 < q -> run = Raised ValueError)
  /\ ((0 < nx)%Z -> q = 1 -> run = Raised OverflowError)
  /\ ((0 < nx)%Z -> q < 1 -> L = 0 ->
      run = Raised (if Reqb q 0 then ValueError else OverflowError))
  /\ ((0 < nx)%Z -> q < 1 -> L <> 0 -> Z.odd nx = true ->
      run = Raised ValueError)
  /\ ((exists st, prepare_unbounded sigma q ncomp nx L = Ok st)
      <-> (0 < nx)%Z /\ Z.even nx = true /\ L <> 0 /\ q < 1).
Proof.
  intros run. subst run. unfold get_epsilon_unbounded.
  assert (Hdx : (0 < nx)%Z -> IZR nx <> 0) by (intros; apply not_0_IZR; lia).
  split; [|split; [|split; [|split; [|split; [|split]]]]].
  - intros ->. unfold prepare_unbounded. now rewrite py_div_zero.
  - intros Hneg. unfold prepare_unbounded.
    rewrite py_div_ok by (apply not_0_IZR; lia). cbn [bind].
    now rewrite linspace_neg.
  - intros Hnx Hq. unfold prepare_unbounded.
    rewrite py_div_ok by auto. cbn [bind].
    rewrite linspace_grid by assumption. cbn [bind].
    unfold boundary_index.
    assert (Rltb (1 - q) 0 = true) as -> by (apply Rltb_true; lra).
    reflexivity.
  - intros Hnx ->. unfold prepare_unbounded.
    rewrite py_div_ok by auto. cbn [bind].
    rewrite linspace_grid by assumption. cbn [bind].
    unfold boundary_index.
    assert (Rltb (1 - 1) 0 = false) as -> by (apply Rltb_false; lra).
    assert (Reqb (1 - 1) 0 = true) as -> by (apply Reqb_true; lra).
    reflexivity.
  - intros Hnx Hq ->. unfold prepare_unbounded.
    rewrite py_div_ok by auto. cbn [bind].
    rewrite linspace_grid by assumption. cbn [bind].
    unfold boundary_index, np_floor_div.
    assert (Rltb (1 - q) 0 = false) as -> by (apply Rltb_false; lra).
    unfold Reqb at 1. destruct (Req_dec_T (1 - q) 0); [lra|].
    assert (Reqb (2 * 0) 0 = true) as -> by (apply Reqb_true; lra).
    unfold Reqb. destruct (Req_dec_T q 0) as [->|Hq0].
    + destruct (Req_dec_T (IZR nx * (0 + ln (1 - 0))) 0) as [_|Hn];
        [reflexivity|].
      exfalso. apply Hn. replace (1 - 0) with 1 by lra. rewrite ln_1. ring.
    + destruct (Req_dec_T (IZR nx * (0 + ln (1 - q))) 0) as [Hz|_];
        [|reflexivity].
      exfalso. apply Rmult_integral in Hz. destruct Hz as [Hz|Hz].
      * now apply (Hdx Hnx).
      * rewrite Rplus_0_l in Hz. apply ln_zero_iff in Hz; lra.
  - intros Hnx Hq HL Hodd. now rewrite prepare_unbounded_odd.
  - split.
    + intros [[[[x dx] cfx] v] Hp].
      pose proof (prepare_inv sigma q ncomp nx L RemoveAdd x dx cfx v Hp)
        as (Hnx & Hev & HL & _).
      repeat split; try assumption.
      destruct (Rlt_dec q 1) as [Hq|Hq]; [exact Hq|]. exfalso.
      cbn [prepare] in Hp. unfold prepare_unbounded in Hp.
      rewrite py_div_ok in Hp by auto. cbn [bind] in Hp.
      rewrite linspace_grid in Hp by assumption. cbn [bind] in Hp.
      unfold boundary_index in Hp.
      destruct (Rltb (1 - q) 0) eqn:H1; [discriminate|].
      apply Rltb_false in H1.
      assert (Reqb (1 - q) 0 = true) as E by (apply Reqb_true; lra).
      rewrite E in Hp. discriminate.
    + intros (Hnx & Hev & HL & Hq).
      pose proof (prepare_unbounded_ok sigma q ncomp nx L Hnx Hev HL Hq) as Hp.
      cbv zeta in Hp. eexists. exact Hp.
Qed.

Lemma unbounded_exception_table_witness :
  get_epsilon_unbounded (1 / 1000000) 2 1 10000 1000000 20 50
  = Raised OverflowError
  /\ get_epsilon_unbounded (1 / 1000000) 2 (1 / 100) 10000 999 20 50
     = Raised ValueError.
Proof.
  pose proof (unbounded_exception_table (1 / 1000000) 2 1 10000 1000000 20 50)
    as (_ & _ & _ & H1 & _).
  pose proof (unbounded_exception_table (1 / 1000000) 2 (1 / 100) 10000 999 20 50)
    as (_ & _ & _ & _ & _ & H2 & _).
  split.
  - exact (H1 eq_refl eq_refl).
  - exact (H2 eq_refl ltac:(lra) ltac:(lra) eq_refl).
Defined.

(** X2.  The substitution entry point reaches the Newton loop exactly on
    the configurations with an even positive [nx] and nonzero [sigma] and
    [L]; on every other configuration it raises, in the order of the
    statements: [ZeroDivisionError] for [nx = 0] (line 134), [ValueError]
    for a negative [nx] (line 135), [ZeroDivisionError] for [sigma = 0]
    (line 143), [ValueError] for an odd [nx] (lines 165-166) and
    [ZeroDivisionError] for [L = 0] (line 173).  [q], [ncomp] and
    [target_delta] never make it raise. *)
Theorem bounded_exception_table
  (target_delta sigma q ncomp : R) (nx : Z) (L : R) (fuel : nat) :
  let run := get_epsilon_bounded target_delta sigma q ncomp nx L fuel in
  (nx = 0%Z -> run = Raised ZeroDivisionError)
  /\ ((nx < 0)%Z -> run = Raised ValueError)
  /\ ((0 < nx)%Z -> sigma = 0 -> run = Raised ZeroDivisionError)
  /\ ((0 < nx)%Z -> sigma <> 0 -> Z.odd nx = true -> run = Raised ValueError)
  /\ ((0 < nx)%Z -> sigma <> 0 -> Z.even nx = true -> L = 0 ->
      run = Raised ZeroDivisionError)
  /\ ((exists st, prepare_bounded sigma q ncomp nx L = Ok st)
      <-> (0 < nx)%Z /\ Z.even nx = true /\ L <> 0 /\ sigma <> 0).
Proof.
  intros run. subst run. unfold get_epsilon_bounded.
  assert (Hdx : (0 < nx)%Z -> IZR nx <> 0) by (intros; apply not_0_IZR; lia).
  assert (Hs2 : sigma <> 0 -> 2 * sigma ^ 2 <> 0).
  { intros Hs. apply Rmult_integral_contrapositive_currified;
      [lra | now apply pow_nonzero]. }
  split; [|split; [|split; [|split; [|split]]]].
  - intros ->. unfold prepare_bounded. now rewrite py_div_zero.
  - intros Hneg. unfold prepare_bounded.
    rewrite py_div_ok by (apply not_0_IZR; lia). cbn [bind].
    now rewrite linspace_neg.
  - intros Hnx ->. unfold prepare_bounded, c_bounded.
    rewrite py_div_ok by auto. cbn [bind].
    rewrite linspace_grid by assumption. cbn [bind].
    replace (2 * 0 ^ 2) with 0 by ring. now rewrite py_div_zero.
  - intros Hnx Hs Hodd. now rewrite prepare_bounded_odd.
  - intros Hnx Hs Hev ->. unfold prepare_bounded, c_bounded.
    rewrite py_div_ok by auto. cbn [bind].
    rewrite linspace_grid by assumption. cbn [bind].
    rewrite py_div_ok by auto. cbn [bind].
    rewrite pld_bounded_ok by apply length_grid. cbn [bind].
    rewrite flip_even;
      [|rewrite length_map, length_grid; lia | assumption].
    cbn [bind]. replace (2 * 0) with 0 by ring. now rewrite py_div_zero.
  - split.
    + intros [[[[x dx] cfx] v] Hp].
      pose proof (prepare_inv sigma q ncomp nx L Substitution x dx cfx v Hp)
        as (Hnx & Hev & HL & _).
      repeat split; try assumption.
      intros ->. cbn [prepare] in Hp. unfold prepare_bounded, c_bounded in Hp.
      rewrite py_div_ok in Hp by auto. cbn [bind] in Hp.
      rewrite linspace_grid in Hp by assumption. cbn [bind] in Hp.
      replace (2 * 0 ^ 2) with 0 in Hp by ring.
      rewrite py_div_zero in Hp. discriminate.
    + intros (Hnx & Hev & HL & Hs).
      pose proof (prepare_bounded_ok sigma q ncomp nx L Hnx Hev HL Hs) as Hp.
      cbv zeta in Hp. eexists. exact Hp.
Qed.

Lemma bounded_exception_table_witness :
  get_epsilon_bounded (1 / 1000000) 0 (1 / 100) 10000 1000000 20 50
  = Raised ZeroDivisionError
  /\ get_epsilon_bounded (1 / 1000000) 2 (1 / 100) 10000 1000000 0 50
     = Raised ZeroDivisionError.
Proof.
  pose proof (bounded_exception_table (1 / 1000000) 0 (1 / 100) 10000 1000000 20 50)
    as (_ & _ & H1 & _).
  pose proof (bounded_exception_table (1 / 1000000) 2 (1 / 100) 10000 1000000 0 50)
    as (_ & _ & _ & _ & H2 & _).
  split.
  - exact (H1 eq_refl eq_refl).
  - exact (H2 eq_refl ltac:(lra) eq_refl eq_refl).
Defined.

(** ** The grid *)

(** X3.  On every run that reaches the loop, the grid of lines 26-27 has
    [nx] points [x_i = -L + i * dx] with [dx = 2 L / nx]: it starts at
    [-L], ends at [L - dx] (the point [L] itself is not on the grid), every
    point is real, and for a positive [L] it is strictly increasing.  The
    composed density has [nx] entries as well. *)
Theorem grid_of_entry_points
  (rel : relation) (sigma q ncomp : R) (nx : Z) (L : R)
  (x : list C) (dx : R) (cfx : list C) (v : vars) :
  prepare sigma q ncomp nx L rel = Ok (x, dx, cfx, v) ->
  dx = 2 * L / IZR nx
  /\ length x = Z.to_nat nx /\ length cfx = Z.to_nat nx
  /\ (forall i, (i < Z.to_nat nx)%nat -> nth i x C0 = RtoC (- L + INR i * dx))
  /\ nth 0 x C0 = RtoC (- L)
  /\ nth (Z.to_nat nx - 1) x C0 = RtoC (L - dx)
  /\ (0 < L -> forall i j, (i < j)%nat -> (j < Z.to_nat nx)%nat ->
        Re (nth i x C0) < Re (nth j x C0) /\ - L <= Re (nth i x C0)
        /\ Re (nth j x C0) < L).
Proof.
  intros Hp.
  apply prepare_inv in Hp as (Hnx & _ & HL & -> & -> & Hcfx & _).
  assert (Hn : 0 < IZR nx) by (apply IZR_lt; lia).
  split; [reflexivity|]. split; [apply length_grid|]. split; [exact Hcfx|].
  split; [intros i Hi; now apply nth_grid|]. split; [|split].
  - rewrite nth_grid by lia. cbn [INR]. f_equal. ring.
  - rewrite nth_grid by lia. f_equal.
    rewrite minus_INR by lia. rewrite INR_IZR_INZ, Z2Nat.id by lia.
    cbn [INR]. field. lra.
  - intros HLpos i j Hij Hj.
    rewrite !nth_grid by lia. cbn [Re RtoC].
    assert (Hd : 0 < 2 * L / IZR nx) by (apply Rdiv_lt_0_compat; lra).
    assert (Hi' : INR i < INR j) by now apply lt_INR.
    assert (Hi0 : 0 <= INR i) by apply pos_INR.
    assert (Hjn : INR j < IZR nx).
    { rewrite INR_IZR_INZ. apply IZR_lt. lia. }
    assert (Hfull : IZR nx * (2 * L / IZR nx) = 2 * L) by (field; lra).
    repeat split; nra.
Qed.

Lemma grid_of_entry_points_witness :
  exists x dx cfx v,
    prepare 2 (1 / 2) 3 4 1 Substitution = Ok (x, dx, cfx, v)
    /\ dx = 2 * 1 / 4
    /\ nth 0 x C0 = RtoC (- 1)
    /\ nth (Z.to_nat 4 - 1) x C0 = RtoC (1 - dx).
Proof.
  pose proof (prepare_bounded_ok 2 (1 / 2) 3 4 1 eq_refl eq_refl
                R1_neq_R0 ltac:(lra)) as Hp.
  cbv zeta in Hp.
  change (prepare_bounded 2 (1 / 2) 3 4 1)
    with (prepare 2 (1 / 2) 3 4 1 Substitution) in Hp.
  eexists _, _, _, _. split; [exact Hp|].
  pose proof (grid_of_entry_points Substitution 2 (1 / 2) 3 4 1 _ _ _ _ Hp)
    as (Hdx & _ & _ & _ & H0 & Hlast & _).
  split; [exact Hdx|]. split; [exact H0 | exact Hlast].
Defined.

(** ** The remove/add density array, for every boundary index *)





(** ** The tail integral at a real iterate *)

Lemma Csum_acc (l : list C) (z : C) :
  fold_left Cadd l z = (z + fold_left Cadd l C0)%C.
Proof.
  revert z. induction l as [|c l IH]; intros z; cbn [fold_left].
  - apply C_eq; cbn; lra.
  - rewrite IH, (IH (C0 + c)%C). apply C_eq; cbn; lra.
Qed.

Lemma Rsum_acc (l : list R) (r : R) :
  fold_left Rplus l r = r + fold_left Rplus l 0.
Proof.
  revert r. induction l as [|c l IH]; intros r; cbn [fold_left].
  - lra.
  - rewrite IH, (IH (0 + c)). lra.
Qed.

Lemma Csum_parts (l : list C) :
  Re (Csum l) = Rsum (map Re l) /\ Im (Csum l) = Rsum (map Im l).
Proof.
  unfold Csum, Rsum. induction l as [|c l [IHr IHi]]; cbn [fold_left map].
  - split; reflexivity.
  - rewrite Csum_acc, (Rsum_acc _ (0 + Re c)), (Rsum_acc _ (0 + Im c)).
    cbn [Re Im Cadd C0 RtoC]. rewrite IHr, IHi. split; lra.
Qed.

Lemma map_map2 {A B D E : Type} (g : D -> E) (f : A -> B -> D) a b :
  map g (map2 f a b) = map2 (fun u w => g (f u w)) a b.
Proof. unfold map2. now rewrite map_map. Qed.

Lemma map2_map_left {A A' B D : Type} (f : A' -> B -> D) (h : A -> A') a b :
  map2 f (map h a) b = map2 (fun u w => f (h u) w) a b.
Proof.
  unfold map2. revert b. induction a as [|u a IH]; intros [|w b];
    cbn; try reflexivity.
  f_equal. apply IH.
Qed.

Lemma map2_ext_in {A B D : Type} (f g : A -> B -> D) a b :
  (forall u, In u a -> forall w, f u w = g u w) ->
  map2 f a b = map2 g a b.
Proof.
  unfold map2. revert b. induction a as [|u a IH]; intros b H;
    [reflexivity|].
  destruct b as [|w b]; [reflexivity|]. cbn. f_equal.
  - apply H. now left.
  - apply IH. intros u' Hu'. apply H. now right.
Qed.

(** X6.  At a real iterate [e] and on a real grid, the real part of the
    [delta] that the code forms is the sum of the specification,
    [dx * sum_{i>k} (1 - exp (e - x_i)) * Re cfx_i], and its imaginary part
    is the same sum over [Im cfx_i]; likewise for the derivative with the
    factor [- exp (e - x_i)].  So a nonzero imaginary part of [delta] comes
    from the imaginary parts of the composed density only. *)
Theorem tail_integral_real_and_imaginary_parts
  (x : list C) (dx : R) (cfx : list C) (e : R) (k : Z) :
  (forall xi, In xi x -> Im xi = 0) ->
  let w := fun xi : C => 1 - exp (e - Re xi) in
  let w' := fun xi : C => - exp (e - Re xi) in
  Re (tail_delta x dx cfx (RtoC e) k)
  = dx * Rsum (slice_from (k + 1) (map2 (fun xi c => w xi * Re c) x cfx))
  /\ Im (tail_delta x dx cfx (RtoC e) k)
     = dx * Rsum (slice_from (k + 1) (map2 (fun xi c => w xi * Im c) x cfx))
  /\ Re (tail_derivative x dx cfx (RtoC e) k)
     = dx * Rsum (slice_from (k + 1) (map2 (fun xi c => w' xi * Re c) x cfx))
  /\ Im (tail_derivative x dx cfx (RtoC e) k)
     = dx * Rsum (slice_from (k + 1) (map2 (fun xi c => w' xi * Im c) x cfx)).
Proof.
  intros Hx w w'.
  assert (Hexp : forall xi, In xi x ->
            Cexp (RtoC e - xi) = RtoC (exp (e - Re xi))).
  { intros xi Hin. unfold Cexp. cbn [Re Im Csub RtoC].
    rewrite (Hx xi Hin). replace (0 - 0) with 0 by lra.
    rewrite cos_0, sin_0. apply C_eq; cbn; ring. }
  unfold tail_delta, tail_derivative, exp_e_of, dexp_e_of.
  cbn [Re Im Cmul RtoC].
  destruct (Csum_parts (slice_from (k + 1)
              (map2 Cmul (map (fun xi => (C1 - Cexp (RtoC e - xi))%C) x) cfx)))
    as [-> ->].
  destruct (Csum_parts (slice_from (k + 1)
              (map2 Cmul (map (fun xi => (- Cexp (RtoC e - xi))%C) x) cfx)))
    as [-> ->].
  rewrite !map_slice_from, !map_map2, !map2_map_left.
  assert (E1 : map2 (fun u c => Re ((C1 - Cexp (RtoC e - u)) * c)%C) x cfx
               = map2 (fun xi c => w xi * Re c) x cfx).
  { apply map2_ext_in. intros u Hu c. rewrite (Hexp u Hu).
    unfold w. cbn. ring. }
  assert (E2 : map2 (fun u c => Im ((C1 - Cexp (RtoC e - u)) * c)%C) x cfx
               = map2 (fun xi c => w xi * Im c) x cfx).
  { apply map2_ext_in. intros u Hu c. rewrite (Hexp u Hu).
    unfold w. cbn. ring. }
  assert (E3 : map2 (fun u c => Re ((- Cexp (RtoC e - u)) * c)%C) x cfx
               = map2 (fun xi c => w' xi * Re c) x cfx).
  { apply map2_ext_in. intros u Hu c. rewrite (Hexp u Hu).
    unfold w'. cbn. ring. }
  assert (E4 : map2 (fun u c => Im ((- Cexp (RtoC e - u)) * c)%C) x cfx
               = map2 (fun xi c => w' xi * Im c) x cfx).
  { apply map2_ext_in. intros u Hu c. rewrite (Hexp u Hu).
    unfold w'. cbn. ring. }
  rewrite E1, E2, E3, E4. repeat split; ring.
Qed.

Lemma tail_integral_real_and_imaginary_parts_witness :
  Re (tail_delta (grid 4 2) 1 [C0; C0; C0; mkC 0 1] (RtoC 0) 2)
  = 1 * Rsum (slice_from (2 + 1)
                (map2 (fun xi c => (1 - exp (0 - Re xi)) * Re c)
                      (grid 4 2) [C0; C0; C0; mkC 0 1])).
Proof.
  refine (proj1 (tail_integral_real_and_imaginary_parts
                   (grid 4 2) 1 [C0; C0; C0; mkC 0 1] 0 2 _)).
  intros xi Hin. unfold grid in Hin. apply in_map_iff in Hin.
  destruct Hin as (i & <- & _). reflexivity.
Defined.

(** X7.  On the grid of [nx > 0] points with [L > 0], an iterate whose
    real part is at least [L - dx] (at or beyond the last grid point)
    leaves no grid index above the start index: both sums are empty and
    [delta] and the derivative are exactly 0, whatever the composed
    density. *)
Theorem tail_integral_empty_at_right_end
  (nx : Z) (L dx : R) (cfx : list C) (e : C) :
  (0 < nx)%Z -> 0 < L -> L - 2 * L / IZR nx <= Re e ->
  (nx - 1 <= start_index nx L e)%Z
  /\ tail_delta (grid nx L) dx cfx e (start_index nx L e) = C0
  /\ tail_derivative (grid nx L) dx cfx e (start_index nx L e) = C0.
Proof.
  intros Hnx HL He.
  assert (Hn : 0 < IZR nx) by (apply IZR_lt; lia).
  assert (Hk : (nx - 1 <= start_index nx L e)%Z).
  { unfold start_index. apply Zfloor_lub. rewrite minus_IZR.
    apply Rmult_le_reg_r with (2 * L / IZR nx);
      [apply Rdiv_lt_0_compat; lra|].
    replace (IZR nx * (L + Re e) / (2 * L) * (2 * L / IZR nx))
      with (L + Re e) by (field; lra).
    replace ((IZR nx - 1) * (2 * L / IZR nx))
      with (2 * L - 2 * L / IZR nx) by (field; lra).
    lra. }
  split; [exact Hk|].
  unfold tail_delta, tail_derivative.
  rewrite !slice_from_all.
  - split; apply C_eq; cbn; ring.
  - rewrite length_map2. unfold dexp_e_of. rewrite length_map, length_grid. lia.
  - rewrite length_map2. unfold exp_e_of. rewrite length_map, length_grid. lia.
Qed.

Lemma tail_integral_empty_at_right_end_witness :
  tail_delta (grid 4 2) 1 [C1; C1; C1; C1] (RtoC 1) (start_index 4 2 (RtoC 1))
  = C0.
Proof.
  refine (proj1 (proj2 (tail_integral_empty_at_right_end
                          4 2 1 [C1; C1; C1; C1] (RtoC 1) eq_refl _ _))).
  - lra.
  - cbn. lra.
Defined.

(** ** Inside the loop *)

(** X9.  Inside the loop the slices never wrap: for an iterate that passes
    the window test (with [nx > 0] and [L > 0]) the start index [kk] of line
    97 lies between 0 and [nx], so [integrand[kk + 1:]] starts at the
    non-negative index [kk + 1] and is the part of the array after the
    first [kk + 1] entries. *)
Theorem loop_slices_do_not_wrap
  (nx : Z) (L : R) (e : C) (l : list C) :
  (0 < nx)%Z -> 0 < L -> out_of_window L e = false ->
  length l = Z.to_nat nx ->
  (0 <= start_index nx L e <= nx)%Z
  /\ slice_from (start_index nx L e + 1) l
     = skipn (Z.to_nat (start_index nx L e + 1)) l
  /\ length (slice_from (start_index nx L e + 1) l)
     = (Z.to_nat nx - Z.to_nat (start_index nx L e + 1))%nat.
Proof.
  intros Hnx HL W Hlen.
  assert (Hn : 0 < IZR nx) by (apply IZR_lt; lia).
  assert (Hlo : - L <= Re e).
  { apply Rnot_lt_le. intros Hc.
    assert (out_of_window L e = true) as E
      by (apply out_of_window_real; now left).
    rewrite E in W. discriminate. }
  assert (Hhi : Re e <= L).
  { apply Rnot_lt_le. intros Hc.
    assert (out_of_window L e = true) as E
      by (apply out_of_window_real; now right).
    rewrite E in W. discriminate. }
  assert (Hk0 : (0 <= start_index nx L e)%Z)
    by now apply start_index_nonneg.
  assert (Hk1 : (start_index nx L e <= nx)%Z).
  { unfold start_index. apply le_IZR.
    pose proof (Zfloor_bound (IZR nx * (L + Re e) / (2 * L))) as [Hb _].
    apply Rle_trans with (1 := Hb).
    apply Rmult_le_reg_r with (2 * L); [lra|].
    replace (IZR nx * (L + Re e) / (2 * L) * (2 * L))
      with (IZR nx * (L + Re e)) by (field; lra).
    nra. }
  split; [lia|].
  assert (Hs : slice_from (start_index nx L e + 1) l
               = skipn (Z.to_nat (start_index nx L e + 1)) l).
  { unfold slice_from. rewrite norm_index_nonneg by lia.
    destruct (Nat.le_gt_cases (length l) (Z.to_nat (start_index nx L e + 1))).
    - rewrite Nat.min_l by assumption. now rewrite !skipn_all2 by lia.
    - now rewrite Nat.min_r by lia. }
  split; [exact Hs|]. rewrite Hs, length_skipn, Hlen. reflexivity.
Qed.

Lemma loop_slices_do_not_wrap_witness :
  (0 <= start_index 4 2 C0 <= 4)%Z
  /\ slice_from (start_index 4 2 C0 + 1) [C1; C1; C1; C1]
     = skipn (Z.to_nat (start_index 4 2 C0 + 1)) [C1; C1; C1; C1]
  /\ length (slice_from (start_index 4 2 C0 + 1) [C1; C1; C1; C1])
     = (Z.to_nat 4 - Z.to_nat (start_index 4 2 C0 + 1))%nat.
Proof.
  refine (loop_slices_do_not_wrap 4 2 C0 [C1; C1; C1; C1]
            eq_refl _ _ eq_refl).
  - lra.
  - destruct (out_of_window 2 C0) eqn:W; [|reflexivity].
    apply out_of_window_of_real in W; [|reflexivity]. cbn in W. lra.
Defined.

(** X10.  Domain exhaustion.  From any state of the loop whose residual is
    above the tolerance, if the Newton step lands with its real part
    outside [-L, L], the loop is left at once (given at least one unit of
    fuel), without evaluating the sums at the new iterate, and the value
    returned is [+infinity] with the error line. *)
Theorem step_out_of_window_returns_infinity
  (rel : relation) (target_delta ncomp : R) (nx : Z) (L : R)
  (fuel : nat) (x : list C) (dx : R) (cfx : list C) (v : vars) :
  tol_newton < residual target_delta v ->
  Re (newton_step target_delta v) < - L \/ L < Re (newton_step target_delta v) ->
  run_newton target_delta ncomp nx L rel (S fuel) (x, dx, cfx, v)
  = Returned PlusInf [MsgOutOfWindow]
  /\ exists v',
       newton_loop target_delta nx L x dx cfx (S fuel) v = Some v'
       /\ eps_0 v' = newton_step target_delta v
       /\ delta_temp v' = delta_temp v /\ derivative v' = derivative v.
Proof.
  intros Hres Hout.
  assert (W : out_of_window L (newton_step target_delta v) = true)
    by now apply out_of_window_real.
  assert (Hl : newton_loop target_delta nx L x dx cfx (S fuel) v
               = Some (fst (newton_body target_delta nx L x dx cfx v))).
  { rewrite loop_unfold by assumption. now rewrite W. }
  split.
  - unfold run_newton. rewrite Hl, body_eps. unfold report.
    destruct Hout as [H|H]; apply (proj2 (Rltb_true _ _)) in H; rewrite H;
      [reflexivity | now rewrite orb_true_r].
  - eexists. split; [exact Hl|]. split; [apply body_eps|].
    unfold newton_body. rewrite W. split; reflexivity.
Qed.

Lemma step_out_of_window_returns_infinity_witness :
  run_newton 0 1 4 1 RemoveAdd 1
    ([], 1, [], mkVars C0 [] [] [] [] C0 C0 (RtoC 3) (RtoC (-1)))
  = Returned PlusInf [MsgOutOfWindow].
Proof.
  refine (proj1 (step_out_of_window_returns_infinity RemoveAdd 0 1 4 1 0
                   [] 1 [] (mkVars C0 [] [] [] [] C0 C0 (RtoC 3) (RtoC (-1)))
                   _ _)).
  - unfold residual, Cabs. cbn [delta_temp Re Im Csub RtoC].
    replace ((3 - 0) * (3 - 0) + (0 - 0) * (0 - 0)) with (3 * 3) by ring.
    rewrite sqrt_square by lra.
    pose proof tol_newton_pos. unfold tol_newton in *.
    assert (/ 10 ^ 10 <= 1).
    { rewrite <- Rinv_1. apply Rinv_le_contravar; [lra|].
      apply pow_R1_Rle. lra. }
    lra.
  - right. unfold newton_step. cbn. lra.
Defined.

(** ** The flip as a circular shift *)

(** X11.  The flip of lines 47-52 on an array of [nx] entries: for an odd
    [nx] it raises [ValueError] (one of the two slice assignments has a
    value of the wrong shape); for an even [nx] it returns an array of the
    same length whose entry [i] is the entry [(i + nx / 2) mod nx] of the
    argument, a circular shift by half the length. *)
Theorem flip_is_half_shift {A : Type} (nx : Z) (l : list A) (d : A) :
  Z.of_nat (length l) = nx ->
  (Z.odd nx = true -> flip nx l = Raise ValueError)
  /\ (Z.even nx = true ->
      exists l', flip nx l = Ok l'
        /\ length l' = length l
        /\ forall i, (i < length l)%nat ->
             nth i l' d = nth ((i + length l / 2) mod length l) l d).
Proof.
  intros Hlen. split; [now apply flip_odd|].
  intros Hev. exists (swap_halves l).
  split; [now apply flip_even|]. split; [apply swap_halves_length|].
  intros i Hi.
  assert (Hsub : (length l - length l / 2 = length l / 2)%nat)
    by (apply even_halves; now rewrite Hlen).
  set (h := (length l / 2)%nat) in *.
  assert (Hn : length l = (h + h)%nat) by lia.
  unfold swap_halves. fold h.
  destruct (Nat.lt_ge_cases i h) as [Hlt|Hge].
  - rewrite app_nth1 by (rewrite length_skipn; lia).
    rewrite nth_skipn. rewrite Nat.mod_small by lia.
    f_equal. lia.
  - rewrite app_nth2 by (rewrite length_skipn; lia).
    rewrite length_skipn, Hsub.
    rewrite nth_firstn.
    destruct (Nat.ltb_spec (i - h) h) as [_|Hc]; [|lia].
    f_equal.
    assert (E : (i + h = (i - h) + 1 * length l)%nat) by lia.
    rewrite E, Nat.Div0.mod_add. symmetry. apply Nat.mod_small. lia.
Qed.

Lemma flip_is_half_shift_witness :
  flip 3 [1; 2; 3]%Z = Raise ValueError
  /\ exists l', flip 4 [1; 2; 3; 4]%Z = Ok l'
       /\ length l' = length [1; 2; 3; 4]%Z
       /\ forall i, (i < length [1; 2; 3; 4]%Z)%nat ->
            nth i l' 0%Z
            = nth ((i + length [1; 2; 3; 4]%Z / 2) mod length [1; 2; 3; 4]%Z)
                  [1; 2; 3; 4]%Z 0%Z.
Proof.
  split.
  - exact (proj1 (flip_is_half_shift 3 [1; 2; 3]%Z 0%Z eq_refl) eq_refl).
  - exact (proj2 (flip_is_half_shift 4 [1; 2; 3; 4]%Z 0%Z eq_refl) eq_refl).
Defined.

(** ** The floor of line 146 bounds the inverse map *)

(** X12.  In the substitution variant, at a real grid point and with a
    nonzero [c], the value [Linvx] of line 147 is real and at least
    [sigma^2 * ln (1e-16)]: the floor of line 146 keeps the logarithm
    bounded below, however small (or negative) the root [term1] is. *)
Theorem substitution_inverse_bounded_below (sigma q c t : R) :
  c <> 0 ->
  exists l,
    Linvx_bounded sigma q c (Cexp (RtoC t)) = RtoC l
    /\ sigma ^ 2 * ln (/ 10 ^ 16) <= l.
Proof.
  intros Hc. unfold Linvx_bounded, term1_floored.
  rewrite Cexp_real.
  rewrite term1_bounded_real by (try assumption; left; apply exp_pos).
  assert (Hm : 0 < / 10 ^ 16) by (apply Rinv_0_lt_compat, pow_lt; lra).
  rewrite Cmaximum_real.
  match goal with |- context [Rmax ?r ?m] => set (r0 := r) end.
  assert (Hmax : / 10 ^ 16 <= Rmax r0 (/ 10 ^ 16)) by apply Rmax_r.
  rewrite Clog_real, Cmul_real by lra.
  eexists. split; [reflexivity|].
  apply Rmult_le_compat_l; [apply pow2_ge_0|].
  destruct Hmax as [Hlt|Heq].
  - left. apply ln_increasing; assumption.
  - right. now rewrite <- Heq.
Qed.

Lemma substitution_inverse_bounded_below_witness :
  exists l,
    Linvx_bounded 2 (1 / 100) 1 (Cexp (RtoC (-20))) = RtoC l
    /\ 2 ^ 2 * ln (/ 10 ^ 16) <= l.
Proof.
  exact (substitution_inverse_bounded_below 2 (1 / 100) 1 (-20) R1_neq_R0).
Defined.

(** ** Signs of the tail integral *)

Lemma Rsum_map_nonneg {A : Type} (h : A -> R) (l : list A) :
  (forall a, In a l -> 0 <= h a) -> 0 <= Rsum (map h l).
Proof.
  unfold Rsum. induction l as [|a l IH]; intros H; cbn [map fold_left].
  - lra.
  - rewrite Rsum_acc.
    assert (0 <= h a) by (apply H; now left).
    assert (0 <= fold_left Rplus (map h l) 0)
      by (apply IH; intros b Hb; apply H; now right).
    lra.
Qed.

Lemma Rsum_map_opp {A : Type} (h : A -> R) (l : list A) :
  - Rsum (map h l) = Rsum (map (fun a => - h a) l).
Proof.
  unfold Rsum. induction l as [|a l IH]; cbn [map fold_left].
  - lra.
  - rewrite (Rsum_acc _ (0 + h a)), (Rsum_acc _ (0 + - h a)), <- IH. lra.
Qed.

(** ** What the returned value means *)

(** X8.  What a returned value means, for [L > 0] and a loop entered with
    the sums of lines 71-78.  The value is never NaN and never [-infinity].
    A finite value is the real part of the final iterate, lies in [-L, L],
    and comes with the success line; then either the test of line 83 is
    false on the final variables (for a finite [delta_temp] the residual
    is at most [1e-10]; a NaN [delta_temp] also makes the test false), or
    the loop was left by [break] on an iterate with real part exactly [-L]
    or [L].  The value [+infinity] comes with the error line and is only
    returned after a [break], with the test of line 83 still true and the
    real part of the iterate infinite or outside [-L, L]. *)
Theorem returned_value_meaning
  (rnd : R -> R) (rel : relation) (target_delta ncomp : R) (nx : Z) (L : R)
  (fuel : nat) (x : list C) (dx : R) (cfx : list xC) (jj : Z)
  (r : xreal) (out : list IEEE.message) :
  0 < L ->
  IEEE.run_newton rnd target_delta ncomp nx L rel fuel x dx cfx
    (IEEE.initial_vars x dx cfx jj)
  = IEEE.Returned r out ->
  exists v',
    IEEE.newton_loop rnd target_delta nx L x dx cfx fuel
      (IEEE.initial_vars x dx cfx jj)
    = IEEE.Stopped v'
    /\ let e := IEEE.eps_0 v' in
       (exists t,
          r = XFin t /\ xRe e = XFin t /\ - L <= t <= L
          /\ out = [IEEE.MsgEpsilon rel (py_int ncomp) (XFin t) target_delta]
          /\ ((IEEE.keep_going target_delta v' = false
               /\ forall d, IEEE.delta_temp v' = fin d ->
                    Cabs (d - RtoC target_delta) <= / 10 ^ 10)
              \/ (IEEE.keep_going target_delta v' = true
                  /\ IEEE.out_of_window L e = true
                  /\ (t = - L \/ t = L))))
       \/ (r = XPInf /\ out = [IEEE.MsgOutOfWindow]
           /\ IEEE.keep_going target_delta v' = true
           /\ IEEE.out_of_window L e = true
           /\ (xisinf (xRe e) = true
               \/ exists t, xRe e = XFin t /\ (t < - L \/ L < t))).
Proof.
  intros HL Hret. unfold IEEE.run_newton in Hret.
  set (v0 := IEEE.initial_vars x dx cfx jj) in *.
  destruct (IEEE.newton_loop rnd target_delta nx L x dx cfx fuel v0)
    as [v'| |] eqn:Hl; try discriminate.
  exists v'. split; [reflexivity|]. cbv zeta.
  pose proof (report_cases target_delta ncomp L rel (IEEE.eps_0 v')) as Hrep.
  assert (Hconv : IEEE.keep_going target_delta v' = false ->
            forall d, IEEE.delta_temp v' = fin d ->
              Cabs (d - RtoC target_delta) <= / 10 ^ 10).
  { intros K d Hd. rewrite (going_fin _ _ _ Hd) in K.
    now apply Rltb_false in K. }
  destruct (ieee_loop_exit_kinds rnd target_delta nx L x dx cfx fuel v0 v' Hl)
    as [[-> K]|[(K & W & t & kk & Ht & _)|[K W]]].
  - (* no iteration *)
    change (xRe (IEEE.eps_0 v0)) with (XFin 0) in Hrep.
    destruct Hrep as [_ Hin]. rewrite Hin in Hret by lra.
    injection Hret as <- <-. left. exists 0.
    split; [reflexivity|]. split; [reflexivity|]. split; [lra|].
    split; [reflexivity|].
    left. split; [exact K | now apply Hconv].
  - (* an evaluation at the final iterate *)
    rewrite Ht in Hrep. destruct Hrep as [_ Hin].
    assert (Hwin : - L <= t <= L).
    { destruct (outside_finite L (IEEE.eps_0 v') t Ht) as (Hout & _).
      split; apply Rnot_lt_le; intros Hc;
        rewrite Hout in W by auto; discriminate. }
    rewrite Hin in Hret by exact Hwin. injection Hret as <- <-.
    left. exists t.
    split; [reflexivity|]. split; [exact Ht|]. split; [exact Hwin|].
    split; [reflexivity|].
    left. split; [exact K | now apply Hconv].
  - (* break *)
    destruct (xRe (IEEE.eps_0 v')) as [t| | |] eqn:Ht.
    + destruct Hrep as [Hout Hin].
      destruct (outside_finite L (IEEE.eps_0 v') t Ht) as (_ & Hb & _).
      specialize (Hb W).
      destruct (Rlt_dec t (- L)) as [H1|H1];
        [|destruct (Rlt_dec L t) as [H2|H2]].
      * rewrite Hout in Hret by auto. injection Hret as <- <-.
        right. split; [reflexivity|]. split; [reflexivity|].
        split; [exact K|]. split; [exact W|]. right. exists t. auto.
      * rewrite Hout in Hret by auto. injection Hret as <- <-.
        right. split; [reflexivity|]. split; [reflexivity|].
        split; [exact K|]. split; [exact W|]. right. exists t. auto.
      * rewrite Hin in Hret by lra. injection Hret as <- <-.
        left. exists t.
        split; [reflexivity|]. split; [reflexivity|]. split; [lra|].
        split; [reflexivity|].
        right. split; [exact K|]. split; [exact W|]. lra.
    + rewrite Hrep in Hret. injection Hret as <- <-.
      right. split; [reflexivity|]. split; [reflexivity|].
      split; [exact K|]. split; [exact W|]. now left.
    + rewrite Hrep in Hret. injection Hret as <- <-.
      right. split; [reflexivity|]. split; [reflexivity|].
      split; [exact K|]. split; [exact W|]. now left.
    + rewrite (proj2 (outside_special L (IEEE.eps_0 v')) Ht) in W.
      discriminate.
Qed.

Lemma returned_value_meaning_witness :
  exists v',
    IEEE.newton_loop (fun y => y) (1 / 1000000) 2 1 (grid 2 1) 1
      (map fin [C1; C1]) 1
      (IEEE.initial_vars (grid 2 1) 1 (map fin [C1; C1]) 1)
    = IEEE.Stopped v'
    /\ IEEE.keep_going (1 / 1000000) v' = true
    /\ IEEE.out_of_window 1 (IEEE.eps_0 v') = true.
Proof.
  destruct (two_point_break (fun y => y) (1 / 1000000) 2 1 (grid 2 1) 1
              [C1; C1] 0 eq_refl tol_below_millionth)
    as (v1 & Hl & Hs & _).
  assert (Hrun : IEEE.run_newton (fun y => y) (1 / 1000000) 1 2 1 RemoveAdd 1
                   (grid 2 1) 1 (map fin [C1; C1])
                   (IEEE.initial_vars (grid 2 1) 1 (map fin [C1; C1]) 1)
                 = IEEE.Returned XPInf [IEEE.MsgOutOfWindow]).
  { unfold IEEE.run_newton. rewrite Hl.
    pose proof (report_cases (1 / 1000000) 1 1 RemoveAdd (IEEE.eps_0 v1)) as H.
    now rewrite Hs in H. }
  destruct (returned_value_meaning (fun y => y) RemoveAdd (1 / 1000000) 1 2 1
              1 (grid 2 1) 1 (map fin [C1; C1]) 1 _ _ Rlt_0_1 Hrun)
    as (v' & Hl' & [(t & Hr & _)|(_ & _ & K & W & _)]).
  - discriminate.
  - exists v'. split; [exact Hl'|]. split; assumption.
Defined.

(** X13.  On the grid ([nx > 0], [dx >= 0]), at a real iterate [e], for a
    composed density whose real parts are not negative and for whatever
    start index [k >= 0] the floor gives: if no grid point above the
    index [k] lies below [e], the real part of [delta] is not negative and
    the real part of the derivative is not positive, every weight
    [1 - exp (e - x_i)] that enters the sums being in [0, 1) (it is 0 at a
    grid point equal to [e]). *)
Theorem tail_integral_signs
  (nx : Z) (L dx : R) (cfx : list C) (e : R) (k : Z) :
  (0 < nx)%Z -> 0 <= dx -> length cfx = Z.to_nat nx -> (0 <= k)%Z ->
  (forall c, In c cfx -> 0 <= Re c) ->
  (forall i, (i < Z.to_nat nx)%nat -> (k < Z.of_nat i)%Z ->
     e <= Re (nth i (grid nx L) C0)) ->
  0 <= Re (tail_delta (grid nx L) dx cfx (RtoC e) k)
  /\ Re (tail_derivative (grid nx L) dx cfx (RtoC e) k) <= 0
  /\ forall i, (i < Z.to_nat nx)%nat -> (k < Z.of_nat i)%Z ->
       0 <= 1 - exp (e - Re (nth i (grid nx L) C0)) < 1.
Proof.
  intros Hnx Hdx Hcfx Hk0 Hpos Habove.
  assert (Hw : forall i, (i < Z.to_nat nx)%nat -> (k < Z.of_nat i)%Z ->
             nth i (grid nx L) C0 = RtoC (- L + INR i * (2 * L / IZR nx))
             /\ 0 < exp (e - (- L + INR i * (2 * L / IZR nx))) <= 1).
  { intros i Hi Hk. pose proof (Habove i Hi Hk) as Ha.
    rewrite nth_grid in Ha |- * by assumption. cbn [Re RtoC] in Ha.
    split; [reflexivity|]. split; [apply exp_pos|].
    rewrite <- exp_0. destruct Ha as [Ha|Ha].
    - left. apply exp_increasing. lra.
    - right. f_equal. lra. }
  assert (Hlen : length cfx = length (grid nx L))
    by (now rewrite length_grid).
  assert (Hidx : forall i,
             In i (seq (Z.to_nat (k + 1))
                       (length (grid nx L) - Z.to_nat (k + 1))) ->
             (i < Z.to_nat nx)%nat /\ (k < Z.of_nat i)%Z).
  { intros i Hin. apply in_seq in Hin. rewrite length_grid in Hin. lia. }
  split; [|split].
  - unfold tail_delta, exp_e_of.
    rewrite (tail_slice_at (grid nx L) cfx k) by assumption.
    cbn [Re Cmul RtoC]. rewrite Rmult_0_r, Rminus_0_r.
    apply Rmult_le_pos; [|exact Hdx].
    rewrite (proj1 (Csum_parts _)), map_map.
    apply Rsum_map_nonneg. intros i Hin.
    destruct (Hidx i Hin) as [Hi Hk].
    destruct (Hw i Hi Hk) as [-> Hexp].
    rewrite Csub_real, Cexp_real. unfold C1. rewrite Csub_real.
    cbn [Re Im Cmul RtoC]. rewrite Rmult_0_l, Rminus_0_r.
    apply Rmult_le_pos; [lra|].
    apply Hpos, nth_In. lia.
  - unfold tail_derivative, dexp_e_of.
    rewrite (tail_slice_at (grid nx L) cfx k) by assumption.
    cbn [Re Cmul RtoC]. rewrite Rmult_0_r, Rminus_0_r.
    match goal with |- ?s * dx <= 0 =>
      assert (Hs : 0 <= - s); [|nra] end.
    rewrite (proj1 (Csum_parts _)), map_map.
    rewrite Rsum_map_opp. apply Rsum_map_nonneg. intros i Hin.
    destruct (Hidx i Hin) as [Hi Hk].
    destruct (Hw i Hi Hk) as [-> Hexp].
    rewrite Csub_real, Cexp_real, Cneg_real.
    cbn [Re Im Cmul RtoC]. rewrite Rmult_0_l, Rminus_0_r.
    assert (0 <= Re (nth i cfx C0)) by (apply Hpos, nth_In; lia).
    nra.
  - intros i Hi Hk. destruct (Hw i Hi Hk) as [-> Hexp].
    cbn [Re RtoC]. lra.
Qed.

Lemma tail_integral_signs_witness :
  0 <= Re (tail_delta (grid 4 2) 1 [C1; C1; C1; C1] (RtoC 0) 1)
  /\ Re (tail_derivative (grid 4 2) 1 [C1; C1; C1; C1] (RtoC 0) 1) <= 0.
Proof.
  assert (H : forall c, In c [C1; C1; C1; C1] -> 0 <= Re c).
  { intros c Hin. cbn in Hin.
    destruct Hin as [<-|[<-|[<-|[<-|[]]]]]; cbn; lra. }
  assert (Ha : forall i, (i < Z.to_nat 4)%nat -> (1 < Z.of_nat i)%Z ->
             0 <= Re (nth i (grid 4 2) C0)).
  { intros i Hi Hk. rewrite nth_grid by assumption. cbn [Re RtoC].
    assert (2 <= INR i).
    { change 2 with (INR 2). apply le_INR. lia. }
    lra. }
  pose proof (tail_integral_signs 4 2 1 [C1; C1; C1; C1] 0 1 eq_refl
                ltac:(lra) eq_refl ltac:(lia) H Ha) as (H1 & H2 & _).
  split; assumption.
Defined.

